(** * Transport core of the Cyphal stack: a shallow embedding

    The development follows the sources:
    - [Multiset]        : uavcan/util/multiset.hpp ([MultisetBase]);
    - [ResponsePromise] : libcyphal/presentation/response_promise.hpp
                          ([ResponsePromiseBase]);
    - [Can]             : libcyphal/transport/can/transport.hpp
                          ([can::detail::TransportImpl]) and
                          can/svc_rx_sessions.hpp ([SvcRxSession]);
    - [Udp]             : libcyphal/transport/udp/udp_transport_impl.hpp
                          ([udp::detail::TransportImpl]: the factory, the
                          node id, the TX sockets);
    - [Posix]           : posix/libcyphal/transport/udp/session/
                          output_session.hpp ([PosixOutputSession]).

    External collaborators (media drivers, the frame codec, the memory
    resource) are interfaces of the program and appear here as type
    classes over an abstract world; every call that the properties talk
    about is also written into an event log. *)

From Stdlib Require Import List ZArith Lia Bool Arith PeanoNat Sorted.
Import ListNotations.

Set Implicit Arguments.

(* ===================================================================== *)
(** * uavcan/util/multiset.hpp *)
(* ===================================================================== *)

Module Multiset.

(** [enum RemoveStrategy { RemoveOne, RemoveAll }]. *)
Inductive RemoveStrategy := RemoveOne | RemoveAll.

Definition is_RemoveOne (s : RemoveStrategy) : bool :=
  match s with RemoveOne => true | RemoveAll => false end.

Section MultisetBase.

(** The element type, and [Chunk::NumItems]: the number of slots that fit
    into one pool block. *)
Variable T : Type.
Variable NumItems : nat.

(** [struct Item]: [ptr] is either [NULL] or points to the object that
    lives in the slot's own [pool]; a slot is thus [None] or [Some x].
    The address of an element is the position of its slot. *)
Definition Item := option T.

Definition isConstructed (it : Item) : bool :=
  match it with Some _ => true | None => false end.

Definition destroy (it : Item) : Item := None.

(** [struct Chunk]: [Item items[NumItems]]. *)
Definition Chunk := list Item.

Definition new_Chunk : Chunk := repeat None NumItems.

(** [static_] with [num_static_entries_] slots, and the linked list
    [list_] of dynamic chunks, head first. *)
Record MultisetBase := mkMultiset {
  static_ : list Item;
  list_ : list Chunk
}.

(** [Chunk::findFreeSlot]: index of the first slot not constructed. *)
Fixpoint findFreeSlot (items : list Item) : option nat :=
  match items with
  | [] => None
  | it :: rest =>
      if isConstructed it then option_map S (findFreeSlot rest) else Some 0
  end.

Fixpoint set_slot (items : list Item) (i : nat) (v : Item) : list Item :=
  match items, i with
  | [], _ => []
  | _ :: rest, O => v :: rest
  | it :: rest, S j => it :: set_slot rest j v
  end.

(** The search of [findOrCreateFreeSlot] in the dynamic pool, fused with
    the construction of the new element in the slot found. *)
Fixpoint add_dynamic (chunks : list Chunk) (x : T) : option (list Chunk) :=
  match chunks with
  | [] => None
  | p :: rest =>
      match findFreeSlot p with
      | Some i => Some (set_slot p i (Some x) :: rest)
      | None => option_map (cons p) (add_dynamic rest x)
      end
  end.

(** [add(p1)]: [findOrCreateFreeSlot] then placement new. The result is
    [None] when a chunk is needed and the pool allocator returns [NULL]
    ([pool_has_block = false]). [LinkedListRoot::insert] puts the new
    chunk at the head of [list_]. *)
Definition add (pool_has_block : bool) (x : T) (m : MultisetBase)
  : option MultisetBase :=
  match findFreeSlot (static_ m) with
  | Some i => Some (mkMultiset (set_slot (static_ m) i (Some x)) (list_ m))
  | None =>
      match add_dynamic (list_ m) x with
      | Some chunks => Some (mkMultiset (static_ m) chunks)
      | None =>
          if pool_has_block then
            match NumItems with
            | O => None
            | S _ =>
                Some (mkMultiset (static_ m)
                        (set_slot new_Chunk 0 (Some x) :: list_ m))
            end
          else None
      end
  end.

(** One slot of either loop of [removeMatching]: the predicate is called
    on constructed items only; a hit bumps [num_removed] and destroys. *)
Definition remove_in_slot (predicate : T -> bool) (it : Item)
           (num_removed : nat) : Item * nat :=
  match it with
  | Some x =>
      if predicate x then (destroy it, S num_removed) else (it, num_removed)
  | None => (it, num_removed)
  end.

(** The loop over the static slab: after every slot,
    [if ((num_removed > 0) && (strategy == RemoveOne)) break;]. *)
Fixpoint remove_static (predicate : T -> bool) (strategy : RemoveStrategy)
         (items : list Item) (num_removed : nat) : list Item * nat :=
  match items with
  | [] => ([], num_removed)
  | it :: rest =>
      let '(it', n') := remove_in_slot predicate it num_removed in
      if (0 <? n') && is_RemoveOne strategy then (it' :: rest, n')
      else
        let '(rest', n'') := remove_static predicate strategy rest n' in
        (it' :: rest', n'')
  end.

(** The inner [for] over the slots of one chunk: it has no [break]. *)
Fixpoint remove_chunk_items (predicate : T -> bool) (items : list Item)
         (num_removed : nat) : list Item * nat :=
  match items with
  | [] => ([], num_removed)
  | it :: rest =>
      let '(it', n') := remove_in_slot predicate it num_removed in
      let '(rest', n'') := remove_chunk_items predicate rest n' in
      (it' :: rest', n'')
  end.

(** The [while (p)] loop over the chunks: the strategy is tested once
    per chunk, before its slots are visited. *)
Fixpoint remove_chunks (predicate : T -> bool) (strategy : RemoveStrategy)
         (chunks : list Chunk) (num_removed : nat) : list Chunk * nat :=
  match chunks with
  | [] => ([], num_removed)
  | p :: rest =>
      if (0 <? num_removed) && is_RemoveOne strategy
      then (p :: rest, num_removed)
      else
        let '(p', n') := remove_chunk_items predicate p num_removed in
        let '(rest', n'') := remove_chunks predicate strategy rest n' in
        (p' :: rest', n'')
  end.

(** [compact]: every chunk without a constructed item is unlinked and
    given back to the allocator. *)
Definition compact (chunks : list Chunk) : list Chunk :=
  filter (fun p => existsb isConstructed p) chunks.

Definition removeMatching (predicate : T -> bool) (strategy : RemoveStrategy)
           (m : MultisetBase) : MultisetBase :=
  let '(st, n1) := remove_static predicate strategy (static_ m) 0 in
  let '(ch, n2) := remove_chunks predicate strategy (list_ m) n1 in
  mkMultiset st (if 0 <? n2 then compact ch else ch).

Definition removeAllMatching (predicate : T -> bool) :=
  removeMatching predicate RemoveAll.

Definition removeFirstMatching (predicate : T -> bool) :=
  removeMatching predicate RemoveOne.

(** The stored elements in the container's internal order: static slab
    first, then the chunks from the head of the list. *)
Definition elements_of (items : list Item) : list T :=
  flat_map (fun it => match it with Some x => [x] | None => [] end) items.

Definition elements (m : MultisetBase) : list T :=
  elements_of (static_ m) ++ flat_map elements_of (list_ m).

(** [find]: first stored element for which the predicate holds. *)
Definition find (predicate : T -> bool) (m : MultisetBase) : option T :=
  List.find predicate (elements m).

Definition count_constructed (items : list Item) : nat :=
  length (filter isConstructed items).

Definition getNumStaticItems (m : MultisetBase) : nat :=
  count_constructed (static_ m).

Definition getNumDynamicItems (m : MultisetBase) : nat :=
  list_sum (map count_constructed (list_ m)).

Definition getSize (m : MultisetBase) : nat :=
  getNumStaticItems m + getNumDynamicItems m.

(** What the name and the static loop promise: the first stored element
    that satisfies the predicate is removed, nothing else. *)
Fixpoint remove_first (predicate : T -> bool) (l : list T) : list T :=
  match l with
  | [] => []
  | x :: rest =>
      if predicate x then rest else x :: remove_first predicate rest
  end.

(** What the loop over the chunks does under [RemoveOne], on the elements
    of the chunks: the first chunk that has a match loses every match it
    has. *)
Fixpoint purge_first_chunk (predicate : T -> bool) (chunks : list (list T))
  : list (list T) :=
  match chunks with
  | [] => []
  | c :: rest =>
      if existsb predicate c
      then filter (fun x => negb (predicate x)) c :: rest
      else c :: purge_first_chunk predicate rest
  end.

(** [find] as the loops have it, for a predicate object [predicate] that
    is called through [call] and may change with every call
    ([getByIndex] hands its predicate over by reference): the static
    slab first, then the chunks from the head of the list; the predicate
    is called on constructed items only, and the first hit is returned. *)
Section FindLoops.

Variable P : Type.
Variable call : P -> T -> bool * P.

Fixpoint find_in_items (items : list Item) (predicate : P) : option T * P :=
  match items with
  | [] => (None, predicate)
  | Some x :: rest =>
      let '(hit, predicate') := call predicate x in
      if hit : bool then (Some x, predicate')
      else find_in_items rest predicate'
  | None :: rest => find_in_items rest predicate
  end.

Fixpoint find_in_chunks (chunks : list Chunk) (predicate : P) : option T * P :=
  match chunks with
  | [] => (None, predicate)
  | p :: rest =>
      match find_in_items p predicate with
      | (Some x, predicate') => (Some x, predicate')
      | (None, predicate') => find_in_chunks rest predicate'
      end
  end.

Definition find_ref (m : MultisetBase) (predicate : P) : option T * P :=
  match find_in_items (static_ m) predicate with
  | (Some x, predicate') => (Some x, predicate')
  | (None, predicate') => find_in_chunks (list_ m) predicate'
  end.

End FindLoops.

(** A predicate without state, called by value. *)
Definition by_value (predicate : T -> bool) (u : unit) (x : T) : bool * unit :=
  (predicate x, u).

(** [struct YesPredicate]. *)
Definition YesPredicate (_ : T) : bool := true.

(** [struct IndexPredicate]: [return index--==0;] on an [unsigned], taken
    to be 32 bits wide. *)
Definition IndexPredicate (index : Z) (_ : T) : bool * Z :=
  ((index =? 0)%Z, ((index - 1) mod 2 ^ 32)%Z).

(** [getByIndex]. *)
Definition getByIndex (index : Z) (m : MultisetBase) : option T :=
  fst (find_ref IndexPredicate m index).

(** [isEmpty]: [find(YesPredicate()) == NULL]. *)
Definition isEmpty (m : MultisetBase) : bool :=
  match fst (find_ref (by_value YesPredicate) m tt) with
  | Some _ => false
  | None => true
  end.

(** [removeAll]. *)
Definition removeAll (m : MultisetBase) : MultisetBase :=
  removeAllMatching YesPredicate m.

(** The constructor of [Multiset<T, NumStaticEntries>]: a slab of
    default-constructed items and no chunk. *)
Definition Multiset_new (NumStaticEntries : nat) : MultisetBase :=
  mkMultiset (repeat None NumStaticEntries) [].

(** The multisets that the public operations can produce. *)
Inductive built (NumStaticEntries : nat) : MultisetBase -> Prop :=
| built_new : built NumStaticEntries (Multiset_new NumStaticEntries)
| built_add : forall pool_has_block x m m',
    built NumStaticEntries m ->
    add pool_has_block x m = Some m' ->
    built NumStaticEntries m'
| built_removeMatching : forall predicate strategy m,
    built NumStaticEntries m ->
    built NumStaticEntries (removeMatching predicate strategy m).

(** No chunk of the list is without a constructed item. *)
Definition no_empty_chunk (m : MultisetBase) : Prop :=
  Forall (fun p => existsb isConstructed p = true) (list_ m).

(** Every slot of the slab and of the chunks holds an object. *)
Definition all_slots_taken (m : MultisetBase) : bool :=
  forallb isConstructed (static_ m)
  && forallb (forallb isConstructed) (list_ m).

End MultisetBase.

(** An [int] multiset without static entries and with three slots per
    chunk, holding the value 7 twice. *)
Definition two_sevens : MultisetBase nat :=
  mkMultiset [] [[Some 7; Some 7; None]].

End Multiset.


(* ===================================================================== *)
(** * libcyphal/presentation/response_promise.hpp *)
(* ===================================================================== *)

Module ResponsePromise.

(** [TimePoint]: microseconds of the monotonic clock. *)
Definition TimePoint := Z.

Definition TransferId := Z.

Section ResponsePromiseBase.

(** [Success] is the response with its metadata; [Error] stands for the
    failures of the typed promise other than expiry ([MemoryError], a
    deserialization error); [Function] is the type of the non-empty values
    of [Callback::Function], the empty function being [None]. *)
Variable Success : Type.
Variable Error : Type.
Variable Function : Type.

(** [ResponsePromiseExpired] and the other members of the failure
    variant. *)
Inductive Failure :=
| ResponsePromiseExpired (deadline : TimePoint)
| ResponseFailure (e : Error).

(** [using Result = Expected<Success, Failure>]. *)
Inductive Result :=
| ResultSuccess (s : Success)
| ResultFailure (f : Failure).

(** What a call does that the caller can see from outside the promise:
    [Invoked fn result approx_now] is the call [fn(Arg{result, approx_now})].
    The function is code of the user and is taken not to call back into
    the promise. *)
Inductive Effect :=
| Invoked (fn : Function) (result : Result) (approx_now : TimePoint).

(** The data members of [ResponsePromiseBase], with those of its base
    class [CallbackNode]: the transfer id and the deadline under which the
    node is filed in the shared client, and [linked], whether it still is. *)
Record ResponsePromiseBase := mkPromise {
  transfer_id_ : TransferId;
  deadline_ : TimePoint;
  linked_ : bool;
  request_time_ : TimePoint;
  callback_fn_ : option Function;
  opt_result_ : option Result
}.

Definition set_callback_fn (p : ResponsePromiseBase) (f : option Function) :=
  mkPromise (transfer_id_ p) (deadline_ p) (linked_ p) (request_time_ p)
            f (opt_result_ p).

Definition set_opt_result (p : ResponsePromiseBase) (r : option Result) :=
  mkPromise (transfer_id_ p) (deadline_ p) (linked_ p) (request_time_ p)
            (callback_fn_ p) r.

Definition set_linked (p : ResponsePromiseBase) (b : bool) :=
  mkPromise (transfer_id_ p) (deadline_ p) b (request_time_ p)
            (callback_fn_ p) (opt_result_ p).

Definition set_deadline (p : ResponsePromiseBase) (d : TimePoint) :=
  mkPromise (transfer_id_ p) d (linked_ p) (request_time_ p)
            (callback_fn_ p) (opt_result_ p).

(** The protected constructor: the node is retained by the client, the
    request time is read from the client's clock. *)
Definition make (transfer_id : TransferId) (response_deadline : TimePoint)
           (now : TimePoint) : ResponsePromiseBase :=
  mkPromise transfer_id response_deadline true now None None.

(** [getResult]: peeks, consumes nothing. *)
Definition getResult (p : ResponsePromiseBase) : option Result :=
  opt_result_ p.

(** [fetchResult]: moves the stored value out and resets the slot. *)
Definition fetchResult (p : ResponsePromiseBase)
  : option Result * ResponsePromiseBase :=
  match opt_result_ p with
  | Some result => (Some result, set_opt_result p None)
  | None => (None, p)
  end.

Definition getRequestTime (p : ResponsePromiseBase) : TimePoint :=
  request_time_ p.

(** [acceptResult]: with a callback installed, the callback is exchanged
    for the empty one and then called; the result is not stored. Without,
    the result is emplaced. *)
Definition acceptResult (result : Result) (approx_now : TimePoint)
           (p : ResponsePromiseBase) : ResponsePromiseBase * list Effect :=
  match callback_fn_ p with
  | Some local_callback_fn =>
      (set_callback_fn p None, [Invoked local_callback_fn result approx_now])
  | None => (set_opt_result p (Some result), [])
  end.

(** [acceptNewCallback]; [now] is the reading of [shared_client_->now()]. *)
Definition acceptNewCallback (callback_fn : option Function) (now : TimePoint)
           (p : ResponsePromiseBase) : ResponsePromiseBase * list Effect :=
  match callback_fn with
  | Some fn =>
      match fetchResult p with
      | (Some result, p') => (p', [Invoked fn result now])
      | (None, p') => (set_callback_fn p' callback_fn, [])
      end
  | None => (set_callback_fn p callback_fn, [])
  end.

Definition setCallback := acceptNewCallback.

(** [onResponseTimeout]. *)
Definition onResponseTimeout (deadline approx_now : TimePoint)
           (p : ResponsePromiseBase) : ResponsePromiseBase * list Effect :=
  acceptResult (ResultFailure (ResponsePromiseExpired deadline)) approx_now p.

(** [onResponseRxTransfer]: the typed promise deserializes first and
    accepts either the response or the failure, the raw one accepts the
    payload as it is; [outcome] is what is accepted. *)
Definition onResponseRxTransfer (outcome : Result) (approx_now : TimePoint)
           (p : ResponsePromiseBase) : ResponsePromiseBase * list Effect :=
  acceptResult outcome approx_now p.

(** Modelled from the spec: [SharedClient] (client_impl.hpp) is not among
    the sources. An inbound response finds the node by its transfer id;
    resolution removes the node from both indices and then hands the
    result to the promise. *)
Definition client_onResponseRxTransfer (transfer_id : TransferId)
           (outcome : Result) (approx_now : TimePoint)
           (p : ResponsePromiseBase) : ResponsePromiseBase * list Effect :=
  if linked_ p && (transfer_id =? transfer_id_ p)%Z
  then onResponseRxTransfer outcome approx_now (set_linked p false)
  else (p, []).

(** Modelled from the spec: the tick of [SharedClient]. During [run(now)]
    the client walks its deadline list while [node.deadline <= now] and
    resolves each node with the expiry of its deadline. *)
Definition client_run (now : TimePoint) (p : ResponsePromiseBase)
  : ResponsePromiseBase * list Effect :=
  if linked_ p && (deadline_ p <=? now)%Z
  then onResponseTimeout (deadline_ p) now (set_linked p false)
  else (p, []).

(** Modelled from the spec: [SharedClient::updateDeadlineOfTimeoutNode],
    to which [acceptNewDeadline] forwards. The deadline index is updated;
    there is no effect if the promise is already resolved. *)
Definition setDeadline (deadline : TimePoint) (p : ResponsePromiseBase)
  : ResponsePromiseBase :=
  if linked_ p then set_deadline p deadline else p.

(** The calls a promise sees during its life: those of its public surface
    and the two deliveries of the client. *)
Inductive Call :=
| CallGetResult
| CallFetchResult
| CallSetCallback (callback_fn : option Function) (now : TimePoint)
| CallSetDeadline (deadline : TimePoint)
| CallResponse (transfer_id : TransferId) (outcome : Result)
               (approx_now : TimePoint)
| CallRun (now : TimePoint).

(** What a call yields: the value returned by [getResult] or
    [fetchResult], and the callbacks invoked. *)
Record Outcome := mkOutcome {
  returned : option Result;
  effects : list Effect
}.

Definition call (c : Call) (p : ResponsePromiseBase)
  : ResponsePromiseBase * Outcome :=
  match c with
  | CallGetResult => (p, mkOutcome (getResult p) [])
  | CallFetchResult =>
      let '(r, p') := fetchResult p in (p', mkOutcome r [])
  | CallSetCallback fn now =>
      let '(p', e) := setCallback fn now p in (p', mkOutcome None e)
  | CallSetDeadline d => (setDeadline d p, mkOutcome None [])
  | CallResponse tid outcome now =>
      let '(p', e) := client_onResponseRxTransfer tid outcome now p in
      (p', mkOutcome None e)
  | CallRun now =>
      let '(p', e) := client_run now p in (p', mkOutcome None e)
  end.

Fixpoint calls (cs : list Call) (p : ResponsePromiseBase)
  : ResponsePromiseBase * list Outcome :=
  match cs with
  | [] => (p, [])
  | c :: rest =>
      let '(p1, o) := call c p in
      let '(p2, os) := calls rest p1 in
      (p2, o :: os)
  end.

(** The promise is resolved by a call when that call hands it a result:
    the node leaves the client's indices. *)
Definition resolves (c : Call) (p : ResponsePromiseBase) : bool :=
  match c with
  | CallResponse tid _ _ => linked_ p && (tid =? transfer_id_ p)%Z
  | CallRun now => linked_ p && (deadline_ p <=? now)%Z
  | _ => false
  end.

Fixpoint resolutions (cs : list Call) (p : ResponsePromiseBase) : nat :=
  match cs with
  | [] => 0
  | c :: rest =>
      (if resolves c p then 1 else 0) + resolutions rest (fst (call c p))
  end.

(** The protected methods called at will, without the client's
    discipline: what the class itself guarantees. *)
Inductive Method :=
| MGetResult
| MFetchResult
| MAcceptNewCallback (callback_fn : option Function) (now : TimePoint)
| MAcceptResult (result : Result) (approx_now : TimePoint)
| MOnResponseTimeout (deadline approx_now : TimePoint).

Definition invoke (m : Method) (p : ResponsePromiseBase)
  : ResponsePromiseBase * list Effect :=
  match m with
  | MGetResult => (p, [])
  | MFetchResult => (snd (fetchResult p), [])
  | MAcceptNewCallback fn now => acceptNewCallback fn now p
  | MAcceptResult r now => acceptResult r now p
  | MOnResponseTimeout d now => onResponseTimeout d now p
  end.

Fixpoint invoke_all (ms : list Method) (p : ResponsePromiseBase)
  : ResponsePromiseBase * list Effect :=
  match ms with
  | [] => (p, [])
  | m :: rest =>
      let '(p1, e1) := invoke m p in
      let '(p2, e2) := invoke_all rest p1 in
      (p2, e1 ++ e2)
  end.

(** A promise that holds no result and is out of the client's indices:
    nothing is left to be delivered. *)
Definition spent (p : ResponsePromiseBase) : Prop :=
  opt_result_ p = None /\ linked_ p = false.

(** A stored result means that the node left the indices. *)
Definition resolved_if_stored (p : ResponsePromiseBase) : Prop :=
  opt_result_ p <> None -> linked_ p = false.

(** What is still to come: one resolution while the node is linked, one
    fetch for that resolution or for the result already stored. *)
Definition pending (p : ResponsePromiseBase) : nat :=
  (if linked_ p then 1 else 0)
  + (match opt_result_ p with Some _ => 1 | None => 0 end).

(** The fetches of a sequence of calls that return a result. *)
Definition fetches_result (c : Call) (p : ResponsePromiseBase) : bool :=
  match c, opt_result_ p with
  | CallFetchResult, Some _ => true
  | _, _ => false
  end.

Fixpoint nonempty_fetches (cs : list Call) (p : ResponsePromiseBase) : nat :=
  match cs with
  | [] => 0
  | c :: rest =>
      (if fetches_result c p then 1 else 0)
      + nonempty_fetches rest (fst (call c p))
  end.

(** How often a function was handed over as the callback, and how often
    it was invoked; functions are told apart by [Function_eq_dec]. *)
Variable Function_eq_dec : forall a b : Function, {a = b} + {a <> b}.

Definition same_function (a : Function) (b : option Function) : bool :=
  match b with
  | Some f => if Function_eq_dec a f then true else false
  | None => false
  end.

Definition installations (fn : Function) (ms : list Method) : nat :=
  length (filter (fun m => match m with
                           | MAcceptNewCallback f _ => same_function fn f
                           | _ => false
                           end) ms).

Definition invocations (fn : Function) (es : list Effect) : nat :=
  length (filter (fun e => match e with
                           | Invoked f _ _ => same_function fn (Some f)
                           end) es).

(** The two ways of delivery keep apart: no callback is kept while a
    result is stored. *)
Definition exclusive (p : ResponsePromiseBase) : Prop :=
  callback_fn_ p = None \/ opt_result_ p = None.

End ResponsePromiseBase.

End ResponsePromise.


(* ===================================================================== *)
(** * Types shared by the transports (libcyphal/types.hpp, errors) *)
(* ===================================================================== *)

(** [Expected<Success, Failure>]: a variant of the two. *)
Inductive Expected (S F : Type) :=
| Value (s : S)
| Failure (f : F).

Arguments Value {S F} s.
Arguments Failure {S F} f.

(** [TimePoint]: [MonotonicClock::time_point], a count of microseconds
    held in [std::int64_t]. *)
Definition TimePoint := Z.

(** [NodeId] and [PortId] are [std::uint16_t]. *)
Definition NodeId := Z.
Definition PortId := Z.

Definition uint8_max : Z := 255.
Definition uint16_max : Z := 65535.

(** Conversions between integer types, as [static_cast] does them. *)
Definition to_uint8 (z : Z) : Z := z mod 2 ^ 8.
Definition to_uint64 (z : Z) : Z := z mod 2 ^ 64.
Definition to_int64 (z : Z) : Z := (z + 2 ^ 63) mod 2 ^ 64 - 2 ^ 63.

(** The members of the error variants that the transports produce.
    [OtherError] stands for the rest of [AnyError]. *)
Inductive AnyError :=
| ArgumentError
| MemoryError
| AlreadyExistsError
| NotImplementedError
| OtherError (code : Z).

(** [FactoryError]: what [makeTransport] may fail with. *)
Inductive FactoryError :=
| FactoryArgumentError
| FactoryMemoryError.

(** [MediaError]: opaque to the transport. *)
Inductive MediaError := mkMediaError (code : Z).

(** An [IMedia*]: the identity of a media interface object. *)
Definition IMediaRef := nat.

(** What memory is asked for; the memory resource decides by request and
    by its own state. *)
Inductive AllocRequest :=
| AllocMediaArray (media_count : nat)
| AllocTransport
| AllocSession
| AllocPayload (size : nat)
| AllocFilters (count : nat).

(** [cetl::pmr::memory_resource]: [allocate] answers whether the block was
    obtained (a non-null pointer). *)
Class MemoryResource (World : Type) := {
  allocate : AllocRequest -> World -> bool * World;
  deallocate : AllocRequest -> World -> World
}.

(** Effectful code threads the world of the external collaborators and
    writes the calls of interest into a log, oldest first. *)
Section Effects.

Variable World : Type.
Variable Event : Type.

Definition M (A : Type) : Type := World -> A * World * list Event.

Definition ret {A} (a : A) : M A := fun w => (a, w, []).

Definition bind {A B} (c : M A) (k : A -> M B) : M B :=
  fun w =>
    let '(a, w1, e1) := c w in
    let '(b, w2, e2) := k a w1 in
    (b, w2, e1 ++ e2).

Definition emit (e : Event) : M unit := fun w => (tt, w, [e]).

(** A call into the world that is not logged. *)
Definition lift {A} (f : World -> A * World) : M A :=
  fun w => let '(a, w') := f w in (a, w', []).

Definition result_of {A} (r : A * World * list Event) : A := fst (fst r).
Definition world_of {A} (r : A * World * list Event) : World := snd (fst r).
Definition events_of {A} (r : A * World * list Event) : list Event := snd r.

End Effects.

Arguments ret {World Event A} a.
Arguments bind {World Event A B} c k.
Arguments emit {World Event} e.
Arguments lift {World Event A} f.

Declare Scope eff_scope.
Delimit Scope eff_scope with eff.
Notation "x <- c ;; k" := (bind c (fun x => k))
  (at level 61, c at next level, right associativity) : eff_scope.
Notation "c ;;; k" := (bind c (fun _ => k))
  (at level 61, right associativity) : eff_scope.


(* ===================================================================== *)
(** * libcyphal/transport/can/transport.hpp *)
(* ===================================================================== *)

Module Can.

Local Open Scope Z_scope.
Local Open Scope eff_scope.

(** Constants of canard.h, as the tests of the transport spell them out:
    [CANARD_NODE_ID_MAX + 1] is 128 and [CANARD_NODE_ID_UNSET] is the
    "magic 255 number". *)
Definition CANARD_NODE_ID_MAX : Z := 127.
Definition CANARD_NODE_ID_UNSET : Z := 255.
Definition CANARD_SUBJECT_ID_MAX : Z := 8191.
Definition CANARD_SERVICE_ID_MAX : Z := 511.
Definition CANARD_MTU_MAX : nat := 64.
Definition CANARD_DEFAULT_TRANSFER_ID_TIMEOUT_USEC : Z := 2000000.

(** [enum CanardTransferKind], in the order of the enumeration. *)
Inductive CanardTransferKind :=
| CanardTransferKindMessage
| CanardTransferKindResponse
| CanardTransferKindRequest.

Definition kind_eqb (a b : CanardTransferKind) : bool :=
  match a, b with
  | CanardTransferKindMessage, CanardTransferKindMessage => true
  | CanardTransferKindResponse, CanardTransferKindResponse => true
  | CanardTransferKindRequest, CanardTransferKindRequest => true
  | _, _ => false
  end.

(** [CanardFrame]; [payload_size] is the length of [payload]. *)
Record CanardFrame := mkFrame {
  extended_can_id : Z;
  payload : list Byte.byte
}.

(** [CanardTxQueueItem]: [tx_deadline_usec] is a [uint64_t]. *)
Record CanardTxQueueItem := mkTxItem {
  tx_deadline_usec : Z;
  frame : CanardFrame
}.

(** [CanardTxQueue]: the items in the order in which [canardTxPeek]
    yields them, the top of the queue first. *)
Record CanardTxQueue := mkTxQueue {
  capacity : nat;
  mtu_bytes : nat;
  tx_items : list CanardTxQueueItem
}.

Record CanardTransferMetadata := mkMetadata {
  priority : Z;
  transfer_kind : CanardTransferKind;
  port_id : PortId;
  remote_node_id : Z;
  transfer_id : Z
}.

(** [CanardRxTransfer]: [timestamp_usec] is a [CanardMicrosecond], that
    is a [uint64_t]. *)
Record CanardRxTransfer := mkRxTransfer {
  rx_metadata : CanardTransferMetadata;
  timestamp_usec : Z;
  rx_payload : list Byte.byte
}.

(** [ServiceRxTransfer]: what a session hands to its user, the metadata
    ([ServiceRxMetadata]: transfer id, priority, timestamp and remote
    node id) and the payload. The timestamp is a [TimePoint]. *)
Record ServiceRxTransfer := mkServiceRxTransfer {
  svc_transfer_id : Z;
  svc_priority : Z;
  svc_timestamp : TimePoint;
  svc_remote_node_id : NodeId;
  svc_payload : list Byte.byte
}.

(** A session object is known by its address. *)
Definition SessionRef := nat.

(** A non-empty [OnReceiveCallback::Function]. *)
Definition CallbackRef := nat.

(** [CanardRxSubscription]; [user_reference] points to the session that
    embeds the subscription. *)
Record CanardRxSubscription := mkSubscription {
  sub_port_id : PortId;
  extent : nat;
  transfer_id_timeout_usec : Z;
  user_reference : SessionRef
}.

(** [Filter]: an acceptance rule of a media interface. *)
Record Filter := mkFilter {
  filter_id : Z;
  filter_mask : Z
}.

(** [RxMetadata]: what [IMedia::pop] tells about the frame it stored into
    the caller's buffer. *)
Record RxMetadata := mkRxMetadata {
  rx_timestamp : TimePoint;
  rx_can_id : Z;
  rx_payload_size : nat
}.

(** [can::IMedia]: the media interface consumed by the transport. *)
Class IMedia (World : Type) := {
  getMtu : IMediaRef -> World -> nat;
  push : IMediaRef -> TimePoint -> Z -> list Byte.byte -> World ->
         Expected bool MediaError * World;
  pop : IMediaRef -> World ->
        Expected (option (RxMetadata * list Byte.byte)) MediaError * World;
  setFilters : IMediaRef -> list Filter -> World -> option MediaError * World
}.

(** The calls that leave the transport. *)
Inductive Event :=
| EvMediaPush (media_index : Z) (interface : IMediaRef) (deadline : TimePoint)
              (can_id : Z) (data : list Byte.byte)
              (result : Expected bool MediaError)
| EvFreeTxItem (media_index : Z) (item : CanardTxQueueItem)
| EvCanardTxPush (media_index : Z) (deadline_usec : Z)
                 (metadata : CanardTransferMetadata) (data : list Byte.byte)
                 (result : Z)
| EvMediaPop (media_index : Z) (interface : IMediaRef)
| EvOnReceive (session : SessionRef) (callback : CallbackRef)
              (transfer : ServiceRxTransfer)
| EvSetFilters (media_index : Z) (interface : IMediaRef)
               (filters : list Filter) (result : option MediaError).

(** [struct Media]: index, interface and TX queue of one media. *)
Record Media := mkMedia {
  index : Z;
  interface : IMediaRef;
  canard_tx_queue : CanardTxQueue
}.

(** An RX session ([MessageRxSession], [SvcRxSession]): parameters, the
    slot of the last transfer and the callback. *)
Record RxSession := mkRxSession {
  session_ref : SessionRef;
  session_kind : CanardTransferKind;
  session_port : PortId;
  session_extent : nat;
  last_rx_transfer : option ServiceRxTransfer;
  on_receive_cb_fn : option CallbackRef
}.

(** [CanardInstance]: the node id and one subscription tree per transfer
    kind, each held as the list of its nodes in key order. *)
Record CanardInstance := mkInstance {
  node_id : Z;
  subs_message : list CanardRxSubscription;
  subs_response : list CanardRxSubscription;
  subs_request : list CanardRxSubscription
}.

Definition rx_subscriptions (ins : CanardInstance) (k : CanardTransferKind)
  : list CanardRxSubscription :=
  match k with
  | CanardTransferKindMessage => subs_message ins
  | CanardTransferKindResponse => subs_response ins
  | CanardTransferKindRequest => subs_request ins
  end.

Definition set_rx_subscriptions (ins : CanardInstance)
           (k : CanardTransferKind) (l : list CanardRxSubscription)
  : CanardInstance :=
  match k with
  | CanardTransferKindMessage =>
      mkInstance (node_id ins) l (subs_response ins) (subs_request ins)
  | CanardTransferKindResponse =>
      mkInstance (node_id ins) (subs_message ins) l (subs_request ins)
  | CanardTransferKindRequest =>
      mkInstance (node_id ins) (subs_message ins) (subs_response ins) l
  end.

Definition set_node_id (ins : CanardInstance) (n : Z) : CanardInstance :=
  mkInstance n (subs_message ins) (subs_response ins) (subs_request ins).

(** The part of libcanard that the transport takes as a black box:
    fragmentation into a TX queue, reassembly of a received frame (its
    state lives in the world; it answers with the result code, the
    transfer and the kind and port of the subscription hit), the filter
    constructors, and [TransportDelegate::anyErrorFromCanard]
    (delegate.hpp), the translation of a negative result code. *)
Class Canard (World : Type) := {
  canardTxPush : CanardTxQueue -> CanardInstance -> Z ->
                 CanardTransferMetadata -> list Byte.byte -> World ->
                 (Z * CanardTxQueue) * World;
  canardRxAccept : CanardInstance -> Z -> CanardFrame -> Z -> World ->
                   (Z * CanardRxTransfer * (CanardTransferKind * PortId))
                   * World;
  canardMakeFilterForSubject : PortId -> Filter;
  canardMakeFilterForService : PortId -> Z -> Filter;
  anyErrorFromCanard : Z -> AnyError
}.


(** The data members of [TransportImpl] with the canard instance of its
    base [TransportDelegate], and the RX sessions made by this transport
    that are alive: they live in pool memory and refer back to it. *)
Record TransportImpl := mkTransport {
  canard_instance : CanardInstance;
  media_array : list Media;
  should_reconfigure_filters : bool;
  total_message_ports : nat;
  total_service_ports : nat;
  rx_sessions : list RxSession;
  next_session_ref : SessionRef
}.

Definition set_canard_instance (t : TransportImpl) (ins : CanardInstance) :=
  mkTransport ins (media_array t) (should_reconfigure_filters t)
              (total_message_ports t) (total_service_ports t)
              (rx_sessions t) (next_session_ref t).

Definition set_media_array (t : TransportImpl) (ma : list Media) :=
  mkTransport (canard_instance t) ma (should_reconfigure_filters t)
              (total_message_ports t) (total_service_ports t)
              (rx_sessions t) (next_session_ref t).

Definition set_should_reconfigure_filters (t : TransportImpl) (b : bool) :=
  mkTransport (canard_instance t) (media_array t) b
              (total_message_ports t) (total_service_ports t)
              (rx_sessions t) (next_session_ref t).

Definition set_total_message_ports (t : TransportImpl) (n : nat) :=
  mkTransport (canard_instance t) (media_array t)
              (should_reconfigure_filters t) n (total_service_ports t)
              (rx_sessions t) (next_session_ref t).

Definition set_total_service_ports (t : TransportImpl) (n : nat) :=
  mkTransport (canard_instance t) (media_array t)
              (should_reconfigure_filters t) (total_message_ports t) n
              (rx_sessions t) (next_session_ref t).

Definition set_rx_sessions (t : TransportImpl) (l : list RxSession)
           (next : SessionRef) :=
  mkTransport (canard_instance t) (media_array t)
              (should_reconfigure_filters t) (total_message_ports t)
              (total_service_ports t) l next.

(** ** The subscription trees of libcanard *)

(** Modelled from the spec: libcanard (canard.h) is not among the sources.
    Per transfer kind, a keyed structure maps a port id to its
    subscription and can be visited in key order. A tree is the list of
    its nodes, sorted by port id; a search yields the first node with the
    key, a removal unlinks the node that the search finds, an insertion
    is a search that links the new node where the key is missing. *)
Fixpoint tree_search (port : PortId) (tree : list CanardRxSubscription)
  : option CanardRxSubscription :=
  match tree with
  | [] => None
  | s :: rest =>
      if sub_port_id s =? port then Some s else tree_search port rest
  end.

Fixpoint tree_remove (port : PortId) (tree : list CanardRxSubscription)
  : list CanardRxSubscription :=
  match tree with
  | [] => []
  | s :: rest =>
      if sub_port_id s =? port then rest else s :: tree_remove port rest
  end.

Fixpoint tree_insert (s : CanardRxSubscription)
         (tree : list CanardRxSubscription) : list CanardRxSubscription :=
  match tree with
  | [] => [s]
  | x :: rest =>
      if sub_port_id s <? sub_port_id x then s :: tree
      else if sub_port_id s =? sub_port_id x then tree
      else x :: tree_insert s rest
  end.

(** The nodes of a tree are in the strict order of their keys. *)
Definition tree_sorted (tree : list CanardRxSubscription) : Prop :=
  StronglySorted (fun a b => sub_port_id a < sub_port_id b) tree.

Definition instance_sorted (ins : CanardInstance) : Prop :=
  forall k, tree_sorted (rx_subscriptions ins k).

(** [canardRxGetSubscription]: 1 when the port is subscribed, 0 when not. *)
Definition canardRxGetSubscription (ins : CanardInstance)
           (k : CanardTransferKind) (port : PortId) : Z :=
  match tree_search port (rx_subscriptions ins k) with
  | Some _ => 1
  | None => 0
  end.

(** [canardRxUnsubscribe]: 1 when a subscription was removed, 0 when
    there was none. *)
Definition canardRxUnsubscribe (ins : CanardInstance)
           (k : CanardTransferKind) (port : PortId) : Z * CanardInstance :=
  match tree_search port (rx_subscriptions ins k) with
  | Some _ =>
      (1, set_rx_subscriptions
            ins k (tree_remove port (rx_subscriptions ins k)))
  | None => (0, ins)
  end.

(** [canardRxSubscribe]: an existing subscription of the port is removed
    first; 1 when the subscription is new, 0 when it replaced one. *)
Definition canardRxSubscribe (ins : CanardInstance) (k : CanardTransferKind)
           (s : CanardRxSubscription) : Z * CanardInstance :=
  let '(removed, ins1) := canardRxUnsubscribe ins k (sub_port_id s) in
  (if 0 <? removed then 0 else 1,
   set_rx_subscriptions ins1 k (tree_insert s (rx_subscriptions ins1 k))).

(** [canardTxInit], [canardTxPeek] and [canardTxPop]. *)
Definition canardTxInit (tx_capacity : nat) (mtu : nat) : CanardTxQueue :=
  mkTxQueue tx_capacity mtu [].

Definition canardTxPeek (q : CanardTxQueue) : option CanardTxQueueItem :=
  hd_error (tx_items q).

Definition canardTxPop (q : CanardTxQueue) : CanardTxQueue :=
  mkTxQueue (capacity q) (mtu_bytes q) (tl (tx_items q)).

Definition set_tx_items (q : CanardTxQueue) (l : list CanardTxQueueItem) :=
  mkTxQueue (capacity q) (mtu_bytes q) l.

Definition set_canard_tx_queue (m : Media) (q : CanardTxQueue) : Media :=
  mkMedia (index m) (interface m) q.

(** [Media::propagateMtuToTxQueue]'s assignment. *)
Definition set_mtu_bytes (q : CanardTxQueue) (mtu : nat) : CanardTxQueue :=
  mkTxQueue (capacity q) mtu (tx_items q).

(** The deadline of a queued frame as the drain loop reads it:
    [TimePoint{std::chrono::microseconds{tx_item->tx_deadline_usec}}]. *)
Definition deadline_of (tx_item : CanardTxQueueItem) : TimePoint :=
  to_int64 (tx_deadline_usec tx_item).

(** [FiltersUpdateCondition]. *)
Inductive FiltersUpdateCondition :=
| SubjectPortAdded
| SubjectPortRemoved
| ServicePortAdded
| ServicePortRemoved.

(** [MessageRxParams], [RequestRxParams], [ResponseRxParams]: the extent
    and the subject or service id. *)
Record RxParams := mkRxParams {
  extent_bytes : nat;
  rx_port_id : PortId
}.

(** [PayloadFragments] coalesced by [ContiguousPayload]: [data] is [None]
    for a null pointer. *)
Record ContiguousPayload := mkContiguousPayload {
  data : option (list Byte.byte);
  size : nat;
  allocated : bool
}.

Definition count_non_null (media : list (option IMediaRef)) : nat :=
  length (filter (fun p => match p with Some _ => true | None => false end)
                 media).

Definition is_empty_fragment (f : list Byte.byte) : bool :=
  match f with [] => true | _ => false end.

(** The non-null entries of a media span, in their order. *)
Definition non_null (media : list (option IMediaRef)) : list IMediaRef :=
  flat_map (fun p => match p with Some x => [x] | None => [] end) media.

(** The valid node ids. *)
Definition valid_node_id (n : NodeId) : Prop := 0 <= n <= CANARD_NODE_ID_MAX.

Section Transport.

Context {World : Type}.
Context {media_interface : IMedia World}.
Context {canard : Canard World}.
Context {memory : MemoryResource World}.

Local Abbreviation Eff := (M World Event).

(** [media.interface().push(...)], logged with its answer. *)
Definition call_push (media_index : Z) (iface : IMediaRef)
           (deadline : TimePoint) (can_id : Z) (bytes : list Byte.byte)
  : Eff (Expected bool MediaError) :=
  fun w =>
    let '(r, w') := push iface deadline can_id bytes w in
    (r, w', [EvMediaPush media_index iface deadline can_id bytes r]).

Definition call_pop (media_index : Z) (iface : IMediaRef)
  : Eff (Expected (option (RxMetadata * list Byte.byte)) MediaError) :=
  fun w =>
    let '(r, w') := pop iface w in (r, w', [EvMediaPop media_index iface]).

Definition call_setFilters (media_index : Z) (iface : IMediaRef)
           (filters : list Filter) : Eff (option MediaError) :=
  fun w =>
    let '(r, w') := setFilters iface filters w in
    (r, w', [EvSetFilters media_index iface filters r]).

Definition call_getMtu (iface : IMediaRef) : Eff nat :=
  fun w => (getMtu iface w, w, []).

Definition call_canardTxPush (media_index : Z) (q : CanardTxQueue)
           (ins : CanardInstance) (deadline_usec : Z)
           (metadata : CanardTransferMetadata) (bytes : list Byte.byte)
  : Eff (Z * CanardTxQueue) :=
  fun w =>
    let '(r, w') :=
      canardTxPush q ins deadline_usec metadata bytes w in
    (r, w', [EvCanardTxPush media_index deadline_usec metadata bytes (fst r)]).

(** ** The factory *)

(** The loop of [make_media_array]: null pointers are passed over, every
    other interface is emplaced with the running index; the constructor of
    [Media] narrows the index to [std::uint8_t] and initialises the queue
    with the MTU read from the interface. *)
Fixpoint emplace_media (media_interfaces : list (option IMediaRef))
         (idx : nat) (tx_capacity : nat) : Eff (list Media) :=
  match media_interfaces with
  | [] => ret []
  | None :: rest => emplace_media rest idx tx_capacity
  | Some media :: rest =>
      mtu <- call_getMtu media ;;
      tail <- emplace_media rest (S idx) tx_capacity ;;
      ret (mkMedia (to_uint8 (Z.of_nat idx)) media
                   (canardTxInit tx_capacity mtu) :: tail)
  end.

(** [make_media_array]: the capacity stays below [media_count] when the
    reservation gets no memory, and the array is then returned empty. *)
Definition make_media_array (media_count : nat)
           (media_interfaces : list (option IMediaRef)) (tx_capacity : nat)
  : Eff (list Media) :=
  reserved <- lift (allocate (AllocMediaArray media_count)) ;;
  if reserved : bool then emplace_media media_interfaces 0 tx_capacity
  else ret [].

(** The constructor of [TransportImpl]. *)
Definition TransportImpl_new (media_array : list Media) (canard_node_id : Z)
  : TransportImpl :=
  mkTransport (mkInstance canard_node_id [] [] []) media_array false
              0%nat 0%nat [] 0%nat.

Definition node_id_out_of_range (local_node_id : option NodeId) : bool :=
  match local_node_id with
  | Some n => CANARD_NODE_ID_MAX <? n
  | None => false
  end.

(** [TransportImpl::make]. The media array is handed over to the new
    transport as it is. *)
Definition make (media : list (option IMediaRef)) (tx_capacity : nat)
           (local_node_id : option NodeId)
  : Eff (Expected TransportImpl FactoryError) :=
  let media_count := count_non_null media in
  if (media_count =? 0)%nat || (Z.to_nat uint8_max <? media_count)%nat
  then ret (Failure FactoryArgumentError)
  else if node_id_out_of_range local_node_id
  then ret (Failure FactoryArgumentError)
  else
    media_array <- make_media_array media_count media tx_capacity ;;
    if negb (length media_array =? media_count)%nat
    then ret (Failure FactoryMemoryError)
    else
      let canard_node_id :=
        to_uint8 (match local_node_id with
                  | Some n => n
                  | None => CANARD_NODE_ID_UNSET
                  end) in
      obtained <- lift (allocate AllocTransport) ;;
      if obtained : bool
      then ret (Value (TransportImpl_new media_array canard_node_id))
      else
        lift (fun w => (tt, deallocate (AllocMediaArray media_count) w)) ;;;
        ret (Failure FactoryMemoryError).

(** ** The node id *)

(** [getLocalNodeId]. *)
Definition getLocalNodeId (t : TransportImpl) : option NodeId :=
  if CANARD_NODE_ID_MAX <? node_id (canard_instance t) then None
  else Some (node_id (canard_instance t)).

(** [setLocalNodeId]; the result is [Some ArgumentError] or [None]. *)
Definition setLocalNodeId (id : NodeId) (t : TransportImpl)
  : option AnyError * TransportImpl :=
  if CANARD_NODE_ID_MAX <? id then (Some ArgumentError, t)
  else
    let ins := canard_instance t in
    if node_id ins =? id then (None, t)
    else if negb (node_id ins =? CANARD_NODE_ID_UNSET)
    then (Some ArgumentError, t)
    else
      let t1 := set_canard_instance t (set_node_id ins (to_uint8 id)) in
      let t2 :=
        if (0 <? total_service_ports t1)%nat
        then set_should_reconfigure_filters t1 true
        else t1 in
      (None, t2).

(** ** Sessions *)

(** [triggerUpdateOfFilters]. *)
Definition triggerUpdateOfFilters (condition : FiltersUpdateCondition)
           (t : TransportImpl) : TransportImpl :=
  let t1 :=
    match condition with
    | SubjectPortAdded =>
        set_total_message_ports t (S (total_message_ports t))
    | SubjectPortRemoved =>
        set_total_message_ports
          t (total_message_ports t - Nat.min 1 (total_message_ports t))
    | ServicePortAdded =>
        set_total_service_ports t (S (total_service_ports t))
    | ServicePortRemoved =>
        set_total_service_ports
          t (total_service_ports t - Nat.min 1 (total_service_ports t))
    end in
  set_should_reconfigure_filters t1 true.

(** [ensureNewSessionFor]. *)
Definition ensureNewSessionFor (k : CanardTransferKind) (port : PortId)
           (t : TransportImpl) : option AnyError :=
  let hasSubscription := canardRxGetSubscription (canard_instance t) k port in
  if 0 <? hasSubscription then Some AlreadyExistsError else None.

Definition port_id_max (k : CanardTransferKind) : Z :=
  match k with
  | CanardTransferKindMessage => CANARD_SUBJECT_ID_MAX
  | _ => CANARD_SERVICE_ID_MAX
  end.

Definition port_added (k : CanardTransferKind) : FiltersUpdateCondition :=
  match k with
  | CanardTransferKindMessage => SubjectPortAdded
  | _ => ServicePortAdded
  end.

Definition port_removed (k : CanardTransferKind) : FiltersUpdateCondition :=
  match k with
  | CanardTransferKindMessage => SubjectPortRemoved
  | _ => ServicePortRemoved
  end.

(** The constructor of an RX session: it subscribes, points the
    subscription back to itself and reports the new port. The message
    session (msg_rx_session.hpp) is taken to be the twin of
    [SvcRxSession]. *)
Definition RxSession_new (k : CanardTransferKind) (params : RxParams)
           (t : TransportImpl) : SessionRef * TransportImpl :=
  let this := next_session_ref t in
  let subscription :=
    mkSubscription (rx_port_id params) (extent_bytes params)
                   CANARD_DEFAULT_TRANSFER_ID_TIMEOUT_USEC this in
  let '(_, ins) := canardRxSubscribe (canard_instance t) k subscription in
  let session :=
    mkRxSession this k (rx_port_id params) (extent_bytes params) None None in
  let t1 := set_canard_instance t ins in
  let t2 := set_rx_sessions t1 (session :: rx_sessions t1) (S this) in
  (this, triggerUpdateOfFilters (port_added k) t2).

(** [SvcRxSession::make] (and [MessageRxSession::make]). *)
Definition RxSession_make (k : CanardTransferKind) (params : RxParams)
           (t : TransportImpl)
  : Eff (Expected SessionRef AnyError * TransportImpl) :=
  if port_id_max k <? rx_port_id params
  then ret (Failure ArgumentError, t)
  else
    obtained <- lift (allocate AllocSession) ;;
    if obtained : bool
    then
      let '(session, t') := RxSession_new k params t in
      ret (Value session, t')
    else ret (Failure MemoryError, t).

Definition makeRxSession (k : CanardTransferKind) (params : RxParams)
           (t : TransportImpl)
  : Eff (Expected SessionRef AnyError * TransportImpl) :=
  match ensureNewSessionFor k (rx_port_id params) t with
  | Some any_error => ret (Failure any_error, t)
  | None => RxSession_make k params t
  end.

(** [makeMessageRxSession], [makeRequestRxSession] and
    [makeResponseRxSession]. *)
Definition makeMessageRxSession := makeRxSession CanardTransferKindMessage.
Definition makeRequestRxSession := makeRxSession CanardTransferKindRequest.
Definition makeResponseRxSession := makeRxSession CanardTransferKindResponse.

(** Modelled from the spec: the TX sessions (msg_tx_session.hpp,
    svc_tx_sessions.hpp) are not among the sources. On creation a TX
    session validates its port; it lives in pool memory and is a thin
    wrapper that packs the metadata and calls [sendTransfer]: making one
    registers nothing with the transport. *)
Definition makeTxSession (k : CanardTransferKind) (port : PortId)
           (t : TransportImpl)
  : Eff (Expected unit AnyError * TransportImpl) :=
  if port_id_max k <? port then ret (Failure ArgumentError, t)
  else
    obtained <- lift (allocate AllocSession) ;;
    if obtained : bool then ret (Value tt, t)
    else ret (Failure MemoryError, t).

(** [makeMessageTxSession], [makeRequestTxSession] and
    [makeResponseTxSession]. *)
Definition makeMessageTxSession := makeTxSession CanardTransferKindMessage.
Definition makeRequestTxSession := makeTxSession CanardTransferKindRequest.
Definition makeResponseTxSession := makeTxSession CanardTransferKindResponse.

Definition find_session (ref : SessionRef) (l : list RxSession)
  : option RxSession :=
  find (fun s => (session_ref s =? ref)%nat) l.

Definition remove_session (ref : SessionRef) (l : list RxSession)
  : list RxSession :=
  filter (fun s => negb (session_ref s =? ref)%nat) l.

(** The destructor of an RX session. *)
Definition RxSession_delete (ref : SessionRef) (t : TransportImpl)
  : Eff TransportImpl :=
  match find_session ref (rx_sessions t) with
  | None => ret t
  | Some s =>
      let '(_, ins) :=
        canardRxUnsubscribe (canard_instance t) (session_kind s)
                            (session_port s) in
      let t1 := set_canard_instance t ins in
      let t2 :=
        set_rx_sessions t1 (remove_session ref (rx_sessions t1))
                        (next_session_ref t1) in
      lift (fun w => (tt, deallocate AllocSession w)) ;;;
      ret (triggerUpdateOfFilters (port_removed (session_kind s)) t2)
  end.

Definition set_last_rx_transfer (s : RxSession)
           (x : option ServiceRxTransfer) : RxSession :=
  mkRxSession (session_ref s) (session_kind s) (session_port s)
              (session_extent s) x (on_receive_cb_fn s).

Definition set_on_receive_cb_fn (s : RxSession) (f : option CallbackRef)
  : RxSession :=
  mkRxSession (session_ref s) (session_kind s) (session_port s)
              (session_extent s) (last_rx_transfer s) f.

Definition update_session (ref : SessionRef) (f : RxSession -> RxSession)
           (l : list RxSession) : list RxSession :=
  map (fun s => if (session_ref s =? ref)%nat then f s else s) l.

(** [receive]: the last transfer is moved out of the session. *)
Definition receive (ref : SessionRef) (t : TransportImpl)
  : option ServiceRxTransfer * TransportImpl :=
  match find_session ref (rx_sessions t) with
  | Some s =>
      (last_rx_transfer s,
       set_rx_sessions
         t (update_session ref (fun x => set_last_rx_transfer x None)
                           (rx_sessions t))
         (next_session_ref t))
  | None => (None, t)
  end.

(** [setOnReceiveCallback]. *)
Definition setOnReceiveCallback (ref : SessionRef) (f : option CallbackRef)
           (t : TransportImpl) : TransportImpl :=
  set_rx_sessions
    t (update_session ref (fun x => set_on_receive_cb_fn x f) (rx_sessions t))
    (next_session_ref t).

Definition set_timeout (port : PortId) (timeout_usec : Z)
           (tree : list CanardRxSubscription) : list CanardRxSubscription :=
  map (fun s =>
         if sub_port_id s =? port
         then mkSubscription (sub_port_id s) (extent s) timeout_usec
                             (user_reference s)
         else s) tree.

(** [setTransferIdTimeout]: a negative timeout is ignored. *)
Definition setTransferIdTimeout (ref : SessionRef) (timeout : Z)
           (t : TransportImpl) : TransportImpl :=
  match find_session ref (rx_sessions t) with
  | Some s =>
      if 0 <=? timeout then
        let ins := canard_instance t in
        let k := session_kind s in
        set_canard_instance
          t (set_rx_subscriptions
               ins k (set_timeout (session_port s) (to_uint64 timeout)
                                  (rx_subscriptions ins k)))
      else t
  | None => t
  end.

(** [acceptRxTransfer]: the transfer of the codec is turned into a
    [ServiceRxTransfer]; priority, node id and transfer id are widened
    from the 8 bits that libcanard holds them in, which keeps their
    values, and the unsigned count [timestamp_usec] becomes the signed
    count of a [TimePoint]. With a callback the transfer goes to the
    callback and is not stored, without it replaces the last one. The
    callback is code of the user: its call is logged, and it is taken not
    to call back into the transport. *)
Definition acceptRxTransfer (transfer : CanardRxTransfer) (s : RxSession)
  : Eff RxSession :=
  let priority := priority (rx_metadata transfer) in
  let remote_node_id := remote_node_id (rx_metadata transfer) in
  let transfer_id := transfer_id (rx_metadata transfer) in
  let timestamp := to_int64 (timestamp_usec transfer) in
  let svc_rx_transfer :=
    mkServiceRxTransfer transfer_id priority timestamp remote_node_id
                        (rx_payload transfer) in
  match on_receive_cb_fn s with
  | Some f => emit (EvOnReceive (session_ref s) f svc_rx_transfer) ;;; ret s
  | None => ret (set_last_rx_transfer s (Some svc_rx_transfer))
  end.

Fixpoint deliver (ref : SessionRef) (transfer : CanardRxTransfer)
         (l : list RxSession) : Eff (list RxSession) :=
  match l with
  | [] => ret []
  | s :: rest =>
      if (session_ref s =? ref)%nat
      then s' <- acceptRxTransfer transfer s ;; ret (s' :: rest)
      else rest' <- deliver ref transfer rest ;; ret (s :: rest')
  end.

(** ** Sending *)

(** Modelled from the spec: [ContiguousPayload] (contiguous_payload.hpp)
    is not among the sources. The caller's payload fragments are coalesced
    into one contiguous buffer, taken from the memory resource, if more
    than one fragment is non-empty; a single non-empty fragment is used in
    place. Without memory the data pointer is null and the size is not. *)
Definition ContiguousPayload_new (payload_fragments : list (list Byte.byte))
  : Eff ContiguousPayload :=
  let total := length (concat payload_fragments) in
  match filter (fun f => negb (is_empty_fragment f)) payload_fragments with
  | [] => ret (mkContiguousPayload None 0 false)
  | [f] => ret (mkContiguousPayload (Some f) total false)
  | _ =>
      obtained <- lift (allocate (AllocPayload total)) ;;
      if obtained : bool
      then ret (mkContiguousPayload (Some (concat payload_fragments)) total
                                    true)
      else ret (mkContiguousPayload None total false)
  end.

(** The coalescing is left without memory when more than one fragment is
    non-empty and the memory resource refuses the buffer. *)
Definition out_of_payload_memory (payload_fragments : list (list Byte.byte))
           (w : World) : bool :=
  match filter (fun f => negb (is_empty_fragment f)) payload_fragments with
  | _ :: _ :: _ =>
      negb (fst (allocate (AllocPayload (length (concat payload_fragments)))
                          w))
  | _ => false
  end.

Definition ContiguousPayload_delete (p : ContiguousPayload) : Eff unit :=
  if allocated p
  then lift (fun w => (tt, deallocate (AllocPayload (size p)) w))
  else ret tt.

Definition bytes_of (p : ContiguousPayload) : list Byte.byte :=
  match data p with Some b => b | None => [] end.

(** The loop of [sendTransfer] over the media: the MTU is propagated,
    the codec is asked to fragment and enqueue, a negative result
    overwrites [maybe_error]. *)
Fixpoint sendTransfer_loop (media : list Media) (ins : CanardInstance)
         (deadline_usec : Z) (metadata : CanardTransferMetadata)
         (bytes : list Byte.byte) (maybe_error : option AnyError)
  : Eff (option AnyError * list Media) :=
  match media with
  | [] => ret (maybe_error, [])
  | m :: rest =>
      mtu <- call_getMtu (interface m) ;;
      r <- call_canardTxPush (index m) (set_mtu_bytes (canard_tx_queue m) mtu)
                             ins deadline_usec metadata bytes ;;
      let maybe_error' :=
        if fst r <? 0 then Some (anyErrorFromCanard (fst r))
        else maybe_error in
      x <- sendTransfer_loop rest ins deadline_usec metadata bytes
                             maybe_error' ;;
      ret (fst x, set_canard_tx_queue m (snd r) :: snd x)
  end.

(** [sendTransfer]. *)
Definition sendTransfer (deadline : TimePoint)
           (metadata : CanardTransferMetadata)
           (payload_fragments : list (list Byte.byte)) (t : TransportImpl)
  : Eff (option AnyError * TransportImpl) :=
  contiguous <- ContiguousPayload_new payload_fragments ;;
  match data contiguous, (0 <? size contiguous)%nat with
  | None, true => ret (Some MemoryError, t)
  | _, _ =>
      let deadline_us := deadline in
      x <- sendTransfer_loop (media_array t) (canard_instance t)
                             (to_uint64 deadline_us) metadata
                             (bytes_of contiguous) None ;;
      ContiguousPayload_delete contiguous ;;;
      ret (fst x, set_media_array t (snd x))
  end.

(** ** The periodic run *)

(** The [while] loop of [runMediaTransmit] over the queue of one media.
    An item is pushed only if [now < deadline]; a push that answers
    [false] leaves the loop with the item still queued; in every other
    case the item is popped and freed. *)
Fixpoint drain (now : TimePoint) (media_index : Z) (iface : IMediaRef)
         (items : list CanardTxQueueItem) : Eff (list CanardTxQueueItem) :=
  match items with
  | [] => ret []
  | tx_item :: rest =>
      let deadline := deadline_of tx_item in
      if now <? deadline then
        maybe_pushed <- call_push media_index iface deadline
                                  (extended_can_id (frame tx_item))
                                  (payload (frame tx_item)) ;;
        match maybe_pushed with
        | Value false => ret (tx_item :: rest)
        | _ =>
            emit (EvFreeTxItem media_index tx_item) ;;;
            drain now media_index iface rest
        end
      else
        emit (EvFreeTxItem media_index tx_item) ;;;
        drain now media_index iface rest
  end.

Definition drain_media (now : TimePoint) (m : Media) : Eff Media :=
  items <- drain now (index m) (interface m) (tx_items (canard_tx_queue m)) ;;
  ret (set_canard_tx_queue m (set_tx_items (canard_tx_queue m) items)).

Fixpoint runMediaTransmit_loop (now : TimePoint) (media : list Media)
  : Eff (list Media) :=
  match media with
  | [] => ret []
  | m :: rest =>
      m' <- drain_media now m ;;
      rest' <- runMediaTransmit_loop now rest ;;
      ret (m' :: rest')
  end.

(** [runMediaTransmit]. *)
Definition runMediaTransmit (now : TimePoint) (t : TransportImpl)
  : Eff TransportImpl :=
  media <- runMediaTransmit_loop now (media_array t) ;;
  ret (set_media_array t media).

(** The body of the loop of [runMediaReceive] for one media: a frame
    popped from the media is fed to the codec; a completed transfer goes
    to the session that the subscription refers to. Media errors and codec
    errors are passed over. *)
Definition receive_media (m : Media) (t : TransportImpl) : Eff TransportImpl :=
  pop_result <- call_pop (index m) (interface m) ;;
  match pop_result with
  | Value (Some (rx_meta, buffer)) =>
      let timestamp_us := rx_timestamp rx_meta in
      let canard_frame :=
        mkFrame (rx_can_id rx_meta) (firstn (rx_payload_size rx_meta) buffer) in
      r <- lift (canardRxAccept (canard_instance t) (to_uint64 timestamp_us)
                                canard_frame (index m)) ;;
      let '(result, out_transfer, (k, port)) := r in
      if 0 <? result then
        match tree_search port (rx_subscriptions (canard_instance t) k) with
        | Some out_subscription =>
            sessions <- deliver (user_reference out_subscription) out_transfer
                                (rx_sessions t) ;;
            ret (set_rx_sessions t sessions (next_session_ref t))
        | None => ret t
        end
      else ret t
  | _ => ret t
  end.

Fixpoint runMediaReceive_loop (media : list Media) (t : TransportImpl)
  : Eff TransportImpl :=
  match media with
  | [] => ret t
  | m :: rest =>
      t' <- receive_media m t ;;
      runMediaReceive_loop rest t'
  end.

(** [runMediaReceive]. *)
Definition runMediaReceive (t : TransportImpl) : Eff TransportImpl :=
  runMediaReceive_loop (media_array t) t.

(** The loop of [runMediaFilters] over the media: [was_error] records
    whether any media refused the filters. *)
Fixpoint setFilters_loop (media : list Media) (filters : list Filter)
         (was_error : bool) : Eff bool :=
  match media with
  | [] => ret was_error
  | m :: rest =>
      maybe_error <- call_setFilters (index m) (interface m) filters ;;
      setFilters_loop rest filters
                      (match maybe_error with
                       | Some _ => true
                       | None => was_error
                       end)
  end.

(** The filters of the active subscriptions: one per message port, and
    one per service port unless the node is anonymous, each tree visited
    in key order. *)
Definition make_filters (t : TransportImpl) (is_anonymous : bool)
  : list Filter :=
  let ins := canard_instance t in
  (if (0 <? total_message_ports t)%nat
   then map (fun s => canardMakeFilterForSubject (sub_port_id s))
            (subs_message ins)
   else [])
  ++
  (if (0 <? total_service_ports t)%nat && negb is_anonymous
   then map (fun s => canardMakeFilterForService (sub_port_id s) (node_id ins))
            (subs_request ins ++ subs_response ins)
   else []).

(** [runMediaFilters]. *)
Definition runMediaFilters (t : TransportImpl) : Eff TransportImpl :=
  if negb (should_reconfigure_filters t) then ret t
  else
    let local_node_id := node_id (canard_instance t) in
    let is_anonymous := CANARD_NODE_ID_MAX <? local_node_id in
    let total_active_ports :=
      (total_message_ports t
       + (if is_anonymous then 0 else total_service_ports t))%nat in
    reserved <-
      (if (0 <? total_active_ports)%nat
       then lift (allocate (AllocFilters total_active_ports))
       else ret true) ;;
    if reserved : bool then
      let filters :=
        if (0 <? total_active_ports)%nat then make_filters t is_anonymous
        else [] in
      was_error <- setFilters_loop (media_array t) filters false ;;
      (if (0 <? total_active_ports)%nat
       then lift (fun w => (tt, deallocate (AllocFilters total_active_ports) w))
       else ret tt) ;;;
      ret (if was_error : bool then t
           else set_should_reconfigure_filters t false)
    else ret t.

(** [run]. *)
Definition run (now : TimePoint) (t : TransportImpl) : Eff TransportImpl :=
  t1 <- runMediaTransmit now t ;;
  t2 <- runMediaReceive t1 ;;
  runMediaFilters t2.

(** ** The life of a transport *)

(** The operations on a transport and on the sessions it made; a TX
    session is used by way of [sendTransfer]. *)
Inductive Op :=
| OpSetLocalNodeId (id : NodeId)
| OpMakeMessageRxSession (params : RxParams)
| OpMakeRequestRxSession (params : RxParams)
| OpMakeResponseRxSession (params : RxParams)
| OpMakeMessageTxSession (subject_id : PortId)
| OpMakeRequestTxSession (service_id : PortId)
| OpMakeResponseTxSession (service_id : PortId)
| OpDeleteRxSession (session : SessionRef)
| OpReceive (session : SessionRef)
| OpSetOnReceiveCallback (session : SessionRef) (f : option CallbackRef)
| OpSetTransferIdTimeout (session : SessionRef) (timeout : Z)
| OpSendTransfer (deadline : TimePoint) (metadata : CanardTransferMetadata)
                 (payload_fragments : list (list Byte.byte))
| OpRun (now : TimePoint).

Definition apply_op (op : Op) (t : TransportImpl) : Eff TransportImpl :=
  match op with
  | OpSetLocalNodeId id => ret (snd (setLocalNodeId id t))
  | OpMakeMessageRxSession params =>
      x <- makeMessageRxSession params t ;; ret (snd x)
  | OpMakeRequestRxSession params =>
      x <- makeRequestRxSession params t ;; ret (snd x)
  | OpMakeResponseRxSession params =>
      x <- makeResponseRxSession params t ;; ret (snd x)
  | OpMakeMessageTxSession subject_id =>
      x <- makeMessageTxSession subject_id t ;; ret (snd x)
  | OpMakeRequestTxSession service_id =>
      x <- makeRequestTxSession service_id t ;; ret (snd x)
  | OpMakeResponseTxSession service_id =>
      x <- makeResponseTxSession service_id t ;; ret (snd x)
  | OpDeleteRxSession session => RxSession_delete session t
  | OpReceive session => ret (snd (receive session t))
  | OpSetOnReceiveCallback session f => ret (setOnReceiveCallback session f t)
  | OpSetTransferIdTimeout session timeout =>
      ret (setTransferIdTimeout session timeout t)
  | OpSendTransfer deadline metadata payload_fragments =>
      x <- sendTransfer deadline metadata payload_fragments t ;; ret (snd x)
  | OpRun now => run now t
  end.

(** A transport is reachable when the factory made it, or an operation
    led to it from a reachable one, in whatever world. *)
Inductive reachable : TransportImpl -> Prop :=
| reachable_make : forall media tx_capacity local_node_id w t,
    result_of (make media tx_capacity local_node_id w) = Value t ->
    reachable t
| reachable_op : forall t op w,
    reachable t -> reachable (result_of (apply_op op t w)).

(** The subscriptions of a port: what [at most one] counts. *)
Definition subscriptions_of (t : TransportImpl) (k : CanardTransferKind)
           (port : PortId) : list CanardRxSubscription :=
  filter (fun s => sub_port_id s =? port)
         (rx_subscriptions (canard_instance t) k).

Definition sessions_of (t : TransportImpl) (k : CanardTransferKind)
           (port : PortId) : list RxSession :=
  filter (fun s => kind_eqb (session_kind s) k && (session_port s =? port))
         (rx_sessions t).

(** Every subscription tree of the transport is in order. *)
Definition subscriptions_sorted (t : TransportImpl) : Prop :=
  instance_sorted (canard_instance t).

(** The events of one media in a log, and the pushes among them. *)
Definition media_index_of (e : Event) : option Z :=
  match e with
  | EvMediaPush i _ _ _ _ _ => Some i
  | EvFreeTxItem i _ => Some i
  | EvCanardTxPush i _ _ _ _ => Some i
  | EvMediaPop i _ => Some i
  | EvOnReceive _ _ _ => None
  | EvSetFilters i _ _ _ => Some i
  end.

Definition is_push (e : Event) : bool :=
  match e with EvMediaPush _ _ _ _ _ _ => true | _ => false end.

Definition is_canardTxPush (e : Event) : bool :=
  match e with EvCanardTxPush _ _ _ _ _ => true | _ => false end.

(** The push of a queued item by a media, with its answer. *)
Definition push_event (media_index : Z) (iface : IMediaRef)
           (tx_item : CanardTxQueueItem) (answer : Expected bool MediaError)
  : Event :=
  EvMediaPush media_index iface (deadline_of tx_item)
              (extended_can_id (frame tx_item)) (payload (frame tx_item))
              answer.

(** A push that the media answered with [false]: it is busy. *)
Definition is_busy (e : Event) : bool :=
  match e with
  | EvMediaPush _ _ _ _ _ (Value false) => true
  | _ => false
  end.

(** The item on top of a queue, if any, is not expired. *)
Definition head_in_time (now : TimePoint) (items : list CanardTxQueueItem)
  : Prop :=
  match items with
  | [] => True
  | tx_item :: _ => now < deadline_of tx_item
  end.

(** An event that, if it is a push, is the push of an item queued for
    one of the media, with a deadline that lies ahead. *)
Definition pushes_queued_in_time (now : TimePoint) (media : list Media)
           (e : Event) : Prop :=
  is_push e = true ->
  exists m tx_item answer,
    In m media
    /\ In tx_item (tx_items (canard_tx_queue m))
    /\ now < deadline_of tx_item
    /\ e = push_event (index m) (interface m) tx_item answer.

(** A log without a push. *)
Definition quiet (ev : list Event) : Prop :=
  Forall (fun e => is_push e = false) ev.

(** A push is in time when the clock is strictly before its deadline. *)
Definition push_in_time (now : TimePoint) (e : Event) : Prop :=
  match e with
  | EvMediaPush _ _ deadline _ _ _ => now < deadline
  | _ => True
  end.

(** The media and result code of every codec call in a log, and the
    error of the last call that failed, if any did. *)
Definition canardTxPush_results (log : list Event) : list (Z * Z) :=
  flat_map (fun e => match e with
                     | EvCanardTxPush i _ _ _ r => [(i, r)]
                     | _ => []
                     end) log.

Definition error_of_last_failure (results : list Z) : option AnyError :=
  match find (fun r => r <? 0) (rev results) with
  | Some r => Some (anyErrorFromCanard r)
  | None => None
  end.

(** ** The protocol parameters *)

(** [CANARD_TRANSFER_ID_BIT_LENGTH] of canard.h and the largest
    [std::size_t], taken to be 64 bits wide. *)
Definition CANARD_TRANSFER_ID_BIT_LENGTH : Z := 5.
Definition size_t_max : Z := 2 ^ 64 - 1.

(** [ProtocolParams]. *)
Record ProtocolParams := mkProtocolParams {
  transfer_id_modulo : Z;
  pp_mtu_bytes : Z;
  max_nodes : Z
}.

(** The loop of [getProtocolParams] over the media. *)
Fixpoint min_mtu_loop (media : list Media) (min_mtu : Z) (w : World) : Z :=
  match media with
  | [] => min_mtu
  | m :: rest =>
      min_mtu_loop rest (Z.min min_mtu (Z.of_nat (getMtu (interface m) w))) w
  end.

(** [getProtocolParams]. *)
Definition getProtocolParams (t : TransportImpl) (w : World) : ProtocolParams :=
  let min_mtu := min_mtu_loop (media_array t) size_t_max w in
  mkProtocolParams (Z.shiftl 1 CANARD_TRANSFER_ID_BIT_LENGTH) min_mtu
                   (CANARD_NODE_ID_MAX + 1).

(** ** Sessions and their subscriptions *)

(** What identifies a session and what it is subscribed to. *)
Definition session_key (s : RxSession)
  : SessionRef * (CanardTransferKind * PortId) :=
  (session_ref s, (session_kind s, session_port s)).

Definition session_keys (t : TransportImpl)
  : list (SessionRef * (CanardTransferKind * PortId)) :=
  map session_key (rx_sessions t).

(** The port counters are the sizes of the subscription trees: what the
    assertion at the end of the filter construction of [runMediaFilters]
    compares. *)
Definition ports_accounted (t : TransportImpl) : Prop :=
  total_message_ports t = length (subs_message (canard_instance t))
  /\ total_service_ports t
     = (length (subs_request (canard_instance t))
        + length (subs_response (canard_instance t)))%nat.

(** Sessions and subscriptions belong together: the port counters are
    right, every live session finds its port subscribed with a
    subscription that refers back to it, every subscription refers to a
    live session of its kind and port, and no two live sessions have the
    same address. *)
Definition consistent (t : TransportImpl) : Prop :=
  ports_accounted t
  /\ (forall ref k port,
         In (ref, (k, port)) (session_keys t) ->
         exists sub,
           tree_search port (rx_subscriptions (canard_instance t) k)
           = Some sub
           /\ user_reference sub = ref)
  /\ (forall k sub,
         In sub (rx_subscriptions (canard_instance t) k) ->
         In (user_reference sub, (k, sub_port_id sub)) (session_keys t))
  /\ NoDup (map fst (session_keys t))
  /\ Forall (fun key => (fst key < next_session_ref t)%nat) (session_keys t).

(** ** The filters *)

(** The number of active ports as [runMediaFilters] counts them. *)
Definition active_ports (t : TransportImpl) : nat :=
  (total_message_ports t
   + (if (CANARD_NODE_ID_MAX <? node_id (canard_instance t))%Z then 0
      else total_service_ports t))%nat.

(** Whether [runMediaFilters] gets the buffer for its filters: nothing is
    asked for when no port is active. *)
Definition filters_memory_granted (t : TransportImpl) (w : World) : bool :=
  (active_ports t =? 0)%nat || fst (allocate (AllocFilters (active_ports t)) w).

(** One filter per subscription: the subjects, then, for a node that has
    an id, the services asked of it and the services it awaits answers
    from. *)
Definition filters_of_subscriptions (t : TransportImpl) : list Filter :=
  let ins := canard_instance t in
  map (fun s => canardMakeFilterForSubject (sub_port_id s)) (subs_message ins)
  ++ (if CANARD_NODE_ID_MAX <? node_id ins then []
      else map (fun s => canardMakeFilterForService (sub_port_id s)
                                                    (node_id ins))
               (subs_request ins ++ subs_response ins)).

(** A call of [setFilters] that the media answered with an error. *)
Definition filters_refused (e : Event) : bool :=
  match e with
  | EvSetFilters _ _ _ (Some _) => true
  | _ => false
  end.

Definition is_setFilters (e : Event) : bool :=
  match e with EvSetFilters _ _ _ _ => true | _ => false end.

Definition is_pop (e : Event) : bool :=
  match e with EvMediaPop _ _ => true | _ => false end.

End Transport.

End Can.


(* ===================================================================== *)
(** * libcyphal/transport/udp/udp_transport_impl.hpp: the factory *)
(* ===================================================================== *)

Module Udp.

Local Open Scope eff_scope.

(** Constants of udpard.h; the comment in [make] spells the maximum out:
    "no more than the maximum allowed (3)". *)
Definition UDPARD_NETWORK_INTERFACE_COUNT_MAX : nat := 3.
Definition UDPARD_NODE_ID_UNSET : Z := 65535.

(** [UdpardTx] after [udpardTxInit]: the node id it points to, the
    capacity and an empty queue. *)
Record UdpardTx := mkUdpardTx {
  local_node_id : Z;
  queue_capacity : nat;
  queue_size : nat
}.

(** [struct Media]: the TX socket is made on demand, it starts null. *)
Record Media := mkMedia {
  index : Z;
  interface : IMediaRef;
  udpard_tx : UdpardTx;
  tx_socket_ptr : option nat
}.

Record TransportImpl := mkTransport {
  media_array : list Media;
  node_id : Z
}.

Section Factory.

Context {World : Type}.
Context {memory : MemoryResource World}.
Variable Event : Type.

Local Abbreviation Eff := (M World Event).

(** The loop of [makeMediaArray]. *)
Fixpoint emplace_media (media_interfaces : list (option IMediaRef))
         (idx : nat) (local_node_id_ : Z) (tx_capacity : nat) : list Media :=
  match media_interfaces with
  | [] => []
  | None :: rest => emplace_media rest idx local_node_id_ tx_capacity
  | Some media :: rest =>
      mkMedia (to_uint8 (Z.of_nat idx)) media
              (mkUdpardTx local_node_id_ tx_capacity 0) None
      :: emplace_media rest (S idx) local_node_id_ tx_capacity
  end.

(** [makeMediaArray]. *)
Definition makeMediaArray (media_count : nat)
           (media_interfaces : list (option IMediaRef)) (local_node_id_ : Z)
           (tx_capacity : nat) : Eff (list Media) :=
  reserved <- lift (allocate (AllocMediaArray media_count)) ;;
  if reserved : bool
  then ret (emplace_media media_interfaces 0 local_node_id_ tx_capacity)
  else ret [].

(** [TransportImpl::make]: the UDP factory takes no node id; the node
    starts anonymous. *)
Definition make (media : list (option IMediaRef)) (tx_capacity : nat)
  : Eff (Expected TransportImpl FactoryError) :=
  let media_count := Can.count_non_null media in
  if (media_count =? 0)%nat
     || (UDPARD_NETWORK_INTERFACE_COUNT_MAX <? media_count)%nat
  then ret (Failure FactoryArgumentError)
  else
    let unset_node_id := UDPARD_NODE_ID_UNSET in
    media_array <- makeMediaArray media_count media unset_node_id
                                  tx_capacity ;;
    if negb (length media_array =? media_count)%nat
    then ret (Failure FactoryMemoryError)
    else
      obtained <- lift (allocate AllocTransport) ;;
      if obtained : bool
      then ret (Value (mkTransport media_array unset_node_id))
      else
        lift (fun w => (tt, deallocate (AllocMediaArray media_count) w)) ;;;
        ret (Failure FactoryMemoryError).

End Factory.

(** ** The node id *)

(** [UDPARD_NODE_ID_MAX] of udpard.h. *)
Definition UDPARD_NODE_ID_MAX : Z := 65534.

Definition set_local_node_id (m : Media) (n : Z) : Media :=
  mkMedia (index m) (interface m)
          (mkUdpardTx n (queue_capacity (udpard_tx m))
                      (queue_size (udpard_tx m)))
          (tx_socket_ptr m).

(** [getLocalNodeId]. *)
Definition getLocalNodeId (t : TransportImpl) : option NodeId :=
  if (UDPARD_NODE_ID_MAX <? node_id t)%Z then None else Some (node_id t).

(** [setLocalNodeId]. The constructor of the transport points the
    [local_node_id] of every TX pipeline to the node id of the transport:
    the assignment shows in all of them. *)
Definition setLocalNodeId (new_node_id : NodeId) (t : TransportImpl)
  : option AnyError * TransportImpl :=
  if (UDPARD_NODE_ID_MAX <? new_node_id)%Z then (Some ArgumentError, t)
  else if (node_id t =? new_node_id)%Z then (None, t)
  else if negb (node_id t =? UDPARD_NODE_ID_UNSET)%Z
  then (Some ArgumentError, t)
  else
    (None,
     mkTransport (map (fun m => set_local_node_id m new_node_id)
                      (media_array t))
                 new_node_id).

(** ** The TX sockets *)

(** What [IMedia::makeTxSocket] may fail with: a memory error or a
    platform error. *)
Inductive MakeTxSocketFailure :=
| SocketMemoryError
| SocketPlatformError (code : Z).

(** An [ITxSocket] object. *)
Definition TxSocketRef := nat.

(** [udp::IMedia]: the socket factory; the socket may come back as a null
    pointer. With it, [anyErrorFromVariant] (common/detail), the
    translation of a failure into [AnyError], taken as a black box. *)
Class IMedia (World : Type) := {
  makeTxSocket : IMediaRef -> World ->
                 Expected (option TxSocketRef) MakeTxSocketFailure * World;
  anyErrorFromVariant : MakeTxSocketFailure -> AnyError
}.

(** [TransientErrorReport::MediaMakeTxSocket]. *)
Inductive TransientErrorReport :=
| MediaMakeTxSocket (error : AnyError) (media_index : Z) (culprit : IMediaRef).

(** The calls that leave the transport while it makes its sockets. *)
Inductive SocketEvent :=
| EvMakeTxSocket (media_index : Z) (iface : IMediaRef)
                 (result : Expected (option TxSocketRef) MakeTxSocketFailure)
| EvTransientError (report : TransientErrorReport) (answer : option AnyError).

Definition set_tx_socket_ptr (m : Media) (s : option TxSocketRef) : Media :=
  mkMedia (index m) (interface m) (udpard_tx m) s.

Section Sockets.

Context {World : Type}.
Context {media_interface : IMedia World}.

Local Abbreviation Eff := (M World SocketEvent).

(** [TransientErrorHandler]: code of the user; it answers with the error
    to propagate, or with nothing to go on. *)
Definition TransientErrorHandler : Type :=
  TransientErrorReport -> World -> option AnyError * World.

Definition call_makeTxSocket (media_index : Z) (iface : IMediaRef)
  : Eff (Expected (option TxSocketRef) MakeTxSocketFailure) :=
  fun w =>
    let '(r, w') := makeTxSocket iface w in
    (r, w', [EvMakeTxSocket media_index iface r]).

(** [tryHandleTransientMediaError]. *)
Definition tryHandleTransientMediaError
           (transient_error_handler_ : option TransientErrorHandler)
           (media : Media) (error_var : MakeTxSocketFailure)
  : Eff (option AnyError) :=
  let any_error := anyErrorFromVariant error_var in
  match transient_error_handler_ with
  | None => ret (Some any_error)
  | Some handler =>
      let report_var :=
        MediaMakeTxSocket any_error (index media) (interface media) in
      fun w =>
        let '(answer, w') := handler report_var w in
        (answer, w', [EvTransientError report_var answer])
  end.

(** [withEnsureMediaTxSocket]. *)
Definition withEnsureMediaTxSocket
           (transient_error_handler_ : option TransientErrorHandler)
           (media : Media)
           (action : Media -> TxSocketRef -> Eff (option AnyError * Media))
  : Eff (option AnyError * Media) :=
  match tx_socket_ptr media with
  | Some tx_socket => action media tx_socket
  | None =>
      maybe_tx_socket <- call_makeTxSocket (index media) (interface media) ;;
      match maybe_tx_socket with
      | Failure media_error =>
          e <- tryHandleTransientMediaError transient_error_handler_ media
                                            media_error ;;
          ret (e, media)
      | Value None =>
          e <- tryHandleTransientMediaError transient_error_handler_ media
                                            SocketMemoryError ;;
          ret (e, media)
      | Value (Some tx_socket) =>
          action (set_tx_socket_ptr media (Some tx_socket)) tx_socket
      end
  end.

(** The loop of [ensureMediaTxSockets]. *)
Fixpoint ensureMediaTxSockets_loop
         (transient_error_handler_ : option TransientErrorHandler)
         (media : list Media) : Eff (option AnyError * list Media) :=
  match media with
  | [] => ret (None, [])
  | m :: rest =>
      r <- withEnsureMediaTxSocket transient_error_handler_ m
                                   (fun m' _ => ret (None, m')) ;;
      match fst r with
      | Some any_error => ret (Some any_error, snd r :: rest)
      | None =>
          x <- ensureMediaTxSockets_loop transient_error_handler_ rest ;;
          ret (fst x, snd r :: snd x)
      end
  end.

(** [ensureMediaTxSockets]. *)
Definition ensureMediaTxSockets
           (transient_error_handler_ : option TransientErrorHandler)
           (t : TransportImpl) : Eff (option AnyError * TransportImpl) :=
  x <- ensureMediaTxSockets_loop transient_error_handler_ (media_array t) ;;
  ret (fst x, mkTransport (snd x) (node_id t)).

(** The media that [makeTxSocket] was called for, in the order of the
    calls, and the media that have no socket. *)
Definition makeTxSocket_calls (log : list SocketEvent)
  : list (Z * IMediaRef) :=
  flat_map (fun e => match e with
                     | EvMakeTxSocket i iface _ => [(i, iface)]
                     | _ => []
                     end) log.

Definition has_tx_socket (m : Media) : bool :=
  match tx_socket_ptr m with Some _ => true | None => false end.

Definition without_tx_socket (media : list Media) : list (Z * IMediaRef) :=
  map (fun m => (index m, interface m))
      (filter (fun m => negb (has_tx_socket m)) media).

(** [l1] is the beginning of [l2]. *)
Definition is_prefix {A} (l1 l2 : list A) : Prop :=
  exists rest, l2 = l1 ++ rest.

End Sockets.

End Udp.


(* ===================================================================== *)
(** * posix/libcyphal/transport/udp/session/output_session.hpp *)
(* ===================================================================== *)

Module Posix.

Local Open Scope Z_scope.
Local Open Scope eff_scope.

(** [ip::v4::Socket], a file descriptor, and [ip::v4::ClosedSocket],
    taken to be the value that [socket_fd_] is initialised with. *)
Definition Socket := Z.
Definition ClosedSocket : Socket := -1.

(** [Status]: a result code, [ResultCode::Success], [ResultCode::Failure]
    or another one. *)
Inductive Status :=
| Success
| Failure
| OtherStatus (code : Z).

(** The socket functions of the platform (ip/v4/connection.hpp), [close],
    and [Status::isSuccess] (types/status.hpp), which tells the good
    codes. *)
Class Sockets (World : Type) := {
  isSuccess : Status -> bool;
  close : Socket -> World -> Z * World;
  createSocket : World -> Socket * World;
  setMulticast : Socket -> Z -> World -> Status * World;
  sendBroadcast : Socket -> PortId -> list Byte.byte -> World ->
                  Status * World;
  sendServiceTransfer : Socket -> NodeId -> list Byte.byte -> World ->
                        Status * World
}.

(** The calls that leave a session. *)
Inductive Event :=
| EvClose (fd : Socket)
| EvCreateSocket (fd : Socket)
| EvSetMulticast (fd : Socket) (address : Z) (status : Status)
| EvSendBroadcast (fd : Socket) (subject_id : PortId) (data : list Byte.byte)
                  (status : Status)
| EvSendServiceTransfer (fd : Socket) (remote_node_id : NodeId)
                        (data : list Byte.byte) (status : Status).

(** The data members of [PosixOutputSession]; the address is held by its
    integer. *)
Record PosixOutputSession := mkSession {
  node_id_ : NodeId;
  local_address_ : Z;
  multicast_set_ : bool;
  socket_fd_ : Socket
}.

Definition set_multicast_set (s : PosixOutputSession) (b : bool) :=
  mkSession (node_id_ s) (local_address_ s) b (socket_fd_ s).

Definition set_socket_fd (s : PosixOutputSession) (fd : Socket) :=
  mkSession (node_id_ s) (local_address_ s) (multicast_set_ s) fd.

(** The constructor. *)
Definition PosixOutputSession_new (node_id : NodeId) (local_address : Z)
  : PosixOutputSession :=
  mkSession node_id local_address false (-1).

(** The move constructor: the new session and what is left of [other]. *)
Definition move_construct (other : PosixOutputSession)
  : PosixOutputSession * PosixOutputSession :=
  (mkSession (node_id_ other) (local_address_ other) (multicast_set_ other)
             (socket_fd_ other),
   set_socket_fd (set_multicast_set other false) ClosedSocket).

Section Session.

Context {World : Type}.
Context {sockets : Sockets World}.

Local Abbreviation Eff := (M World Event).

(** The destructor. *)
Definition PosixOutputSession_delete (s : PosixOutputSession)
  : Eff PosixOutputSession :=
  if negb (socket_fd_ s =? ClosedSocket) then
    (fun w =>
       let '(_, w') := close (socket_fd_ s) w in
       (set_socket_fd s ClosedSocket, w', [EvClose (socket_fd_ s)]))
  else ret s.

(** [initialize]. *)
Definition initialize (s : PosixOutputSession)
  : Eff (Status * PosixOutputSession) :=
  fun w =>
    let '(fd, w') := createSocket w in
    ((if negb (fd =? ClosedSocket) then Success else Failure,
      set_socket_fd s fd),
     w', [EvCreateSocket fd]).

(** The first lines of [broadcast] and of [sendServiceTransfer]. *)
Definition ensure_multicast (s : PosixOutputSession)
  : Eff PosixOutputSession :=
  if negb (multicast_set_ s) then
    (fun w =>
       let '(status, w') :=
         setMulticast (socket_fd_ s) (local_address_ s) w in
       (set_multicast_set s (isSuccess status), w',
        [EvSetMulticast (socket_fd_ s) (local_address_ s) status]))
  else ret s.

(** [broadcast]. *)
Definition broadcast (subject_id : PortId) (frame : list Byte.byte)
           (s : PosixOutputSession) : Eff (Status * PosixOutputSession) :=
  s' <- ensure_multicast s ;;
  fun w =>
    let '(status, w') := sendBroadcast (socket_fd_ s') subject_id frame w in
    ((status, s'), w',
     [EvSendBroadcast (socket_fd_ s') subject_id frame status]).

(** [sendServiceTransfer]. *)
Definition session_sendServiceTransfer (remote_node_id : NodeId)
           (frame : list Byte.byte) (s : PosixOutputSession)
  : Eff (Status * PosixOutputSession) :=
  s' <- ensure_multicast s ;;
  fun w =>
    let '(status, w') :=
      sendServiceTransfer (socket_fd_ s') remote_node_id frame w in
    ((status, s'), w',
     [EvSendServiceTransfer (socket_fd_ s') remote_node_id frame status]).

(** The two ways of sending, and a sequence of them on one session. *)
Inductive Send :=
| SendBroadcast (subject_id : PortId) (frame : list Byte.byte)
| SendServiceTransfer (remote_node_id : NodeId) (frame : list Byte.byte).

Definition send (c : Send) (s : PosixOutputSession)
  : Eff (Status * PosixOutputSession) :=
  match c with
  | SendBroadcast subject_id frame => broadcast subject_id frame s
  | SendServiceTransfer remote_node_id frame =>
      session_sendServiceTransfer remote_node_id frame s
  end.

Fixpoint sends (cs : list Send) (s : PosixOutputSession)
  : Eff PosixOutputSession :=
  match cs with
  | [] => ret s
  | c :: rest => r <- send c s ;; sends rest (snd r)
  end.

(** What a log tells: the calls of [setMulticast], those that succeeded,
    and the sends. *)
Definition is_setMulticast (e : Event) : bool :=
  match e with EvSetMulticast _ _ _ => true | _ => false end.

Definition multicast_succeeded (e : Event) : bool :=
  match e with EvSetMulticast _ _ status => isSuccess status | _ => false end.

Definition sent (e : Event) : list Send :=
  match e with
  | EvSendBroadcast _ subject_id frame _ => [SendBroadcast subject_id frame]
  | EvSendServiceTransfer _ remote_node_id frame _ =>
      [SendServiceTransfer remote_node_id frame]
  | _ => []
  end.

Definition closes (log : list Event) : list Socket :=
  flat_map (fun e => match e with EvClose fd => [fd] | _ => [] end) log.

Definition socket_of (e : Event) : Socket :=
  match e with
  | EvClose fd => fd
  | EvCreateSocket fd => fd
  | EvSetMulticast fd _ _ => fd
  | EvSendBroadcast fd _ _ _ => fd
  | EvSendServiceTransfer fd _ _ _ => fd
  end.

End Session.

End Posix.


(* ===================================================================== *)
(** * A scripted world *)
(* ===================================================================== *)

(** Collaborators that follow a script, in the manner of the mocks of the
    unit tests: the media answers the pushes with the answers listed (and
    accepts once the list is used up), the memory resource grants a given
    number of blocks, the codec answers with the result codes listed (and
    enqueues one frame per call that does not fail). *)
Module Scripted.

Record World := mkWorld {
  push_answers : list (Expected bool MediaError);
  blocks_left : nat;
  tx_results : list Z;
  mtu : nat
}.

Definition scripted_push (w : World) : Expected bool MediaError * World :=
  match push_answers w with
  | [] => (Value true, w)
  | a :: rest => (a, mkWorld rest (blocks_left w) (tx_results w) (mtu w))
  end.

Definition scripted_allocate (w : World) : bool * World :=
  match blocks_left w with
  | O => (false, w)
  | S n => (true, mkWorld (push_answers w) n (tx_results w) (mtu w))
  end.

Definition enqueue (q : Can.CanardTxQueue) (deadline_usec : Z)
           (bytes : list Byte.byte) : Can.CanardTxQueue :=
  Can.mkTxQueue (Can.capacity q) (Can.mtu_bytes q)
                (Can.tx_items q
                 ++ [Can.mkTxItem deadline_usec (Can.mkFrame 0%Z bytes)]).

Definition scripted_canardTxPush (q : Can.CanardTxQueue) (deadline_usec : Z)
           (bytes : list Byte.byte) (w : World)
  : (Z * Can.CanardTxQueue) * World :=
  match tx_results w with
  | [] => ((1, enqueue q deadline_usec bytes), w)%Z
  | r :: rest =>
      ((r, if (r <? 0)%Z then q else enqueue q deadline_usec bytes),
       mkWorld (push_answers w) (blocks_left w) rest (mtu w))
  end.

Definition no_transfer : Can.CanardRxTransfer :=
  Can.mkRxTransfer
    (Can.mkMetadata 0%Z Can.CanardTransferKindMessage 0%Z 0%Z 0%Z) 0%Z [].

#[export] Instance media : Can.IMedia World := {
  Can.getMtu := fun _ w => mtu w;
  Can.push := fun _ _ _ _ w => scripted_push w;
  Can.pop := fun _ w => (Value None, w);
  Can.setFilters := fun _ _ w => (None, w)
}.

#[export] Instance memory : MemoryResource World := {
  allocate := fun _ w => scripted_allocate w;
  deallocate := fun _ w => w
}.

#[export] Instance canard : Can.Canard World := {
  Can.canardTxPush := fun q _ d _ bytes w => scripted_canardTxPush q d bytes w;
  Can.canardRxAccept := fun _ _ _ _ w =>
    ((0%Z, no_transfer, (Can.CanardTransferKindMessage, 0%Z)), w);
  Can.canardMakeFilterForSubject := fun port => Can.mkFilter port 0%Z;
  Can.canardMakeFilterForService := fun port node => Can.mkFilter port node;
  Can.anyErrorFromCanard := fun r =>
    if (r =? -2)%Z then ArgumentError
    else if (r =? -3)%Z then MemoryError
    else OtherError r
}.

(** A world in which everything is granted. *)
Definition plenty : World := mkWorld [] 1000 [] 8.

End Scripted.


(** A media driver that answers [makeTxSocket] from a list and hands out
    a socket once the list is used up. *)
Module ScriptedSockets.

Definition World : Type :=
  list (Expected (option Udp.TxSocketRef) Udp.MakeTxSocketFailure).

Definition scripted_makeTxSocket (w : World)
  : Expected (option Udp.TxSocketRef) Udp.MakeTxSocketFailure * World :=
  match w with
  | [] => (Value (Some 1), w)
  | a :: rest => (a, rest)
  end.

#[export] Instance media : Udp.IMedia World := {
  Udp.makeTxSocket := fun _ w => scripted_makeTxSocket w;
  Udp.anyErrorFromVariant := fun e =>
    match e with
    | Udp.SocketMemoryError => MemoryError
    | Udp.SocketPlatformError code => OtherError code
    end
}.

(** A driver that hands out sockets, and one that has no memory. *)
Definition ready : World := [].

Definition failing : World := [Failure Udp.SocketMemoryError].

(** A UDP transport with two media; the second has its socket. *)
Definition two_media : Udp.TransportImpl :=
  Udp.mkTransport
    [Udp.mkMedia 0 1 (Udp.mkUdpardTx 65535 16 0) None;
     Udp.mkMedia 1 2 (Udp.mkUdpardTx 65535 16 0) (Some 7)]
    65535.

End ScriptedSockets.


(** A bus that has frames for the node, in the manner of the mocks of the
    unit tests: a pop of the media hands out the next of the frames
    listed, and the codec makes a transfer of one frame out of each, for
    the subject that the CAN id names, with the timestamp it was given.
    Memory is granted, pushes and filters are accepted. *)
Module ScriptedRx.

Local Open Scope Z_scope.

Definition World : Type := list (Can.RxMetadata * list Byte.byte).

Definition scripted_pop (w : World)
  : Expected (option (Can.RxMetadata * list Byte.byte)) MediaError * World :=
  match w with
  | [] => (Value None, w)
  | received :: rest => (Value (Some received), rest)
  end.

Definition scripted_canardRxAccept (timestamp_usec : Z)
           (frame : Can.CanardFrame)
  : Z * Can.CanardRxTransfer * (Can.CanardTransferKind * PortId) :=
  let subject_id := Can.extended_can_id frame in
  (1%Z,
   Can.mkRxTransfer
     (Can.mkMetadata 4%Z Can.CanardTransferKindMessage subject_id 255%Z 0%Z)
     timestamp_usec (Can.payload frame),
   (Can.CanardTransferKindMessage, subject_id)).

#[export] Instance media : Can.IMedia World := {
  Can.getMtu := fun _ _ => 8%nat;
  Can.push := fun _ _ _ _ w => (Value true, w);
  Can.pop := fun _ w => scripted_pop w;
  Can.setFilters := fun _ _ w => (None, w)
}.

#[export] Instance memory : MemoryResource World := {
  allocate := fun _ w => (true, w);
  deallocate := fun _ w => w
}.

#[export] Instance canard : Can.Canard World := {
  Can.canardTxPush := fun q _ _ _ _ w => ((1%Z, q), w);
  Can.canardRxAccept := fun _ timestamp_usec frame _ w =>
    (scripted_canardRxAccept timestamp_usec frame, w);
  Can.canardMakeFilterForSubject := fun port => Can.mkFilter port 0%Z;
  Can.canardMakeFilterForService := fun port node => Can.mkFilter port node;
  Can.anyErrorFromCanard := fun r => OtherError r
}.






End ScriptedRx.


(* ===================================================================== *)
(** * Scenarios *)
(* ===================================================================== *)

(** Transports and worlds of the end-to-end scenarios: an identified node
    (0x45) with one or two media whose queues hold given frames, a media
    that is busy once, a memory resource that has nothing left. *)
Module Scenarios.

Import Can.
Import Scripted.

Local Open Scope Z_scope.

(** A frame that expires at 5 us and one that expires at 100 us. *)
Definition frame_a : CanardTxQueueItem :=
  mkTxItem 5 (mkFrame 7 [Byte.x30]).

Definition frame_b : CanardTxQueueItem :=
  mkTxItem 100 (mkFrame 7 [Byte.x31]).

Definition media_0 (items : list CanardTxQueueItem) : Media :=
  mkMedia 0 1%nat (mkTxQueue 16 8 items).

Definition media_1 (items : list CanardTxQueueItem) : Media :=
  mkMedia 1 2%nat (mkTxQueue 16 8 items).

Definition one_media (items : list CanardTxQueueItem) : TransportImpl :=
  mkTransport (mkInstance 69 [] [] []) [media_0 items]
              false 0%nat 0%nat [] 0%nat.

Definition two_media (items : list CanardTxQueueItem) : TransportImpl :=
  mkTransport (mkInstance 69 [] [] []) [media_0 items; media_1 items]
              false 0%nat 0%nat [] 0%nat.

Definition busy_once : World :=
  Scripted.mkWorld [Value false] 1000 [] 8.

Definition no_memory : World :=
  Scripted.mkWorld [] 0 [] 8.

Definition nominal : CanardTransferMetadata :=
  mkMetadata 4 CanardTransferKindMessage 7 255 19.

(** The transport made from one media interface, and the same after a
    message RX session for the subject 111 was made. *)
Definition fresh_transport : TransportImpl :=
  TransportImpl_new [mkMedia 0 1%nat (canardTxInit 16 8)]
                    CANARD_NODE_ID_UNSET.

Definition subscribed_transport : TransportImpl :=
  result_of (apply_op (OpMakeMessageRxSession (mkRxParams 0 111))
                      fresh_transport Scripted.plenty).

(** The transport made from a span with a null entry between two
    interfaces. *)
Definition mixed_span_transport : TransportImpl :=
  TransportImpl_new [mkMedia 0 1%nat (canardTxInit 16 8);
                     mkMedia 1 2%nat (canardTxInit 16 8)]
                    CANARD_NODE_ID_UNSET.

End Scenarios.


Unset Implicit Arguments.

Module MultisetProofs.

Import Multiset.

Section Removal.

Variable T : Type.
Variable predicate : T -> bool.

Lemma elements_of_cons (it : Item T) (items : list (Item T)) :
  elements_of (it :: items)
  = match it with Some x => [x] | None => [] end ++ elements_of items.
Proof. reflexivity. Qed.

(** Once [num_removed] is positive the static loop stops after the slot
    it is at, and that slot is untouched unless it matches. *)
Lemma remove_static_miss (items : list (Item T)) :
  existsb predicate (elements_of items) = false ->
  remove_static predicate RemoveOne items 0 = (items, 0).
Proof.
  induction items as [|it rest IH]; intros Hno; [reflexivity|].
  rewrite elements_of_cons in Hno. cbn [remove_static].
  destruct it as [x|]; cbn [remove_in_slot].
  - cbn in Hno. apply orb_false_iff in Hno as [Hx Hrest].
    rewrite Hx. cbn. rewrite (IH Hrest). reflexivity.
  - cbn in Hno. cbn. rewrite (IH Hno). reflexivity.
Qed.

Lemma remove_static_hit (items : list (Item T)) :
  existsb predicate (elements_of items) = true ->
  exists items',
    remove_static predicate RemoveOne items 0 = (items', 1)
    /\ elements_of items' = remove_first predicate (elements_of items)
    /\ length items' = length items.
Proof.
  induction items as [|it rest IH]; intros Hyes; [discriminate|].
  rewrite elements_of_cons in Hyes. cbn [remove_static].
  destruct it as [x|]; cbn [remove_in_slot].
  - cbn in Hyes. destruct (predicate x) eqn:Hx.
    + cbn. exists (None :: rest). repeat split.
      rewrite !elements_of_cons. cbn. rewrite Hx. reflexivity.
    + cbn in Hyes. destruct (IH Hyes) as (items' & Heq & Hel & Hlen).
      cbn. rewrite Heq. exists (Some x :: items'). repeat split.
      * rewrite !elements_of_cons. cbn. rewrite Hx, Hel. reflexivity.
      * cbn. now rewrite Hlen.
  - cbn in Hyes. destruct (IH Hyes) as (items' & Heq & Hel & Hlen).
    cbn. rewrite Heq. exists (None :: items'). repeat split.
    + rewrite !elements_of_cons. cbn. exact Hel.
    + cbn. now rewrite Hlen.
Qed.

(** With a removal already counted, the loop over the chunks is left at
    once. *)
Lemma remove_chunks_after_hit (chunks : list (Chunk T)) (n : nat) :
  remove_chunks predicate RemoveOne chunks (S n) = (chunks, S n).
Proof. destruct chunks; reflexivity. Qed.

(** [compact] unlinks chunks that hold nothing: the elements stay. *)
Lemma elements_of_empty_chunk (p : Chunk T) :
  existsb (@isConstructed T) p = false -> elements_of p = [].
Proof.
  induction p as [|it rest IH]; intros H; [reflexivity|].
  destruct it; cbn in H; [discriminate|]. rewrite elements_of_cons. cbn.
  auto.
Qed.

Lemma elements_compact (chunks : list (Chunk T)) :
  flat_map (@elements_of T) (compact chunks) = flat_map (@elements_of T) chunks.
Proof.
  unfold compact.
  induction chunks as [|p rest IH]; [reflexivity|].
  cbn [filter flat_map].
  destruct (existsb (@isConstructed T) p) eqn:Hp; cbn [flat_map].
  - now rewrite IH.
  - rewrite (elements_of_empty_chunk _ Hp). exact IH.
Qed.

Lemma remove_first_app_hit (l1 l2 : list T) :
  existsb predicate l1 = true ->
  remove_first predicate (l1 ++ l2) = remove_first predicate l1 ++ l2.
Proof.
  induction l1 as [|x rest IH]; intros H; [discriminate|].
  cbn in *. destruct (predicate x); [reflexivity|].
  cbn in H. now rewrite IH.
Qed.

(** The static slab does what the name says: when the first match is in
    the static slab, it alone is removed and nothing moves. *)
Lemma removeFirstMatching_static (m : MultisetBase T) :
  existsb predicate (elements_of (static_ m)) = true ->
  elements (removeFirstMatching predicate m)
  = remove_first predicate (elements m).
Proof.
  intros Hyes. unfold removeFirstMatching, removeMatching, elements.
  destruct (remove_static_hit _ Hyes) as (items' & Heq & Hel & _).
  rewrite Heq, remove_chunks_after_hit. cbn [static_ list_ Nat.ltb Nat.leb].
  rewrite elements_compact, Hel. symmetry.
  now apply remove_first_app_hit.
Qed.

End Removal.

Section Dynamic.

Variable T : Type.
Variable predicate : T -> bool.

Lemma remove_chunk_items_spec (items : list (Item T)) (n : nat) :
  elements_of (fst (remove_chunk_items predicate items n))
  = filter (fun x => negb (predicate x)) (elements_of items)
  /\ snd (remove_chunk_items predicate items n)
     = n + length (filter predicate (elements_of items))
  /\ (existsb predicate (elements_of items) = false ->
      fst (remove_chunk_items predicate items n) = items).
Proof.
  revert n. induction items as [|it rest IH]; intros n.
  - cbn. auto.
  - cbn [remove_chunk_items]. rewrite (elements_of_cons T it rest).
    destruct it as [x|]; cbn [remove_in_slot app].
    + destruct (predicate x) eqn:Hx.
      * destruct (IH (S n)) as (He & Hn & Hsame).
        destruct (remove_chunk_items predicate rest (S n)) as [rest' n'].
        cbn [fst snd] in *. unfold destroy.
        rewrite (elements_of_cons T None rest'). cbn [app filter existsb].
        rewrite Hx. cbn [negb orb length].
        split; [exact He|]. split; [lia|discriminate].
      * destruct (IH n) as (He & Hn & Hsame).
        destruct (remove_chunk_items predicate rest n) as [rest' n'].
        cbn [fst snd] in *.
        rewrite (elements_of_cons T (Some x) rest'). cbn [app filter existsb].
        rewrite Hx. cbn [negb orb length].
        split; [now rewrite He|]. split; [exact Hn|].
        intros H. now rewrite Hsame.
    + destruct (IH n) as (He & Hn & Hsame).
      destruct (remove_chunk_items predicate rest n) as [rest' n'].
      cbn [fst snd] in *.
      rewrite (elements_of_cons T None rest'). cbn [app].
      split; [exact He|]. split; [exact Hn|].
      intros H. now rewrite Hsame.
Qed.

Lemma existsb_filter_length (l : list T) :
  existsb predicate l = true <-> (0 < length (filter predicate l))%nat.
Proof.
  induction l as [|x rest IH]; cbn; [split; [discriminate|lia]|].
  destruct (predicate x); cbn; [split; [lia|reflexivity]|exact IH].
Qed.

Lemma remove_chunks_spec (chunks : list (Chunk T)) :
  flat_map (@elements_of T)
           (fst (remove_chunks predicate RemoveOne chunks 0))
  = concat (purge_first_chunk predicate (map (@elements_of T) chunks)).
Proof.
  induction chunks as [|p rest IH]; [reflexivity|].
  cbn [remove_chunks Nat.ltb Nat.leb andb map purge_first_chunk].
  destruct (remove_chunk_items_spec p 0) as (He & Hn & Hsame).
  destruct (remove_chunk_items predicate p 0) as [p' n'].
  cbn [fst snd] in *.
  destruct (existsb predicate (elements_of p)) eqn:Hex.
  - apply existsb_filter_length in Hex.
    destruct n' as [|k]; [lia|]. rewrite remove_chunks_after_hit.
    cbn [fst flat_map concat]. rewrite He.
    f_equal. clear. induction rest; cbn; [reflexivity|]. now f_equal.
  - rewrite (Hsame eq_refl).
    assert (Hzero : n' = 0).
    { rewrite Hn. destruct (filter predicate (elements_of p)) eqn:Hf;
        [reflexivity|].
      assert (H : existsb predicate (elements_of p) = true)
        by (apply existsb_filter_length; rewrite Hf; cbn; lia).
      congruence. }
    clear Hn. subst n'.
    destruct (remove_chunks predicate RemoveOne rest 0) as [rest' n''].
    cbn [fst flat_map concat] in *. now rewrite IH.
Qed.

(** The dynamic chunks do more than the name says: when no element of
    the static slab matches, every match of the first chunk that has one
    is removed. *)
Lemma removeFirstMatching_dynamic (m : MultisetBase T) :
  existsb predicate (elements_of (static_ m)) = false ->
  elements (removeFirstMatching predicate m)
  = elements_of (static_ m)
    ++ concat (purge_first_chunk predicate
                                 (map (@elements_of T) (list_ m))).
Proof.
  intros Hno. unfold removeFirstMatching, removeMatching, elements.
  rewrite (remove_static_miss T predicate _ Hno).
  pose proof (remove_chunks_spec (list_ m)) as Hch.
  destruct (remove_chunks predicate RemoveOne (list_ m) 0) as [ch n2].
  cbn [fst] in Hch. cbn [static_ list_].
  destruct (0 <? n2); [rewrite elements_compact|]; now rewrite Hch.
Qed.

End Dynamic.

(** C9, at a failing input: from the empty multiset, [add(7)] twice puts
    both elements into the one dynamic chunk; [removeFirstMatching] with
    the predicate [x == 7] then removes both of them, where at most one
    element, the first match, is to be removed. *)
Theorem removeFirstMatching_removes_two :
  (match add 3 true 7 (mkMultiset [] []) with
   | Some m => add 3 true 7 m
   | None => None
   end) = Some two_sevens
  /\ elements two_sevens = [7; 7]
  /\ remove_first (Nat.eqb 7) (elements two_sevens) = [7]
  /\ elements (removeFirstMatching (Nat.eqb 7) two_sevens) = []
  /\ getSize two_sevens = 2
  /\ getSize (removeFirstMatching (Nat.eqb 7) two_sevens) = 0.
Proof. repeat split. Qed.

Section Lookup.

Variable T : Type.

Lemma find_in_app (f : T -> bool) (l1 l2 : list T) :
  List.find f (l1 ++ l2)
  = match List.find f l1 with Some x => Some x | None => List.find f l2 end.
Proof.
  induction l1 as [|x rest IH]; [reflexivity|].
  cbn. destruct (f x); [reflexivity|exact IH].
Qed.

Lemma find_in_items_by_value (predicate : T -> bool) (items : list (Item T)) :
  find_in_items (by_value predicate) items tt
  = (List.find predicate (elements_of items), tt).
Proof.
  induction items as [|it rest IH]; [reflexivity|].
  rewrite elements_of_cons. destruct it as [x|]; cbn [find_in_items app].
  - unfold by_value at 1. cbn [List.find].
    destruct (predicate x); [reflexivity|].
    exact IH.
  - exact IH.
Qed.

Lemma find_in_chunks_by_value (predicate : T -> bool)
      (chunks : list (Chunk T)) :
  find_in_chunks (by_value predicate) chunks tt
  = (List.find predicate (flat_map (@elements_of T) chunks), tt).
Proof.
  induction chunks as [|p rest IH]; [reflexivity|].
  cbn [find_in_chunks flat_map]. rewrite find_in_items_by_value.
  rewrite find_in_app.
  destruct (List.find predicate (elements_of p)); [reflexivity|exact IH].
Qed.

Lemma find_ref_by_value (predicate : T -> bool) (m : MultisetBase T) :
  fst (find_ref (by_value predicate) m tt) = find predicate m.
Proof.
  unfold find_ref, find, elements.
  rewrite find_in_items_by_value, find_in_app.
  destruct (List.find predicate (elements_of (static_ m))); [reflexivity|].
  now rewrite find_in_chunks_by_value.
Qed.

(** X1: The loops of [find] return the first stored element, in the order
    static slab, then chunks from the head of the list, for which the
    predicate holds, and nothing if there is none. *)
Theorem find_first_in_storage_order (predicate : T -> bool)
        (m : MultisetBase T) :
  fst (find_ref (by_value predicate) m tt) = find predicate m
  /\ (find predicate m = None
      <-> forall x, In x (elements m) -> predicate x = false)
  /\ (forall x, find predicate m = Some x ->
        predicate x = true
        /\ exists before after,
            elements m = before ++ x :: after
            /\ forall y, In y before -> predicate y = false).
Proof.
  split; [|split].
  - apply find_ref_by_value.
  - unfold find. split.
    + intros H x Hin. exact (find_none _ _ H x Hin).
    + intros H. destruct (List.find predicate (elements m)) eqn:Hf;
        [|reflexivity].
      apply find_some in Hf as [Hin Hp]. rewrite (H _ Hin) in Hp.
      discriminate.
  - unfold find. intros x. generalize (elements m). intros l.
    induction l as [|y rest IH]; [discriminate|].
    cbn [List.find]. destruct (predicate y) eqn:Hy.
    + intros [= ->]. split; [exact Hy|]. exists [], rest. split; [reflexivity|].
      intros ? [].
    + intros H. destruct (IH H) as (Hx & before & after & Heq & Hno).
      split; [exact Hx|]. exists (y :: before), after. split.
      * cbn. now rewrite Heq.
      * intros z [<-|Hz]; [exact Hy|auto].
Qed.

Lemma getSize_elements (m : MultisetBase T) :
  getSize m = length (elements m).
Proof.
  assert (Hitems : forall items : list (Item T),
             count_constructed items = length (elements_of items)).
  { induction items as [|it rest IH]; [reflexivity|].
    rewrite elements_of_cons, length_app, <- IH.
    unfold count_constructed. destruct it; reflexivity. }
  unfold getSize, getNumStaticItems, getNumDynamicItems, elements.
  rewrite length_app, Hitems. f_equal. unfold list_sum.
  induction (list_ m) as [|p rest IH]; [reflexivity|].
  cbn [map fold_right flat_map]. now rewrite length_app, IH, Hitems.
Qed.

(** The countdown of [IndexPredicate] over the items of one array: it
    hits the element at the index, or runs past the array with the index
    lowered by the number of elements seen. *)
Lemma find_in_items_index (items : list (Item T)) (index : Z) :
  (0 <= index < 2 ^ 32)%Z ->
  match nth_error (elements_of items) (Z.to_nat index) with
  | Some x => fst (find_in_items (@IndexPredicate T) items index) = Some x
  | None =>
      find_in_items (@IndexPredicate T) items index
      = (None, (index - Z.of_nat (length (elements_of items)))%Z)
  end.
Proof.
  revert index. induction items as [|it rest IH]; intros index Hi.
  - cbn. destruct (Z.to_nat index); cbn; f_equal; f_equal; lia.
  - rewrite elements_of_cons. destruct it as [x|]; cbn [find_in_items app].
    + change (IndexPredicate index x)
        with ((index =? 0)%Z, ((index - 1) mod 2 ^ 32)%Z).
      destruct (index =? 0)%Z eqn:H0.
      * apply Z.eqb_eq in H0. subst index. reflexivity.
      * apply Z.eqb_neq in H0.
        replace (Z.to_nat index) with (S (Z.to_nat (index - 1))) by lia.
        cbn [nth_error length].
        rewrite Z.mod_small by lia.
        specialize (IH (index - 1)%Z ltac:(lia)).
        destruct (nth_error (elements_of rest) (Z.to_nat (index - 1)));
          [exact IH|].
        rewrite IH. f_equal. lia.
    + exact (IH index Hi).
Qed.

Lemma find_in_chunks_index (chunks : list (Chunk T)) (index : Z) :
  (0 <= index < 2 ^ 32)%Z ->
  fst (find_in_chunks (@IndexPredicate T) chunks index)
  = nth_error (flat_map (@elements_of T) chunks) (Z.to_nat index).
Proof.
  revert index. induction chunks as [|p rest IH]; intros index Hi.
  - cbn. now destruct (Z.to_nat index).
  - cbn [find_in_chunks flat_map].
    pose proof (find_in_items_index p index Hi) as Hp.
    destruct (nth_error (elements_of p) (Z.to_nat index)) as [x|] eqn:Hn.
    + destruct (find_in_items (@IndexPredicate T) p index) as [r st].
      cbn [fst] in Hp. subst r. cbn [fst].
      rewrite nth_error_app1; [now rewrite Hn|].
      apply nth_error_Some. now rewrite Hn.
    + rewrite Hp. apply nth_error_None in Hn.
      rewrite IH by lia. rewrite nth_error_app2 by exact Hn.
      f_equal. lia.
Qed.

(** X2: [getByIndex] returns the element at the position counted through the
    static slab and then through the chunks, and nothing when the index
    is not below the number of elements stored. *)
Theorem getByIndex_nth (index : Z) (m : MultisetBase T) :
  (0 <= index < 2 ^ 32)%Z ->
  getByIndex index m = nth_error (elements m) (Z.to_nat index)
  /\ (getByIndex index m = None <-> (getSize m <= Z.to_nat index)%nat).
Proof.
  intros Hi.
  assert (Hnth : getByIndex index m = nth_error (elements m) (Z.to_nat index)).
  { unfold getByIndex, find_ref, elements.
    pose proof (find_in_items_index (static_ m) index Hi) as Hs.
    destruct (nth_error (elements_of (static_ m)) (Z.to_nat index))
      as [x|] eqn:Hn.
    - destruct (find_in_items (@IndexPredicate T) (static_ m) index) as [r st].
      cbn [fst] in Hs. subst r. cbn [fst].
      rewrite nth_error_app1; [now rewrite Hn|].
      apply nth_error_Some. now rewrite Hn.
    - rewrite Hs. apply nth_error_None in Hn.
      rewrite find_in_chunks_index by lia.
      rewrite nth_error_app2 by exact Hn. f_equal. lia. }
  split; [exact Hnth|].
  rewrite Hnth, getSize_elements. apply nth_error_None.
Qed.

(** X3: [isEmpty] answers whether the multiset holds no element. *)
Theorem isEmpty_iff_no_element (m : MultisetBase T) :
  isEmpty m = true <-> getSize m = 0.
Proof.
  unfold isEmpty.
  rewrite find_ref_by_value, getSize_elements. unfold find.
  destruct (elements m) as [|x rest]; cbn; split; congruence.
Qed.

End Lookup.

Section Adding.

Variable T : Type.

Lemma findFreeSlot_None (items : list (Item T)) :
  findFreeSlot items = None <-> forallb (@isConstructed T) items = true.
Proof.
  induction items as [|it rest IH]; cbn; [tauto|].
  destruct it as [x|]; cbn.
  - destruct (findFreeSlot rest); cbn; rewrite <- IH; split; congruence.
  - split; discriminate.
Qed.

Lemma set_slot_free (items : list (Item T)) (i : nat) (x : T) :
  findFreeSlot items = Some i ->
  (exists before after,
      elements_of items = before ++ after
      /\ elements_of (set_slot items i (Some x)) = before ++ x :: after)
  /\ length (set_slot items i (Some x)) = length items
  /\ existsb (@isConstructed T) (set_slot items i (Some x)) = true.
Proof.
  revert i. induction items as [|it rest IH]; intros i; [discriminate|].
  cbn [findFreeSlot]. destruct it as [y|]; cbn [isConstructed].
  - destruct (findFreeSlot rest) as [j|]; [|discriminate].
    cbn [option_map]. intros [= <-].
    destruct (IH j eq_refl) as ((b & a & H1 & H2) & Hl & _).
    cbn [set_slot]. split; [|split].
    + exists (y :: b), a. rewrite !elements_of_cons, H1, H2. split; reflexivity.
    + cbn. now rewrite Hl.
    + reflexivity.
  - intros [= <-]. cbn [set_slot]. split; [|split]; [|reflexivity..].
    exists [], (elements_of rest). rewrite !elements_of_cons.
    split; reflexivity.
Qed.

Lemma add_dynamic_None (chunks : list (Chunk T)) (x : T) :
  add_dynamic chunks x = None
  <-> forallb (forallb (@isConstructed T)) chunks = true.
Proof.
  induction chunks as [|p rest IH]; cbn; [tauto|].
  destruct (findFreeSlot p) as [i|] eqn:Hp.
  - split; [discriminate|]. intros H. apply andb_true_iff in H as [H _].
    apply findFreeSlot_None in H. congruence.
  - apply findFreeSlot_None in Hp. rewrite Hp. cbn.
    destruct (add_dynamic rest x); cbn; rewrite <- IH; split; congruence.
Qed.

Lemma add_dynamic_Some (chunks chunks' : list (Chunk T)) (x : T) :
  add_dynamic chunks x = Some chunks' ->
  (exists before after,
      flat_map (@elements_of T) chunks = before ++ after
      /\ flat_map (@elements_of T) chunks' = before ++ x :: after)
  /\ map (@length _) chunks' = map (@length _) chunks
  /\ (Forall (fun p => existsb (@isConstructed T) p = true) chunks ->
      Forall (fun p => existsb (@isConstructed T) p = true) chunks').
Proof.
  revert chunks'. induction chunks as [|p rest IH]; intros chunks';
    [discriminate|].
  cbn [add_dynamic]. destruct (findFreeSlot p) as [i|] eqn:Hp.
  - intros [= <-].
    destruct (set_slot_free p i x Hp) as ((b & a & H1 & H2) & Hl & Hex).
    split; [|split].
    + exists b, (a ++ flat_map (@elements_of T) rest). cbn [flat_map].
      rewrite H1, H2, <- !app_assoc. split; reflexivity.
    + cbn. now rewrite Hl.
    + intros H. inversion H; subst. constructor; assumption.
  - destruct (add_dynamic rest x) as [rest'|]; [|discriminate].
    cbn [option_map]. intros [= <-].
    destruct (IH rest' eq_refl) as ((b & a & H1 & H2) & Hl & Hex).
    split; [|split].
    + exists (elements_of p ++ b), a. cbn [flat_map].
      rewrite H1, H2, <- !app_assoc. split; reflexivity.
    + cbn. now rewrite Hl.
    + intros H. inversion H; subst. constructor; auto.
Qed.

Lemma elements_of_first_slot (n : nat) (x : T) :
  elements_of (set_slot (@new_Chunk T (S n)) 0 (Some x)) = [x].
Proof.
  unfold new_Chunk. cbn [repeat set_slot]. rewrite elements_of_cons.
  cbn [app]. f_equal.
  induction n as [|k IH]; [reflexivity|exact IH].
Qed.

Lemma add_static_length (NumItems : nat) (pool_has_block : bool) (x : T)
      (m m' : MultisetBase T) :
  add NumItems pool_has_block x m = Some m' ->
  length (static_ m') = length (static_ m).
Proof.
  unfold add. intros Hadd.
  destruct (findFreeSlot (static_ m)) as [i|] eqn:Hs.
  - injection Hadd as <-. cbn [static_].
    now destruct (set_slot_free _ i x Hs) as (_ & Hl & _).
  - destruct (add_dynamic (list_ m) x) as [chunks|].
    + now injection Hadd as <-.
    + destruct pool_has_block; [|discriminate].
      destruct NumItems; [discriminate|]. now injection Hadd as <-.
Qed.

(** X4: [add] puts the new element into a free slot and moves nothing: the
    stored elements keep their order, the new one appears between them,
    and the static slab keeps its length. *)
Theorem add_moves_nothing (NumItems : nat) (pool_has_block : bool) (x : T)
        (m m' : MultisetBase T) :
  add NumItems pool_has_block x m = Some m' ->
  (exists before after,
      elements m = before ++ after
      /\ elements m' = before ++ x :: after)
  /\ getSize m' = S (getSize m)
  /\ length (static_ m') = length (static_ m).
Proof.
  intros Hadd.
  assert (H : (exists before after,
                  elements m = before ++ after
                  /\ elements m' = before ++ x :: after)
              /\ length (static_ m') = length (static_ m)).
  { unfold add in Hadd. unfold elements.
    destruct (findFreeSlot (static_ m)) as [i|] eqn:Hs.
    - injection Hadd as <-. cbn [static_ list_].
      destruct (set_slot_free _ i x Hs) as ((b & a & H1 & H2) & Hl & _).
      split; [|exact Hl].
      exists b, (a ++ flat_map (@elements_of T) (list_ m)).
      rewrite H1, H2, <- !app_assoc. split; reflexivity.
    - destruct (add_dynamic (list_ m) x) as [chunks|] eqn:Hd.
      + injection Hadd as <-. cbn [static_ list_].
        destruct (add_dynamic_Some _ _ _ Hd) as ((b & a & H1 & H2) & _).
        split; [|reflexivity].
        exists (elements_of (static_ m) ++ b), a.
        rewrite H1, H2, <- !app_assoc. split; reflexivity.
      + destruct pool_has_block; [|discriminate].
        destruct NumItems as [|n]; [discriminate|].
        injection Hadd as <-. cbn [static_ list_]. split; [|reflexivity].
        exists (elements_of (static_ m)), (flat_map (@elements_of T) (list_ m)).
        split; [reflexivity|]. cbn [flat_map].
        change (Some x :: repeat None n)
          with (set_slot (@new_Chunk T (S n)) 0 (Some x)).
        now rewrite elements_of_first_slot. }
  destruct H as ((b & a & H1 & H2) & Hl).
  split; [exists b, a; split; assumption|]. split; [|exact Hl].
  rewrite !getSize_elements, H1, H2, !length_app. cbn. lia.
Qed.

(** X5: [add] fails only when every slot is taken and the pool gives no
    block; it takes a block from the pool only when every slot is
    taken. *)
Theorem add_uses_pool_only_when_full (NumItems : nat) (pool_has_block : bool)
        (x : T) (m : MultisetBase T) :
  (0 < NumItems)%nat ->
  (add NumItems pool_has_block x m = None
   <-> pool_has_block = false /\ all_slots_taken m = true)
  /\ (forall m',
         add NumItems pool_has_block x m = Some m' ->
         length (list_ m')
         = if all_slots_taken m then S (length (list_ m))
           else length (list_ m)).
Proof.
  intros Hpos. unfold add, all_slots_taken.
  destruct (findFreeSlot (static_ m)) as [i|] eqn:Hs.
  - assert (Hfree : forallb (@isConstructed T) (static_ m) = false).
    { destruct (forallb (@isConstructed T) (static_ m)) eqn:H; [|reflexivity].
      apply findFreeSlot_None in H. congruence. }
    rewrite Hfree. cbn. split.
    + split; [discriminate|]. intros [_ H]. discriminate.
    + intros m' [= <-]. reflexivity.
  - apply findFreeSlot_None in Hs. rewrite Hs. cbn.
    destruct (add_dynamic (list_ m) x) as [chunks|] eqn:Hd.
    + assert (Hfree : forallb (forallb (@isConstructed T)) (list_ m) = false).
      { destruct (forallb (forallb (@isConstructed T)) (list_ m)) eqn:H;
          [|reflexivity].
        apply add_dynamic_None with (x := x) in H. congruence. }
      rewrite Hfree. split.
      * split; [discriminate|]. intros [_ H]. discriminate.
      * intros m' [= <-]. cbn [list_].
        destruct (add_dynamic_Some _ _ _ Hd) as (_ & Hl & _).
        apply (f_equal (@length _)) in Hl. now rewrite !length_map in Hl.
    + apply add_dynamic_None in Hd. rewrite Hd.
      destruct NumItems as [|n]; [lia|].
      destruct pool_has_block; split.
      * split; [discriminate|]. intros [H _]. discriminate.
      * intros m' [= <-]. reflexivity.
      * split; [auto|reflexivity].
      * discriminate.
Qed.

End Adding.

Section Emptying.

Variable T : Type.

(** The static loop under [RemoveAll] visits every slot. *)
Lemma remove_static_all (predicate : T -> bool) (items : list (Item T))
      (n : nat) :
  remove_static predicate RemoveAll items n
  = remove_chunk_items predicate items n.
Proof.
  revert n. induction items as [|it rest IH]; intros n; [reflexivity|].
  cbn [remove_static remove_chunk_items].
  destruct (remove_in_slot predicate it n) as [it' n'].
  cbn [is_RemoveOne]. rewrite andb_false_r. now rewrite IH.
Qed.

(** What either loop does to the slots it visits: none is added or
    dropped, and the count does not go down; it stays only if no slot
    was touched. *)
Lemma remove_chunk_items_shape (predicate : T -> bool)
      (items : list (Item T)) (n : nat) :
  length (fst (remove_chunk_items predicate items n)) = length items
  /\ (n <= snd (remove_chunk_items predicate items n))%nat
  /\ (snd (remove_chunk_items predicate items n) = n ->
      fst (remove_chunk_items predicate items n) = items).
Proof.
  revert n. induction items as [|it rest IH]; intros n.
  - cbn. auto.
  - cbn [remove_chunk_items].
    destruct it as [x|]; cbn [remove_in_slot].
    + destruct (predicate x).
      * destruct (IH (S n)) as (Hl & Hn & _).
        destruct (remove_chunk_items predicate rest (S n)) as [rest' n'].
        cbn [fst snd length] in *. split; [now rewrite Hl|]. split; lia.
      * destruct (IH n) as (Hl & Hn & Hsame).
        destruct (remove_chunk_items predicate rest n) as [rest' n'].
        cbn [fst snd length] in *. split; [now rewrite Hl|].
        split; [exact Hn|]. intros H. now rewrite Hsame.
    + destruct (IH n) as (Hl & Hn & Hsame).
      destruct (remove_chunk_items predicate rest n) as [rest' n'].
      cbn [fst snd length] in *. split; [now rewrite Hl|].
      split; [exact Hn|]. intros H. now rewrite Hsame.
Qed.

Lemma remove_static_shape (predicate : T -> bool) (strategy : RemoveStrategy)
      (items : list (Item T)) (n : nat) :
  length (fst (remove_static predicate strategy items n)) = length items
  /\ (n <= snd (remove_static predicate strategy items n))%nat.
Proof.
  revert n. induction items as [|it rest IH]; intros n.
  - cbn. auto.
  - cbn [remove_static].
    assert (Hslot : (n <= snd (remove_in_slot predicate it n))%nat).
    { destruct it as [x|]; cbn; [destruct (predicate x)|]; cbn; lia. }
    destruct (remove_in_slot predicate it n) as [it' n'].
    cbn [snd] in Hslot.
    destruct ((0 <? n') && is_RemoveOne strategy).
    + cbn. split; [reflexivity|exact Hslot].
    + destruct (IH n') as (Hl & Hn).
      destruct (remove_static predicate strategy rest n') as [rest' n''].
      cbn [fst snd length] in *. split; [now rewrite Hl|lia].
Qed.

Lemma remove_chunks_shape (predicate : T -> bool) (strategy : RemoveStrategy)
      (chunks : list (Chunk T)) (n : nat) :
  map (@length _) (fst (remove_chunks predicate strategy chunks n))
  = map (@length _) chunks
  /\ (n <= snd (remove_chunks predicate strategy chunks n))%nat
  /\ (snd (remove_chunks predicate strategy chunks n) = n ->
      fst (remove_chunks predicate strategy chunks n) = chunks).
Proof.
  revert n. induction chunks as [|p rest IH]; intros n.
  - cbn. auto.
  - cbn [remove_chunks].
    destruct ((0 <? n) && is_RemoveOne strategy); [cbn; auto|].
    destruct (remove_chunk_items_shape predicate p n) as (Hl & Hn & Hsame).
    destruct (remove_chunk_items predicate p n) as [p' n'].
    destruct (IH n') as (Hl' & Hn' & Hsame').
    destruct (remove_chunks predicate strategy rest n') as [rest' n''].
    cbn [fst snd map] in *. split; [now rewrite Hl, Hl'|]. split; [lia|].
    intros H. assert (n' = n) by lia. subst n'.
    now rewrite Hsame, Hsame'.
Qed.

Lemma remove_chunks_all (predicate : T -> bool) (chunks : list (Chunk T))
      (n : nat) :
  flat_map (@elements_of T)
           (fst (remove_chunks predicate RemoveAll chunks n))
  = filter (fun x => negb (predicate x)) (flat_map (@elements_of T) chunks).
Proof.
  revert n. induction chunks as [|p rest IH]; intros n; [reflexivity|].
  cbn [remove_chunks is_RemoveOne]. rewrite andb_false_r.
  destruct (remove_chunk_items_spec T predicate p n) as (He & _ & _).
  destruct (remove_chunk_items predicate p n) as [p' n'].
  specialize (IH n').
  destruct (remove_chunks predicate RemoveAll rest n') as [rest' n''].
  cbn [fst flat_map] in *. now rewrite filter_app, He, IH.
Qed.

Lemma compact_no_empty_chunk (chunks : list (Chunk T)) :
  Forall (fun p => existsb (@isConstructed T) p = true) (compact chunks).
Proof.
  unfold compact. apply Forall_forall. intros p Hin.
  now apply filter_In in Hin.
Qed.

Lemma elements_of_nil (items : list (Item T)) :
  elements_of items = [] <-> items = repeat None (length items).
Proof.
  induction items as [|it rest IH]; [cbn; tauto|].
  rewrite elements_of_cons. destruct it as [x|]; cbn [app length repeat].
  - split; discriminate.
  - rewrite IH. split; [intros <-; reflexivity|]. now intros [= H].
Qed.

Lemma no_elements_not_constructed (items : list (Item T)) :
  elements_of items = [] -> existsb (@isConstructed T) items = false.
Proof.
  induction items as [|it rest IH]; [reflexivity|].
  rewrite elements_of_cons. destruct it; [discriminate|exact IH].
Qed.

Lemma removeMatching_static_length (predicate : T -> bool)
      (strategy : RemoveStrategy) (m : MultisetBase T) :
  length (static_ (removeMatching predicate strategy m))
  = length (static_ m).
Proof.
  unfold removeMatching.
  destruct (remove_static_shape predicate strategy (static_ m) 0)
    as (Hl & _).
  destruct (remove_static predicate strategy (static_ m) 0) as [st n1].
  destruct (remove_chunks predicate strategy (list_ m) n1) as [ch n2].
  exact Hl.
Qed.

(** X6: [removeFirstMatching] by cases: a match in the static slab is
    removed alone; without one, the first chunk that holds a match
    loses all the matches it holds. *)
Theorem removeFirstMatching_cases (predicate : T -> bool)
        (m : MultisetBase T) :
  elements (removeFirstMatching predicate m)
  = if existsb predicate (elements_of (static_ m))
    then remove_first predicate (elements m)
    else elements_of (static_ m)
         ++ concat (purge_first_chunk predicate
                                      (map (@elements_of T) (list_ m))).
Proof.
  destruct (existsb predicate (elements_of (static_ m))) eqn:H.
  - now apply removeFirstMatching_static.
  - now apply removeFirstMatching_dynamic.
Qed.

Lemma removeAllMatching_elements (predicate : T -> bool)
      (m : MultisetBase T) :
  elements (removeAllMatching predicate m)
  = filter (fun x => negb (predicate x)) (elements m).
Proof.
  unfold removeAllMatching, removeMatching, elements.
  rewrite remove_static_all.
  destruct (remove_chunk_items_spec T predicate (static_ m) 0) as (He & _ & _).
  destruct (remove_chunk_items predicate (static_ m) 0) as [st n1].
  pose proof (remove_chunks_all predicate (list_ m) n1) as Hc.
  destruct (remove_chunks predicate RemoveAll (list_ m) n1) as [ch n2].
  cbn [fst static_ list_] in *. rewrite filter_app, He.
  destruct (0 <? n2); [rewrite elements_compact|]; now rewrite Hc.
Qed.

(** X7: [removeAllMatching] removes exactly the elements for which the
    predicate holds; the others stay, in their order, and the static
    slab keeps its length. *)
Theorem removeAllMatching_filters (predicate : T -> bool)
        (m : MultisetBase T) :
  elements (removeAllMatching predicate m)
  = filter (fun x => negb (predicate x)) (elements m)
  /\ length (static_ (removeAllMatching predicate m)) = length (static_ m)
  /\ getSize (removeAllMatching predicate m)
     = getSize m - length (filter predicate (elements m)).
Proof.
  split; [apply removeAllMatching_elements|]. split.
  - apply removeMatching_static_length.
  - rewrite !getSize_elements, removeAllMatching_elements.
    generalize (elements m). intros l.
    induction l as [|x rest IH]; [reflexivity|].
    cbn [filter]. destruct (predicate x); cbn [negb length]; [exact IH|].
    rewrite IH.
    assert (length (filter predicate rest) <= length rest)%nat
      by apply filter_length_le.
    lia.
Qed.

Lemma removeMatching_no_empty_chunk (predicate : T -> bool)
      (strategy : RemoveStrategy) (m : MultisetBase T) :
  no_empty_chunk m -> no_empty_chunk (removeMatching predicate strategy m).
Proof.
  unfold no_empty_chunk, removeMatching. intros Hm.
  destruct (remove_static predicate strategy (static_ m) 0) as [st n1] eqn:Hst.
  pose proof (remove_static_shape predicate strategy (static_ m) 0)
    as (_ & Hn1).
  rewrite Hst in Hn1. cbn [snd] in Hn1.
  destruct (remove_chunks_shape predicate strategy (list_ m) n1)
    as (_ & Hn2 & Hsame).
  destruct (remove_chunks predicate strategy (list_ m) n1) as [ch n2].
  cbn [fst snd list_] in *.
  destruct (0 <? n2) eqn:Hpos; [apply compact_no_empty_chunk|].
  apply Nat.ltb_ge in Hpos.
  assert (Heq : n2 = n1) by lia. now rewrite (Hsame Heq).
Qed.

(** X8: [removeAll] leaves nothing behind: every slot of the static slab is
    free again and every chunk has gone back to the pool. *)
Theorem removeAll_releases_everything (m : MultisetBase T) :
  no_empty_chunk m ->
  static_ (removeAll m) = repeat None (length (static_ m))
  /\ list_ (removeAll m) = []
  /\ getSize (removeAll m) = 0.
Proof.
  intros Hm.
  pose proof (removeMatching_static_length (@YesPredicate T) RemoveAll m)
    as Hlen.
  fold (removeAllMatching (@YesPredicate T) m) in Hlen.
  fold (removeAll m) in Hlen.
  assert (Hnone : elements (removeAll m) = []).
  { unfold removeAll. rewrite removeAllMatching_elements.
    generalize (elements m). intros l. induction l; [reflexivity|exact IHl]. }
  pose proof (removeMatching_no_empty_chunk (@YesPredicate T) RemoveAll m Hm)
    as Hinv.
  fold (removeAllMatching (@YesPredicate T) m) in Hinv.
  fold (removeAll m) in Hinv.
  unfold elements in Hnone. apply app_eq_nil in Hnone as [Hs Hc].
  split; [|split].
  - apply elements_of_nil in Hs. now rewrite Hs, Hlen.
  - unfold no_empty_chunk in Hinv.
    destruct (list_ (removeAll m)) as [|p rest]; [reflexivity|].
    cbn [flat_map] in Hc. apply app_eq_nil in Hc as [Hp _].
    apply no_elements_not_constructed in Hp.
    inversion Hinv; subst. congruence.
  - rewrite getSize_elements. unfold elements. now rewrite Hs, Hc.
Qed.

End Emptying.

Section Built.

Variable T : Type.
Variable NumItems : nat.

Lemma add_no_empty_chunk (pool_has_block : bool) (x : T)
      (m m' : MultisetBase T) :
  add NumItems pool_has_block x m = Some m' ->
  no_empty_chunk m -> no_empty_chunk m'.
Proof.
  unfold add, no_empty_chunk. intros Hadd Hm.
  destruct (findFreeSlot (static_ m)) as [i|].
  - injection Hadd as <-. exact Hm.
  - destruct (add_dynamic (list_ m) x) as [chunks|] eqn:Hd.
    + injection Hadd as <-. cbn [list_].
      destruct (add_dynamic_Some T _ _ _ Hd) as (_ & _ & H). auto.
    + destruct pool_has_block; [|discriminate].
      revert Hadd. destruct NumItems as [|n]; [discriminate|].
      intros [= <-]. cbn [list_]. constructor; [reflexivity|exact Hm].
Qed.

Lemma add_chunk_lengths (pool_has_block : bool) (x : T)
      (m m' : MultisetBase T) :
  add NumItems pool_has_block x m = Some m' ->
  Forall (fun p => length p = NumItems) (list_ m) ->
  Forall (fun p => length p = NumItems) (list_ m').
Proof.
  unfold add. intros Hadd Hm.
  destruct (findFreeSlot (static_ m)) as [i|].
  - injection Hadd as <-. exact Hm.
  - destruct (add_dynamic (list_ m) x) as [chunks|] eqn:Hd.
    + injection Hadd as <-. cbn [list_].
      destruct (add_dynamic_Some T _ _ _ Hd) as (_ & Hl & _).
      clear Hd. revert chunks Hl.
      induction Hm as [|p rest Hp Hrest IH]; intros chunks Hl.
      * destruct chunks; [constructor|discriminate].
      * destruct chunks as [|q chunks]; [discriminate|].
        cbn in Hl. injection Hl as Hq Hl. constructor; [congruence|auto].
    + destruct pool_has_block; [|discriminate].
      revert Hadd. unfold new_Chunk.
      destruct NumItems as [|n] eqn:Hn; [discriminate|].
      intros [= <-]. cbn [list_]. constructor; [|exact Hm].
      cbn. now rewrite repeat_length.
Qed.

Lemma removeMatching_chunk_lengths (predicate : T -> bool)
      (strategy : RemoveStrategy) (m : MultisetBase T) :
  Forall (fun p => length p = NumItems) (list_ m) ->
  Forall (fun p => length p = NumItems)
         (list_ (removeMatching predicate strategy m)).
Proof.
  unfold removeMatching. intros Hm.
  destruct (remove_static predicate strategy (static_ m) 0) as [st n1].
  destruct (remove_chunks_shape T predicate strategy (list_ m) n1)
    as (Hl & _ & _).
  destruct (remove_chunks predicate strategy (list_ m) n1) as [ch n2].
  cbn [fst list_] in *.
  assert (Hch : Forall (fun p => length p = NumItems) ch).
  { clear -Hl Hm. revert ch Hl.
    induction Hm as [|p rest Hp Hrest IH]; intros ch Hl.
    - destruct ch; [constructor|discriminate].
    - destruct ch as [|q ch]; [discriminate|].
      cbn in Hl. injection Hl as Hq Hl. constructor; [congruence|auto]. }
  destruct (0 <? n2); [|exact Hch].
  unfold compact. apply Forall_forall. intros p Hin.
  apply filter_In in Hin as [Hin _].
  exact (proj1 (Forall_forall _ _) Hch p Hin).
Qed.

(** X9: Whatever is added and removed, the container keeps its shape: the
    static slab has its [NumStaticEntries] slots, every chunk has
    [NumItems] slots, and no chunk is kept that holds no element. *)
Theorem built_keeps_no_empty_chunk (NumStaticEntries : nat)
        (m : MultisetBase T) :
  built NumItems NumStaticEntries m ->
  length (static_ m) = NumStaticEntries
  /\ Forall (fun p => length p = NumItems) (list_ m)
  /\ no_empty_chunk m.
Proof.
  induction 1 as [|b x m m' Hb IH Hadd|predicate strategy m Hb IH].
  - cbn. rewrite repeat_length. repeat split; constructor.
  - destruct IH as (Hs & Hl & He). split; [|split].
    + rewrite (add_static_length T _ _ _ _ _ Hadd). exact Hs.
    + exact (add_chunk_lengths _ _ _ _ Hadd Hl).
    + exact (add_no_empty_chunk _ _ _ _ Hadd He).
  - destruct IH as (Hs & Hl & He). split; [|split].
    + now rewrite (removeMatching_static_length T).
    + now apply removeMatching_chunk_lengths.
    + now apply removeMatching_no_empty_chunk.
Qed.

End Built.

Lemma getByIndex_nth_witness :
  (0 <= 1 < 2 ^ 32)%Z /\ getByIndex 1 two_sevens = Some 7.
Proof.
  split; [lia|].
  exact (proj1 (getByIndex_nth nat 1%Z two_sevens ltac:(lia))).
Defined.

Lemma add_moves_nothing_witness :
  add 3 false 9 two_sevens = Some (mkMultiset [] [[Some 7; Some 7; Some 9]])
  /\ getSize (mkMultiset [] [[Some 7; Some 7; Some 9]]) = 3.
Proof.
  split; [reflexivity|].
  exact (proj1 (proj2 (add_moves_nothing nat 3 false 9 two_sevens _ eq_refl))).
Defined.

Lemma add_uses_pool_only_when_full_witness :
  let full := mkMultiset [] [[Some 7; Some 7; Some 9]] in
  (0 < 3)%nat
  /\ add 3 false 5 full = None
  /\ length (list_ (mkMultiset [] [[Some 5; None; None];
                                   [Some 7; Some 7; Some 9]])) = 2.
Proof.
  cbv zeta. split; [lia|]. split.
  - apply (proj1 (add_uses_pool_only_when_full
                    nat 3 false 5 (mkMultiset [] [[Some 7; Some 7; Some 9]])
                    ltac:(lia))).
    split; reflexivity.
  - exact (proj2 (add_uses_pool_only_when_full
                    nat 3 true 5 (mkMultiset [] [[Some 7; Some 7; Some 9]])
                    ltac:(lia)) _ eq_refl).
Defined.

Lemma two_sevens_built : built 3 0 two_sevens.
Proof.
  apply (@built_add nat 3 0 true 7 (mkMultiset [] [[Some 7; None; None]]));
    [|reflexivity].
  apply (@built_add nat 3 0 true 7 (Multiset_new nat 0)); [|reflexivity].
  apply built_new.
Defined.

Lemma removeAll_releases_everything_witness :
  no_empty_chunk two_sevens /\ list_ (removeAll two_sevens) = [].
Proof.
  assert (H : no_empty_chunk two_sevens)
    by (repeat constructor).
  split; [exact H|].
  exact (proj1 (proj2 (removeAll_releases_everything nat two_sevens H))).
Defined.

Lemma built_keeps_no_empty_chunk_witness :
  built 3 0 two_sevens /\ no_empty_chunk two_sevens.
Proof.
  split; [exact two_sevens_built|].
  exact (proj2 (proj2 (built_keeps_no_empty_chunk nat 3 0 two_sevens
                                                  two_sevens_built))).
Defined.

End MultisetProofs.


(* ===================================================================== *)
(** * Properties of the response promise *)
(* ===================================================================== *)

Module PromiseProofs.

Import ResponsePromise.

(** Every method is a case distinction over the slots of the promise:
    unfold it, split the cases that show up, compute. *)
Ltac split_cases :=
  repeat (match goal with
          | |- context [match ?x with _ => _ end] => is_var x; destruct x
          | |- context [(?a =? ?b)%Z] => destruct (a =? b)%Z
          | |- context [(?a <=? ?b)%Z] => destruct (a <=? b)%Z
          end; cbn).

Ltac by_cases :=
  unfold pending, fetches_result, resolves, call, setCallback,
    acceptNewCallback, client_onResponseRxTransfer, client_run,
    onResponseTimeout, onResponseRxTransfer, acceptResult, fetchResult,
    getResult, setDeadline, set_linked, set_deadline, set_opt_result,
    set_callback_fn;
  cbn; split_cases; cbn in *; try discriminate; try lia; auto.

Section Lifetime.

Variables Success Error Function : Type.

Local Abbreviation Promise := (ResponsePromiseBase Success Error Function).
Local Abbreviation PCall := (Call Success Error Function).
Local Abbreviation make := (make Success Error Function).

Lemma make_resolved_if_stored tid d now :
  resolved_if_stored (make tid d now : Promise).
Proof. intros H. now contradiction H. Qed.

Lemma call_resolved_if_stored (c : PCall) (p : Promise) :
  resolved_if_stored p -> resolved_if_stored (fst (call c p)).
Proof.
  unfold resolved_if_stored. intros Hinv.
  destruct c as [| |fn now|d|tid outcome now|now]; cbn [call].
  - exact Hinv.
  - unfold fetchResult. destruct (opt_result_ p) eqn:Hr; cbn.
    + intros H. now contradiction H.
    + rewrite Hr. exact Hinv.
  - unfold setCallback, acceptNewCallback, fetchResult.
    destruct fn as [f|]; [destruct (opt_result_ p) eqn:Hr|]; cbn.
    + intros H. now contradiction H.
    + rewrite Hr. intros H. now contradiction H.
    + exact Hinv.
  - unfold setDeadline. destruct (linked_ p) eqn:Hl; cbn.
    + intros H. apply Hinv in H. congruence.
    + rewrite Hl. auto.
  - unfold client_onResponseRxTransfer, onResponseRxTransfer, acceptResult.
    destruct (linked_ p && (tid =? transfer_id_ p)%Z); [|exact Hinv].
    cbn. destruct (callback_fn_ p); cbn; auto.
  - unfold client_run, onResponseTimeout, acceptResult.
    destruct (linked_ p && (deadline_ p <=? now)%Z); [|exact Hinv].
    cbn. destruct (callback_fn_ p); cbn; auto.
Qed.

Lemma calls_resolved_if_stored (cs : list PCall) (p : Promise) :
  resolved_if_stored p -> resolved_if_stored (fst (calls cs p)).
Proof.
  revert p. induction cs as [|c rest IH]; intros p Hinv; [exact Hinv|].
  cbn [calls]. pose proof (call_resolved_if_stored c p Hinv) as H1.
  destruct (call c p) as [p1 o]. specialize (IH p1 H1).
  destruct (calls rest p1) as [p2 os]. exact IH.
Qed.

(** A spent promise stays spent, yields nothing and is not resolved. *)
Lemma call_spent (c : PCall) (p : Promise) :
  spent p ->
  spent (fst (call c p))
  /\ returned (snd (call c p)) = None
  /\ resolves c p = false.
Proof.
  intros [Hr Hl].
  destruct c as [| |fn now|d|tid outcome now|now]; cbn [call resolves].
  - unfold getResult. cbn. repeat split; assumption.
  - unfold fetchResult. rewrite Hr. cbn. repeat split; assumption.
  - unfold setCallback, acceptNewCallback, fetchResult. rewrite Hr.
    destruct fn; cbn; repeat split; assumption.
  - unfold setDeadline. rewrite Hl. cbn. repeat split; assumption.
  - unfold client_onResponseRxTransfer. rewrite Hl. cbn.
    repeat split; assumption.
  - unfold client_run. rewrite Hl. cbn. repeat split; assumption.
Qed.

Lemma calls_spent (cs : list PCall) (p : Promise) :
  spent p ->
  Forall (fun o => returned o = None) (snd (calls cs p))
  /\ resolutions cs p = 0.
Proof.
  revert p. induction cs as [|c rest IH]; intros p Hs.
  - split; [constructor|reflexivity].
  - cbn [calls resolutions].
    destruct (call_spent c p Hs) as (Hs1 & Hret & Hres).
    rewrite Hres. destruct (call c p) as [p1 o]. cbn [fst snd] in *.
    destruct (IH p1 Hs1) as [Hall Hzero].
    destruct (calls rest p1) as [p2 os]. cbn [snd] in *.
    split; [constructor; assumption|exact Hzero].
Qed.

Lemma call_pending (c : PCall) (p : Promise) :
  (if fetches_result c p then 1 else 0) + pending (fst (call c p))
  <= pending p.
Proof.
  destruct p as [tid0 d0 l0 rt cb res].
  destruct c as [| |fn now|d|tid outcome now|now]; by_cases.
Qed.

Lemma nonempty_fetches_pending (cs : list PCall) (p : Promise) :
  nonempty_fetches cs p <= pending p.
Proof.
  revert p. induction cs as [|c rest IH]; intros p; cbn [nonempty_fetches].
  - lia.
  - pose proof (call_pending c p). specialize (IH (fst (call c p))). lia.
Qed.

Lemma call_linked (c : PCall) (p : Promise) :
  (if resolves c p then 1 else 0)
  + (if linked_ (fst (call c p)) then 1 else 0)
  <= (if linked_ p then 1 else 0).
Proof.
  destruct p as [tid0 d0 l0 rt cb res].
  destruct c as [| |fn now|d|tid outcome now|now]; by_cases.
Qed.

Lemma resolutions_linked (cs : list PCall) (p : Promise) :
  resolutions cs p <= (if linked_ p then 1 else 0).
Proof.
  revert p. induction cs as [|c rest IH]; intros p; cbn [resolutions].
  - lia.
  - pose proof (call_linked c p). specialize (IH (fst (call c p))). lia.
Qed.

(** Every invocation of a callback uses up what is pending: under the
    discipline of the client a promise invokes a callback at most once
    in its life. *)
Lemma call_invokes_pending (c : PCall) (p : Promise) :
  length (effects (snd (call c p))) + pending (fst (call c p)) <= pending p.
Proof.
  destruct p as [tid0 d0 l0 rt cb res].
  destruct c as [| |fn now|d|tid outcome now|now]; by_cases.
Qed.

Lemma at_most_one_invocation (cs : list PCall)
      (transfer_id : TransferId) (deadline now : TimePoint) :
  length (flat_map (@effects _ _ _)
                   (snd (calls cs (make transfer_id deadline now)))) <= 1.
Proof.
  change 1 with (pending (make transfer_id deadline now)).
  generalize (make transfer_id deadline now). intros p. revert p.
  induction cs as [|c rest IH]; intros p; cbn [calls].
  - cbn. lia.
  - pose proof (call_invokes_pending c p) as Hc.
    destruct (call c p) as [p1 o]. specialize (IH p1).
    destruct (calls rest p1) as [p2 os]. cbn [fst snd flat_map] in *.
    rewrite length_app. lia.
Qed.

(** C6: over the life of a promise, whatever is called on it and whatever
    the client delivers, at most one fetch returns a result and the
    promise is resolved at most once; and once [fetchResult] has returned
    a stored result, every later [getResult] and [fetchResult] yields
    nothing and no later call resolves the promise again. *)
Theorem fetchResult_at_most_once
        (transfer_id : TransferId) (deadline now : TimePoint) :
  (forall cs : list PCall,
      nonempty_fetches cs (make transfer_id deadline now) <= 1
      /\ resolutions cs (make transfer_id deadline now) <= 1)
  /\ (forall (before after : list PCall) (p p' : Promise) (r : Result _ _),
         fst (calls before (make transfer_id deadline now)) = p ->
         fetchResult p = (Some r, p') ->
         Forall (fun o => returned o = None) (snd (calls after p'))
         /\ resolutions after p' = 0).
Proof.
  split.
  - intros cs. split.
    + exact (nonempty_fetches_pending cs _).
    + exact (resolutions_linked cs _).
  - intros before after p p' r Hp Hfetch.
    apply calls_spent.
    assert (Hinv : resolved_if_stored p).
    { rewrite <- Hp. apply calls_resolved_if_stored.
      apply make_resolved_if_stored. }
    unfold fetchResult in Hfetch.
    destruct (opt_result_ p) eqn:Hr; [|discriminate].
    injection Hfetch as _ Hp'. subst p'. split; [reflexivity|].
    cbn. apply Hinv. congruence.
Qed.

End Lifetime.

Section Delivery.

Variables Success Error Function : Type.
Variable Function_eq_dec : forall a b : Function, {a = b} + {a <> b}.

Local Abbreviation Promise := (ResponsePromiseBase Success Error Function).
Local Abbreviation PMethod := (Method Success Error Function).
Local Abbreviation invocations := (@invocations Success Error Function
                                                Function_eq_dec).
Local Abbreviation installations := (@installations Success Error Function
                                                    Function_eq_dec).
Local Abbreviation same_function := (@same_function Function Function_eq_dec).

Lemma invocations_app (fn : Function) (e1 e2 : list (Effect _ _ _)) :
  invocations fn (e1 ++ e2) = invocations fn e1 + invocations fn e2.
Proof.
  unfold ResponsePromise.invocations. now rewrite filter_app, length_app.
Qed.

(** One method call: what it invokes and what it leaves in the callback
    slot is paid for by what it was handed or by what the slot held. *)
Lemma invoke_accounts (fn : Function) (m : PMethod) (p : Promise) :
  invocations fn (snd (invoke m p))
  + (if same_function fn (callback_fn_ (fst (invoke m p))) then 1 else 0)
  <= installations fn [m]
     + (if same_function fn (callback_fn_ p) then 1 else 0).
Proof.
  destruct p as [tid0 d0 l0 rt cb res].
  unfold ResponsePromise.invocations, ResponsePromise.installations.
  destruct m as [| |f now|r now|d now];
    unfold invoke, acceptNewCallback, onResponseTimeout, acceptResult,
      fetchResult, set_opt_result, set_callback_fn;
    cbn;
    repeat (match goal with
            | |- context [match ?x with _ => _ end] => is_var x; destruct x
            | |- context [Function_eq_dec ?a ?b] =>
                destruct (Function_eq_dec a b)
            end; cbn);
    try lia.
Qed.

Lemma invoke_all_accounts (fn : Function) (ms : list PMethod) (p : Promise) :
  invocations fn (snd (invoke_all ms p))
  <= installations fn ms
     + (if same_function fn (callback_fn_ p) then 1 else 0).
Proof.
  revert p. induction ms as [|m rest IH]; intros p.
  - cbn. lia.
  - cbn [invoke_all]. pose proof (invoke_accounts fn m p) as Hm.
    destruct (invoke m p) as [p1 e1]. specialize (IH p1).
    destruct (invoke_all rest p1) as [p2 e2]. cbn [fst snd] in *.
    rewrite invocations_app.
    change (installations fn (m :: rest))
      with (installations fn ([m] ++ rest)).
    unfold ResponsePromise.installations in *.
    rewrite filter_app, length_app. lia.
Qed.

(** C7: (a) a function handed to [setCallback] while a result is stored
    is invoked at once with that result, the result slot is emptied and
    the function is not put into the callback slot; (b) a result accepted
    while a callback is installed goes to that callback, which leaves the
    slot, and the result is not stored; (c) whatever is called on the
    promise, a function is never invoked more often than it was
    installed. *)
Theorem callback_delivery_is_exclusive
        (p : Promise) (fn : Function) (result : Result Success Error)
        (now : TimePoint) :
  (opt_result_ p = Some result ->
   setCallback (Some fn) now p
   = (set_opt_result p None, [Invoked fn result now])
   /\ opt_result_ (fst (setCallback (Some fn) now p)) = None
   /\ callback_fn_ (fst (setCallback (Some fn) now p)) = callback_fn_ p)
  /\ (callback_fn_ p = Some fn ->
      acceptResult result now p
      = (set_callback_fn p None, [Invoked fn result now])
      /\ callback_fn_ (fst (acceptResult result now p)) = None
      /\ opt_result_ (fst (acceptResult result now p)) = opt_result_ p)
  /\ (forall ms : list PMethod,
         invocations fn (snd (invoke_all ms p))
         <= installations fn ms
            + (if same_function fn (callback_fn_ p) then 1 else 0)).
Proof.
  split; [|split].
  - intros Hr. unfold setCallback, acceptNewCallback, fetchResult.
    rewrite Hr. cbn. auto.
  - intros Hc. unfold acceptResult. rewrite Hc. cbn. auto.
  - intros ms. apply invoke_all_accounts.
Qed.

End Delivery.

(** C6 at work: the promise expires at its deadline, the result is
    fetched, and nothing more is to be had. *)
Lemma fetchResult_at_most_once_witness :
  let expired :=
    fst (calls [CallRun nat unit nat 10%Z] (make nat unit nat 0%Z 10%Z 0%Z)) in
  let after :=
    [CallGetResult nat unit nat; CallFetchResult nat unit nat;
     CallRun nat unit nat 20%Z] in
  Forall (fun o => returned o = None)
         (snd (calls after (snd (fetchResult expired))))
  /\ resolutions after (snd (fetchResult expired)) = 0.
Proof.
  cbv zeta.
  apply (proj2 (fetchResult_at_most_once nat unit nat 0%Z 10%Z 0%Z)
               [CallRun nat unit nat 10%Z] _
               (fst (calls [CallRun nat unit nat 10%Z]
                           (make nat unit nat 0%Z 10%Z 0%Z))) _
               (ResultFailure nat (ResponsePromiseExpired unit 10%Z)));
    reflexivity.
Defined.

(** C7 at work: a stored result and a new callback; an installed
    callback and a new result. *)
Lemma callback_delivery_is_exclusive_witness :
  let stored :=
    mkPromise 0%Z 10%Z false 0%Z (@None nat) (Some (ResultSuccess unit 5)) in
  let waiting :=
    mkPromise 0%Z 10%Z false 0%Z (Some 1%nat) (@None (Result nat unit)) in
  setCallback (Some 1%nat) 7%Z stored
  = (set_opt_result stored None, [Invoked 1%nat (ResultSuccess unit 5) 7%Z])
  /\ acceptResult (ResultSuccess unit 5) 7%Z waiting
     = (set_callback_fn waiting None,
        [Invoked 1%nat (ResultSuccess unit 5) 7%Z]).
Proof.
  cbv zeta. split.
  - apply (proj1 (callback_delivery_is_exclusive
                    nat unit nat Nat.eq_dec
                    (mkPromise 0%Z 10%Z false 0%Z (@None nat)
                               (Some (ResultSuccess unit 5)))
                    1%nat (ResultSuccess unit 5) 7%Z)).
    reflexivity.
  - apply (proj1 (proj2 (callback_delivery_is_exclusive
                    nat unit nat Nat.eq_dec
                    (mkPromise 0%Z 10%Z false 0%Z (Some 1%nat)
                               (@None (Result nat unit)))
                    1%nat (ResultSuccess unit 5) 7%Z))).
    reflexivity.
Defined.

Section Storage.

Variables Success Error Function : Type.

Local Abbreviation Promise := (ResponsePromiseBase Success Error Function).
Local Abbreviation PMethod := (Method Success Error Function).
Local Abbreviation make := (make Success Error Function).

Lemma invoke_exclusive (m : PMethod) (p : Promise) :
  exclusive p -> exclusive (fst (invoke m p)).
Proof.
  unfold exclusive. destruct p as [tid d linked rt cb res].
  destruct m as [| |fn now|r now|d' now]; cbn;
    unfold acceptNewCallback, onResponseTimeout, acceptResult, fetchResult;
    cbn; intros [H|H]; subst;
    repeat (match goal with
            | |- context [match ?x with _ => _ end] => is_var x; destruct x
            end; cbn);
    auto.
Qed.

(** X10: Whatever is called on a promise, it never holds a callback and a
    stored result at the same time: a result is given to the callback or
    kept for a fetch, not both. *)
Theorem callback_and_result_never_coexist
        (transfer_id : TransferId) (deadline now : TimePoint)
        (ms : list PMethod) :
  exclusive (fst (invoke_all ms (make transfer_id deadline now))).
Proof.
  assert (H : forall (p : Promise), exclusive p ->
                                    exclusive (fst (invoke_all ms p))).
  { induction ms as [|m rest IH]; intros p Hp; [exact Hp|].
    cbn [invoke_all]. pose proof (invoke_exclusive m p Hp) as H1.
    destruct (invoke m p) as [p1 e1]. specialize (IH p1 H1).
    destruct (invoke_all rest p1) as [p2 e2]. exact IH. }
  apply H. now left.
Qed.


(** X12: Of the callbacks handed over while no result is there, only the last
    one is called when the result comes, once; an earlier one is dropped
    without being called. *)
Theorem last_callback_wins
        (p : Promise) (first last : Function)
        (result : Result Success Error) (t1 t2 approx_now : TimePoint) :
  opt_result_ p = None ->
  let p1 := fst (acceptNewCallback (Some first) t1 p) in
  let p2 := fst (acceptNewCallback (Some last) t2 p1) in
  snd (acceptNewCallback (Some first) t1 p) = []
  /\ snd (acceptNewCallback (Some last) t2 p1) = []
  /\ snd (acceptResult result approx_now p2)
     = [Invoked last result approx_now]
  /\ callback_fn_ (fst (acceptResult result approx_now p2)) = None
  /\ opt_result_ (fst (acceptResult result approx_now p2)) = None.
Proof.
  destruct p as [tid d linked rt cb res]. cbn. intros ->. cbn. repeat split.
Qed.

End Storage.

Lemma last_callback_wins_witness :
  let p := make nat unit nat 0%Z 10%Z 0%Z in
  opt_result_ p = None
  /\ snd (acceptResult
            (ResultSuccess unit 5) 7%Z
            (fst (acceptNewCallback
                    (Some 2) 2%Z (fst (acceptNewCallback (Some 1) 1%Z p)))))
     = [Invoked 2 (ResultSuccess unit 5) 7%Z].
Proof.
  cbv zeta. split; [reflexivity|].
  exact (proj1 (proj2 (proj2 (last_callback_wins
                                nat unit nat (make nat unit nat 0%Z 10%Z 0%Z)
                                1 2 (ResultSuccess unit 5) 1%Z 2%Z 7%Z
                                eq_refl)))).
Defined.

End PromiseProofs.


(* ===================================================================== *)
(** * Properties of the CAN transport *)
(* ===================================================================== *)

Module CanProofs.

Import Can.

Local Open Scope Z_scope.

(** Effectful code is run by unfolding the plumbing. *)
Ltac run_eff :=
  unfold bind, ret, lift, emit, result_of, world_of, events_of in *;
  cbn [fst snd] in *.

Section NodeId.

Context {World : Type}.
Context {media_interface : IMedia World}.
Context {canard : Canard World}.
Context {memory : MemoryResource World}.

Lemma to_uint8_small (z : Z) : 0 <= z <= uint8_max -> to_uint8 z = z.
Proof. unfold to_uint8, uint8_max. intros H. apply Z.mod_small. lia. Qed.

(** C5: [setLocalNodeId(id)] returns no error exactly when [id] is within
    the valid range and the stored node id is UNSET or already [id]; it
    then stores [id]. In every other case it returns [ArgumentError] and
    changes nothing. A transition from UNSET to an id sets the flag
    [should_reconfigure_filters_] when a service RX port exists. *)
Theorem setLocalNodeId_spec (id : NodeId) (t : TransportImpl) :
  0 <= id <= uint16_max ->
  let stored := node_id (canard_instance t) in
  let error := fst (setLocalNodeId id t) in
  let t' := snd (setLocalNodeId id t) in
  (error = None <->
   id <= CANARD_NODE_ID_MAX /\ (stored = CANARD_NODE_ID_UNSET \/ stored = id))
  /\ (error = None -> node_id (canard_instance t') = id)
  /\ (error <> None -> error = Some ArgumentError /\ t' = t)
  /\ (error = None -> stored = CANARD_NODE_ID_UNSET ->
      (0 < total_service_ports t)%nat ->
      should_reconfigure_filters t' = true).
Proof.
  intros Hid. cbv zeta. unfold setLocalNodeId.
  unfold CANARD_NODE_ID_MAX, CANARD_NODE_ID_UNSET, uint16_max in *.
  destruct (Z.ltb_spec 127 id) as [Hbig|Hok]; cbn [fst snd].
  { split; [split; [discriminate|lia]|].
    split; [discriminate|]. split; [auto|discriminate]. }
  destruct (Z.eqb_spec (node_id (canard_instance t)) id) as [Heq|Hne];
    cbn [fst snd].
  { split; [split; [intros _; lia|reflexivity]|].
    split; [intros _; exact Heq|].
    split; [intros H; now contradiction H|].
    intros _ Hunset. lia. }
  destruct (Z.eqb_spec (node_id (canard_instance t)) 255) as [Hu|Hnu];
    cbn [negb fst snd].
  - assert (Hcast : to_uint8 id = id)
      by (apply to_uint8_small; unfold uint8_max; lia).
    split; [split; [intros _; lia|reflexivity]|].
    split.
    { intros _. cbn. destruct (total_service_ports t); cbn; exact Hcast. }
    split; [intros H; now contradiction H|].
    intros _ _ Hports. cbn.
    destruct (total_service_ports t); [lia|reflexivity].
  - split; [split; [discriminate|intros [_ [H|H]]; contradiction]|].
    split; [discriminate|]. split; [auto|discriminate].
Qed.
(** C5 at work: an anonymous node with one service port takes the id
    0x45. *)
Lemma setLocalNodeId_spec_witness :
  let t := mkTransport (mkInstance CANARD_NODE_ID_UNSET [] [] []) [] false
                       0%nat 1%nat [] 0%nat in
  fst (setLocalNodeId 69 t) = None
  /\ should_reconfigure_filters (snd (setLocalNodeId 69 t)) = true.
Proof.
  cbv zeta.
  pose proof (setLocalNodeId_spec
                69 (mkTransport (mkInstance CANARD_NODE_ID_UNSET [] [] []) []
                                false 0%nat 1%nat [] 0%nat)
                ltac:(unfold uint16_max; lia)) as H.
  cbv zeta in H. destruct H as (_ & _ & _ & Hflag).
  split; [reflexivity|]. apply Hflag; [reflexivity|reflexivity|cbn; lia].
Defined.

End NodeId.

Section Factory.

Context {World : Type}.
Context {media_interface : IMedia World}.
Context {canard : Canard World}.
Context {memory : MemoryResource World}.

Lemma count_non_null_length (media : list (option IMediaRef)) :
  count_non_null media = length (non_null media).
Proof.
  unfold count_non_null, non_null.
  induction media as [|[x|] rest IH]; cbn; auto.
Qed.

(** The media made by the loop of [make_media_array]. *)
Lemma emplace_media_spec (media : list (option IMediaRef))
      (idx tx_capacity : nat) (w : World) :
  exists l,
    emplace_media media idx tx_capacity w = (l, w, [])
    /\ map interface l = non_null media
    /\ map index l
       = map (fun i => to_uint8 (Z.of_nat i)) (seq idx (count_non_null media))
    /\ Forall (fun m => canard_tx_queue m
                        = canardTxInit tx_capacity (getMtu (interface m) w)) l.
Proof.
  revert idx. induction media as [|[x|] rest IH]; intros idx.
  - exists []. cbn. repeat split; constructor.
  - destruct (IH (S idx)) as (l & Heq & Hif & Hidx & Hq).
    exists (mkMedia (to_uint8 (Z.of_nat idx)) x
                    (canardTxInit tx_capacity (getMtu x w)) :: l).
    cbn [emplace_media]. unfold bind, call_getMtu, ret.
    rewrite Heq. split; [reflexivity|].
    split; [cbn; now rewrite Hif|].
    split; [unfold count_non_null in *; cbn; now rewrite Hidx|].
    constructor; [reflexivity|exact Hq].
  - destruct (IH idx) as (l & Heq & Hif & Hidx & Hq).
    exists l. cbn [emplace_media]. auto.
Qed.

Lemma indices_small (n : nat) :
  (n <= 256)%nat ->
  map (fun i => to_uint8 (Z.of_nat i)) (seq 0 n) = map Z.of_nat (seq 0 n).
Proof.
  intros Hn. apply map_ext_in. intros i Hi. apply in_seq in Hi.
  apply to_uint8_small. unfold uint8_max. lia.
Qed.


Lemma emplace_media_length (media : list (option IMediaRef))
      (idx tx_capacity : nat) (w : World) :
  length (fst (fst (emplace_media media idx tx_capacity w)))
  = count_non_null media.
Proof.
  destruct (emplace_media_spec media idx tx_capacity w)
    as (l & Heq & Hif & _).
  rewrite Heq. cbn. rewrite count_non_null_length, <- Hif.
  now rewrite length_map.
Qed.

(** The factory, one case after the other. *)
Lemma make_cases (media : list (option IMediaRef)) (tx_capacity : nat)
      (local_node_id : option NodeId) (w : World) :
  let count := count_non_null media in
  let r := result_of (make media tx_capacity local_node_id w) in
  let w1 := snd (allocate (AllocMediaArray count) w) in
  if (count =? 0)%nat || (255 <? count)%nat
     || node_id_out_of_range local_node_id
  then r = Failure FactoryArgumentError
  else if fst (allocate (AllocMediaArray count) w)
          && fst (allocate AllocTransport w1)
  then r = Value (TransportImpl_new
                    (fst (fst (emplace_media media 0 tx_capacity w1)))
                    (to_uint8 (match local_node_id with
                               | Some n => n
                               | None => CANARD_NODE_ID_UNSET
                               end)))
  else r = Failure FactoryMemoryError.
Proof.
  cbv zeta. unfold make. change (Z.to_nat uint8_max) with 255%nat.
  destruct ((count_non_null media =? 0)%nat
            || (255 <? count_non_null media)%nat) eqn:Hcount;
    cbn [orb]; [reflexivity|].
  destruct (node_id_out_of_range local_node_id) eqn:Hid; [reflexivity|].
  unfold make_media_array. run_eff.
  destruct (allocate (AllocMediaArray (count_non_null media)) w)
    as [reserved w1] eqn:Hres. cbn [fst snd andb].
  destruct reserved; cbn [andb].
  - pose proof (emplace_media_length media 0 tx_capacity w1) as Hlen.
    destruct (emplace_media_spec media 0 tx_capacity w1) as (l & Heq & _).
    rewrite Heq in *. cbn [fst snd] in *. rewrite Hlen, Nat.eqb_refl.
    cbn [negb]. destruct (allocate AllocTransport w1) as [obtained w2].
    cbn [fst]. destruct obtained; reflexivity.
  - cbn [length]. apply orb_false_iff in Hcount as [Hzero _].
    rewrite Nat.eqb_sym, Hzero. reflexivity.
Qed.


Lemma count_non_null_filtered (media : list (option IMediaRef)) :
  count_non_null (map Some (non_null media)) = count_non_null media.
Proof.
  unfold count_non_null, non_null.
  induction media as [|[x|] rest IH]; cbn; auto.
Qed.

Lemma emplace_media_filtered (media : list (option IMediaRef))
      (idx tx_capacity : nat) :
  emplace_media (map Some (non_null media)) idx tx_capacity
  = emplace_media media idx tx_capacity.
Proof.
  revert idx. unfold non_null.
  induction media as [|[x|] rest IH]; intros idx; cbn; auto.
  now rewrite IH.
Qed.

Lemma make_filtered (media : list (option IMediaRef)) (tx_capacity : nat)
      (local_node_id : option NodeId) :
  make (map Some (non_null media)) tx_capacity local_node_id
  = make media tx_capacity local_node_id.
Proof.
  unfold make, make_media_array.
  now rewrite count_non_null_filtered, emplace_media_filtered.
Qed.

Lemma make_media (media : list (option IMediaRef)) (tx_capacity : nat)
      (local_node_id : option NodeId) (w : World) (t : TransportImpl) :
  result_of (make media tx_capacity local_node_id w) = Value t ->
  map interface (media_array t) = non_null media
  /\ map index (media_array t)
     = map Z.of_nat (seq 0 (length (non_null media))).
Proof.
  intros Hmake. pose proof (make_cases media tx_capacity local_node_id w) as H.
  cbv zeta in H. rewrite Hmake in H.
  destruct ((count_non_null media =? 0)%nat
            || (255 <? count_non_null media)%nat) eqn:Hcount;
    cbn [orb] in H; [discriminate|].
  destruct (node_id_out_of_range local_node_id); [discriminate|].
  match type of H with
  | if ?b then _ else _ => destruct b; [|discriminate]
  end.
  injection H as ->. cbn [media_array TransportImpl_new].
  match goal with
  | |- context [emplace_media media 0 tx_capacity ?w1] =>
      destruct (emplace_media_spec media 0 tx_capacity w1)
        as (l & Heq & Hif & Hidx & _); rewrite Heq
  end.
  cbn [fst]. split; [exact Hif|].
  rewrite Hidx, <- count_non_null_length. apply indices_small.
  apply orb_false_iff in Hcount as [_ Hmax].
  apply Nat.ltb_ge in Hmax. lia.
Qed.

End Factory.

Section Transmit.

Context {World : Type}.
Context {media_interface : IMedia World}.
Context {canard : Canard World}.
Context {memory : MemoryResource World}.

Lemma cons_eq_app {A} (x e : A) (l before after : list A) :
  x :: l = before ++ e :: after ->
  (before = [] /\ x = e /\ l = after)
  \/ (exists before', before = x :: before' /\ l = before' ++ e :: after).
Proof.
  destruct before as [|b before']; cbn; intros H; injection H as -> ->.
  - left. auto.
  - right. eauto.
Qed.

(** One round of the drain loop, by the cases of its body. *)
Lemma drain_expired (now : TimePoint) (idx : Z) (iface : IMediaRef)
      (tx_item : CanardTxQueueItem) (rest : list CanardTxQueueItem)
      (w : World) :
  deadline_of tx_item <= now ->
  drain now idx iface (tx_item :: rest) w
  = (result_of (drain now idx iface rest w),
     world_of (drain now idx iface rest w),
     EvFreeTxItem idx tx_item :: events_of (drain now idx iface rest w)).
Proof.
  intros Hlate. cbn [drain].
  destruct (Z.ltb_spec now (deadline_of tx_item)); [lia|].
  run_eff. destruct (drain now idx iface rest w) as [[q w'] ev]. reflexivity.
Qed.

Lemma drain_in_time (now : TimePoint) (idx : Z) (iface : IMediaRef)
      (tx_item : CanardTxQueueItem) (rest : list CanardTxQueueItem)
      (w : World) :
  now < deadline_of tx_item ->
  let answer :=
    push iface (deadline_of tx_item) (extended_can_id (frame tx_item))
         (payload (frame tx_item)) w in
  drain now idx iface (tx_item :: rest) w
  = match fst answer with
    | Value false =>
        (tx_item :: rest, snd answer,
         [push_event idx iface tx_item (fst answer)])
    | _ =>
        (result_of (drain now idx iface rest (snd answer)),
         world_of (drain now idx iface rest (snd answer)),
         push_event idx iface tx_item (fst answer)
         :: EvFreeTxItem idx tx_item
         :: events_of (drain now idx iface rest (snd answer)))
    end.
Proof.
  intros Hearly. cbv zeta. cbn [drain].
  destruct (Z.ltb_spec now (deadline_of tx_item)); [|lia].
  unfold call_push, push_event. run_eff.
  destruct (push iface (deadline_of tx_item) (extended_can_id (frame tx_item))
                 (payload (frame tx_item)) w) as [answer w1].
  cbn [fst snd].
  destruct answer as [[|]|err]; try reflexivity;
    destruct (drain now idx iface rest w1) as [[q w'] ev]; reflexivity.
Qed.

(** What a drain leaves behind and what it logs. *)
Lemma drain_spec (now : TimePoint) (idx : Z) (iface : IMediaRef)
      (items : list CanardTxQueueItem) (w : World) :
  let r := drain now idx iface items w in
  Forall (push_in_time now) (events_of r)
  /\ (exists dropped, items = dropped ++ result_of r)
  /\ head_in_time now (result_of r)
  /\ (forall before e after,
         events_of r = before ++ e :: after -> is_busy e = true ->
         after = []
         /\ exists tx_item rest,
             result_of r = tx_item :: rest
             /\ e = push_event idx iface tx_item (Value false)).
Proof.
  cbv zeta. revert w. induction items as [|tx_item rest IH]; intros w.
  - cbn. split; [constructor|]. split; [exists []; reflexivity|].
    split; [exact I|].
    intros before e after H. destruct before; discriminate.
  - destruct (Z.ltb_spec now (deadline_of tx_item)) as [Hearly|Hlate].
    + rewrite (drain_in_time now idx iface tx_item rest w Hearly). cbv zeta.
      destruct (push iface (deadline_of tx_item)
                     (extended_can_id (frame tx_item))
                     (payload (frame tx_item)) w) as [answer w1].
      cbn [fst snd].
      destruct (IH w1) as (Hpush & [dropped Hdrop] & Hhead & Hbusy).
      assert (Hcont :
        forall a, is_busy (push_event idx iface tx_item a) = false ->
        let r := (result_of (drain now idx iface rest w1),
                  world_of (drain now idx iface rest w1),
                  push_event idx iface tx_item a
                  :: EvFreeTxItem idx tx_item
                  :: events_of (drain now idx iface rest w1)) in
        Forall (push_in_time now) (events_of r)
        /\ (exists dropped, tx_item :: rest = dropped ++ result_of r)
        /\ head_in_time now (result_of r)
        /\ (forall before e after,
               events_of r = before ++ e :: after -> is_busy e = true ->
               after = []
               /\ exists tx_item0 rest0,
                   result_of r = tx_item0 :: rest0
                   /\ e = push_event idx iface tx_item0 (Value false))).
      { intros a Ha. cbv zeta. unfold result_of, world_of, events_of in *.
        cbn [fst snd] in *. split; [|split; [|split]].
        - constructor; [exact Hearly|]. constructor; [exact I|exact Hpush].
        - exists (tx_item :: dropped). cbn. now rewrite <- Hdrop.
        - exact Hhead.
        - intros before e after Heq He.
          apply cons_eq_app in Heq as [(-> & <- & _)|(b1 & -> & Heq)];
            [congruence|].
          apply cons_eq_app in Heq as [(-> & <- & _)|(b2 & -> & Heq)];
            [discriminate|].
          exact (Hbusy b2 e after Heq He). }
      destruct answer as [[|]|err];
        [apply Hcont; reflexivity| |apply Hcont; reflexivity].
      unfold result_of, events_of. cbn [fst snd].
      split; [|split; [|split]].
      * constructor; [exact Hearly|constructor].
      * exists []. reflexivity.
      * exact Hearly.
      * intros before e after Heq He.
        apply cons_eq_app in Heq as [(-> & <- & <-)|(b1 & -> & Heq)].
        -- split; [reflexivity|]. exists tx_item, rest. auto.
        -- destruct b1; discriminate.
    + rewrite (drain_expired now idx iface tx_item rest w Hlate).
      destruct (IH w) as (Hpush & [dropped Hdrop] & Hhead & Hbusy).
      unfold result_of, world_of, events_of in *. cbn [fst snd] in *.
      split; [|split; [|split]].
      * constructor; [exact I|exact Hpush].
      * exists (tx_item :: dropped). cbn. now rewrite <- Hdrop.
      * exact Hhead.
      * intros before e after Heq He.
        apply cons_eq_app in Heq as [(-> & <- & _)|(b1 & -> & Heq)];
          [discriminate|].
        exact (Hbusy b1 e after Heq He).
Qed.


Lemma drain_media_spec (now : TimePoint) (m : Media) (w : World) :
  let d := drain now (index m) (interface m) (tx_items (canard_tx_queue m)) w in
  drain_media now m w
  = (set_canard_tx_queue m (set_tx_items (canard_tx_queue m) (result_of d)),
     world_of d, events_of d).
Proof.
  cbv zeta. unfold drain_media. run_eff.
  destruct (drain now (index m) (interface m) (tx_items (canard_tx_queue m)) w)
    as [[q w'] ev].
  cbn. now rewrite app_nil_r.
Qed.

Lemma loop_cons (now : TimePoint) (m : Media) (rest : list Media) (w : World) :
  let rm := drain_media now m w in
  let rr := runMediaTransmit_loop now rest (world_of rm) in
  runMediaTransmit_loop now (m :: rest) w
  = (result_of rm :: result_of rr, world_of rr, events_of rm ++ events_of rr).
Proof.
  cbv zeta. cbn [runMediaTransmit_loop]. run_eff.
  destruct (drain_media now m w) as [[m' w1] e1]. cbn [fst snd].
  destruct (runMediaTransmit_loop now rest w1) as [[rest' w2] e2].
  cbn. now rewrite app_nil_r.
Qed.

(** The loop over the media array runs the media one after the other,
    each from the world its predecessor left. *)
Lemma loop_app (now : TimePoint) (l1 l2 : list Media) (w : World) :
  let r1 := runMediaTransmit_loop now l1 w in
  let r2 := runMediaTransmit_loop now l2 (world_of r1) in
  runMediaTransmit_loop now (l1 ++ l2) w
  = (result_of r1 ++ result_of r2, world_of r2, events_of r1 ++ events_of r2).
Proof.
  cbv zeta. revert w. induction l1 as [|m rest IH]; intros w.
  - cbn. now destruct (runMediaTransmit_loop now l2 w) as [[q w'] ev].
  - cbn [app]. rewrite !loop_cons. cbv zeta.
    rewrite IH. unfold result_of, world_of, events_of. cbn [fst snd].
    now rewrite app_assoc.
Qed.

Lemma loop_spec (now : TimePoint) (media : list Media) (w : World) :
  let r := runMediaTransmit_loop now media w in
  Forall (push_in_time now) (events_of r)
  /\ Forall (fun m => head_in_time now (tx_items (canard_tx_queue m)))
            (result_of r)
  /\ map index (result_of r) = map index media
  /\ map interface (result_of r) = map interface media.
Proof.
  cbv zeta. revert w. induction media as [|m rest IH]; intros w.
  - cbn. repeat split; constructor.
  - rewrite loop_cons. cbv zeta. rewrite drain_media_spec. cbv zeta.
    unfold result_of, world_of, events_of. cbn [fst snd].
    destruct (drain_spec now (index m) (interface m)
                         (tx_items (canard_tx_queue m)) w)
      as (Hpush & _ & Hhead & _).
    match goal with
    | |- context [runMediaTransmit_loop now rest ?w1] =>
        destruct (IH w1) as (Hp & Hh & Hi & Hf)
    end.
    unfold result_of, world_of, events_of in *.
    split; [apply Forall_app; split; assumption|].
    split; [constructor; assumption|].
    split; cbn; congruence.
Qed.

End Transmit.

Section Run.

Context {World : Type}.
Context {media_interface : IMedia World}.
Context {canard : Canard World}.
Context {memory : MemoryResource World}.

Lemma bind_result_of {A B} (c : M World Event A) (k : A -> M World Event B)
      (w : World) :
  result_of (bind c k w) = result_of (k (result_of (c w)) (world_of (c w))).
Proof.
  unfold bind, result_of, world_of. destruct (c w) as [[a w1] e1].
  cbn. now destruct (k a w1) as [[b w2] e2].
Qed.

Lemma bind_world_of {A B} (c : M World Event A) (k : A -> M World Event B)
      (w : World) :
  world_of (bind c k w) = world_of (k (result_of (c w)) (world_of (c w))).
Proof.
  unfold bind, result_of, world_of. destruct (c w) as [[a w1] e1].
  cbn. now destruct (k a w1) as [[b w2] e2].
Qed.

Lemma bind_events_of {A B} (c : M World Event A) (k : A -> M World Event B)
      (w : World) :
  events_of (bind c k w)
  = events_of (c w) ++ events_of (k (result_of (c w)) (world_of (c w))).
Proof.
  unfold bind, result_of, world_of, events_of. destruct (c w) as [[a w1] e1].
  cbn. now destruct (k a w1) as [[b w2] e2].
Qed.

Lemma quiet_in_time (now : TimePoint) (ev : list Event) :
  quiet ev -> Forall (push_in_time now) ev.
Proof.
  apply Forall_impl. intros [ | | | | | ]; cbn; intros; auto; discriminate.
Qed.

Lemma deliver_quiet (ref : SessionRef) (transfer : CanardRxTransfer)
      (l : list RxSession) (w : World) :
  quiet (events_of (deliver ref transfer l w)).
Proof.
  induction l as [|s rest IH]; cbn [deliver]; [constructor|].
  destruct (session_ref s =? ref)%nat.
  - unfold acceptRxTransfer. destruct (on_receive_cb_fn s); run_eff;
      repeat constructor.
  - run_eff. destruct (deliver ref transfer rest w) as [[q w'] ev].
    cbn in *. rewrite app_nil_r. exact IH.
Qed.

(** Receiving touches the sessions only, and pushes nothing. *)
Lemma receive_media_frame (m : Media) (t : TransportImpl) (w : World) :
  let r := receive_media m t w in
  canard_instance (result_of r) = canard_instance t
  /\ media_array (result_of r) = media_array t
  /\ should_reconfigure_filters (result_of r) = should_reconfigure_filters t
  /\ total_message_ports (result_of r) = total_message_ports t
  /\ total_service_ports (result_of r) = total_service_ports t
  /\ quiet (events_of r).
Proof.
  cbv zeta. unfold receive_media, call_pop. run_eff.
  destruct (pop (interface m) w) as [pop_result w1].
  assert (Hpop : quiet [EvMediaPop (index m) (interface m)])
    by (repeat constructor).
  destruct pop_result as [[[rx_meta buffer]|]|err]; cbn;
    try (repeat split; auto; fail).
  destruct (canardRxAccept _ _ _ _ w1) as [[[result out] [k port]] w2].
  cbn. destruct (0 <? result); cbn; try (repeat split; auto; fail).
  destruct (tree_search port (rx_subscriptions (canard_instance t) k));
    cbn; try (repeat split; auto; fail).
  pose proof (deliver_quiet (user_reference c) out (rx_sessions t) w2) as Hq.
  destruct (deliver (user_reference c) out (rx_sessions t) w2)
    as [[sessions w3] ev].
  cbn in *. rewrite app_nil_r. repeat split; auto.
  constructor; [reflexivity|exact Hq].
Qed.

Lemma runMediaReceive_loop_frame (media : list Media) (t : TransportImpl)
      (w : World) :
  let r := runMediaReceive_loop media t w in
  canard_instance (result_of r) = canard_instance t
  /\ media_array (result_of r) = media_array t
  /\ should_reconfigure_filters (result_of r) = should_reconfigure_filters t
  /\ total_message_ports (result_of r) = total_message_ports t
  /\ total_service_ports (result_of r) = total_service_ports t
  /\ quiet (events_of r).
Proof.
  cbv zeta. revert t w. induction media as [|m rest IH]; intros t w.
  - cbn. repeat split; constructor.
  - cbn [runMediaReceive_loop].
    pose proof (receive_media_frame m t w) as Hm. cbv zeta in Hm.
    run_eff. destruct (receive_media m t w) as [[t1 w1] e1].
    cbn [fst snd] in *. specialize (IH t1 w1).
    destruct (runMediaReceive_loop rest t1 w1) as [[t2 w2] e2].
    cbn [fst snd] in *.
    destruct Hm as (H1 & H2 & H3 & H4 & H5 & H6).
    destruct IH as (I1 & I2 & I3 & I4 & I5 & I6).
    repeat split; try congruence. apply Forall_app. split; assumption.
Qed.

Lemma setFilters_loop_quiet (media : list Media) (filters : list Filter)
      (was_error : bool) (w : World) :
  quiet (events_of (setFilters_loop media filters was_error w)).
Proof.
  revert was_error w. induction media as [|m rest IH]; intros was_error w.
  - constructor.
  - cbn [setFilters_loop]. unfold call_setFilters. run_eff.
    destruct (setFilters (interface m) filters w) as [maybe_error w1].
    cbn [fst snd].
    match goal with
    | |- context [setFilters_loop rest filters ?b w1] =>
        specialize (IH b w1);
        destruct (setFilters_loop rest filters b w1) as [[x w2] e2]
    end.
    cbn in *. constructor; [reflexivity|exact IH].
Qed.

(** Reconfiguring the filters touches the flag only, and pushes nothing. *)
Lemma runMediaFilters_frame (t : TransportImpl) (w : World) :
  let r := runMediaFilters t w in
  canard_instance (result_of r) = canard_instance t
  /\ media_array (result_of r) = media_array t
  /\ rx_sessions (result_of r) = rx_sessions t
  /\ quiet (events_of r).
Proof.
  cbv zeta. unfold runMediaFilters.
  destruct (should_reconfigure_filters t); cbn [negb];
    [|cbn; repeat split; constructor].
  run_eff.
  match goal with
  | |- context [(0 <? ?n)%nat] => destruct (0 <? n)%nat
  end.
  - match goal with
    | |- context [allocate ?rq w] =>
        destruct (allocate rq w) as [reserved w1]
    end; cbn [fst snd].
    destruct reserved; [|cbn; repeat split; constructor].
    match goal with
    | |- context [setFilters_loop ?m ?f ?b ?w0] =>
        pose proof (setFilters_loop_quiet m f b w0) as Hq;
        destruct (setFilters_loop m f b w0) as [[was_error w2] e2]
    end.
    cbn in *. rewrite !app_nil_r.
    destruct was_error; cbn; repeat split; auto.
  - match goal with
    | |- context [setFilters_loop ?m ?f ?b ?w0] =>
        pose proof (setFilters_loop_quiet m f b w0) as Hq;
        destruct (setFilters_loop m f b w0) as [[was_error w2] e2]
    end.
    cbn in *. rewrite !app_nil_r.
    destruct was_error; cbn; repeat split; auto.
Qed.

Lemma runMediaTransmit_spec (now : TimePoint) (t : TransportImpl) (w : World) :
  let d := runMediaTransmit_loop now (media_array t) w in
  runMediaTransmit now t w
  = (set_media_array t (result_of d), world_of d, events_of d).
Proof.
  cbv zeta. unfold runMediaTransmit. run_eff.
  destruct (runMediaTransmit_loop now (media_array t) w) as [[media w1] e1].
  cbn. now rewrite app_nil_r.
Qed.

Lemma run_unfold (now : TimePoint) (t : TransportImpl) (w : World) :
  let r1 := runMediaTransmit now t w in
  let r2 := runMediaReceive (result_of r1) (world_of r1) in
  let r3 := runMediaFilters (result_of r2) (world_of r2) in
  run now t w
  = (result_of r3, world_of r3, events_of r1 ++ events_of r2 ++ events_of r3).
Proof.
  cbv zeta. unfold run. run_eff.
  destruct (runMediaTransmit now t w) as [[t1 w1] e1]. cbn [fst snd].
  destruct (runMediaReceive t1 w1) as [[t2 w2] e2]. cbn [fst snd].
  destruct (runMediaFilters t2 w2) as [[t3 w3] e3]. reflexivity.
Qed.

(** A run: the media are drained, then frames are received and the
    filters reconfigured, which pushes nothing and leaves the queues. *)
Lemma run_spec (now : TimePoint) (t : TransportImpl) (w : World) :
  let d := runMediaTransmit_loop now (media_array t) w in
  media_array (result_of (run now t w)) = result_of d
  /\ canard_instance (result_of (run now t w)) = canard_instance t
  /\ exists others,
      events_of (run now t w) = events_of d ++ others /\ quiet others.
Proof.
  cbv zeta. rewrite run_unfold. cbv zeta.
  rewrite runMediaTransmit_spec. cbv zeta.
  set (d := runMediaTransmit_loop now (media_array t) w).
  change (result_of (set_media_array t (result_of d), world_of d, events_of d))
    with (set_media_array t (result_of d)).
  change (world_of (set_media_array t (result_of d), world_of d, events_of d))
    with (world_of d).
  change (events_of (set_media_array t (result_of d), world_of d, events_of d))
    with (events_of d).
  set (t1 := set_media_array t (result_of d)).
  unfold runMediaReceive.
  pose proof (runMediaReceive_loop_frame (media_array t1) t1 (world_of d))
    as Hr.
  cbv zeta in Hr.
  set (r := runMediaReceive_loop (media_array t1) t1 (world_of d)) in *.
  pose proof (runMediaFilters_frame (result_of r) (world_of r)) as Hf.
  cbv zeta in Hf.
  destruct Hr as (R1 & R2 & _ & _ & _ & R6).
  destruct Hf as (F1 & F2 & _ & F4).
  unfold result_of, world_of, events_of in *. cbn [fst snd] in *.
  split; [now rewrite F2, R2|]. split; [now rewrite F1, R1|].
  eexists. split; [reflexivity|].
  apply Forall_app. split; assumption.
Qed.

End Run.

Section Draining.

Context {World : Type}.
Context {media_interface : IMedia World}.
Context {canard : Canard World}.
Context {memory : MemoryResource World}.

Lemma quiet_no_push (ev : list Event) : quiet ev -> filter is_push ev = [].
Proof.
  induction 1 as [|e rest He _ IH]; [reflexivity|].
  cbn. now rewrite He.
Qed.

(** Every push of a drain is the push of an item of the queue, in time. *)
Lemma drain_pushes (now : TimePoint) (idx : Z) (iface : IMediaRef)
      (items : list CanardTxQueueItem) (w : World) :
  Forall (fun e =>
            is_push e = true ->
            exists tx_item answer,
              In tx_item items
              /\ now < deadline_of tx_item
              /\ e = push_event idx iface tx_item answer)
         (events_of (drain now idx iface items w)).
Proof.
  revert w. induction items as [|tx_item rest IH]; intros w; [constructor|].
  assert (Hrest : forall w1,
             Forall (fun e =>
                       is_push e = true ->
                       exists tx_item0 answer,
                         In tx_item0 (tx_item :: rest)
                         /\ now < deadline_of tx_item0
                         /\ e = push_event idx iface tx_item0 answer)
                    (events_of (drain now idx iface rest w1))).
  { intros w1. specialize (IH w1). revert IH. apply Forall_impl.
    intros e He Hpush. destruct (He Hpush) as (i & a & Hin & Hlt & Heq).
    exists i, a. cbn. auto. }
  destruct (Z.ltb_spec now (deadline_of tx_item)) as [Hearly|Hlate].
  - rewrite (drain_in_time now idx iface tx_item rest w Hearly). cbv zeta.
    destruct (push iface (deadline_of tx_item)
                   (extended_can_id (frame tx_item))
                   (payload (frame tx_item)) w) as [answer w1].
    cbn [fst snd].
    assert (Hhead : forall a,
               is_push (push_event idx iface tx_item a) = true ->
               exists tx_item0 answer0,
                 In tx_item0 (tx_item :: rest)
                 /\ now < deadline_of tx_item0
                 /\ push_event idx iface tx_item a
                    = push_event idx iface tx_item0 answer0).
    { intros a _. exists tx_item, a. cbn. auto. }
    destruct answer as [[|]|err]; unfold events_of; cbn [snd];
      constructor; try apply Hhead; try constructor;
      try discriminate; try apply Hrest.
  - rewrite (drain_expired now idx iface tx_item rest w Hlate).
    unfold events_of at 1. cbn [snd].
    constructor; [discriminate|apply Hrest].
Qed.

Lemma loop_pushes (now : TimePoint) (media : list Media) (w : World) :
  Forall (pushes_queued_in_time now media)
         (events_of (runMediaTransmit_loop now media w)).
Proof.
  revert w. induction media as [|m rest IH]; intros w; [constructor|].
  rewrite loop_cons. cbv zeta. unfold events_of at 1. cbn [snd].
  apply Forall_app. split.
  - rewrite drain_media_spec. cbv zeta. unfold events_of at 1. cbn [snd].
    pose proof (drain_pushes now (index m) (interface m)
                             (tx_items (canard_tx_queue m)) w) as H.
    revert H. apply Forall_impl. intros e He Hpush.
    destruct (He Hpush) as (i & a & Hin & Hlt & Heq).
    exists m, i, a. cbn. auto.
  - match goal with
    | |- Forall _ (events_of (runMediaTransmit_loop now rest ?w1)) =>
        specialize (IH w1)
    end.
    revert IH. apply Forall_impl. intros e He Hpush.
    destruct (He Hpush) as (m0 & i & a & Hm & Hin & Hlt & Heq).
    exists m0, i, a. cbn. auto.
Qed.

Lemma quiet_pushes (now : TimePoint) (media : list Media) (ev : list Event) :
  quiet ev -> Forall (pushes_queued_in_time now media) ev.
Proof.
  apply Forall_impl. intros e He Hpush. congruence.
Qed.

(** C1: during [run(now)] every push to a media is for a frame whose
    deadline is strictly later than [now], and it is the push of a frame
    queued for that media; an expired frame on top of a queue is popped
    and freed without the media being called, and the drain goes on with
    the next frame; after the run no expired frame is on top of any
    queue. *)
Theorem expired_frames_are_dropped
        (now : TimePoint) (t : TransportImpl) (w : World) :
  Forall (push_in_time now) (events_of (run now t w))
  /\ Forall (pushes_queued_in_time now (media_array t))
            (events_of (run now t w))
  /\ Forall (fun m => head_in_time now (tx_items (canard_tx_queue m)))
            (media_array (result_of (run now t w)))
  /\ (forall idx iface tx_item rest w0,
         now >= deadline_of tx_item ->
         drain now idx iface (tx_item :: rest) w0
         = (result_of (drain now idx iface rest w0),
            world_of (drain now idx iface rest w0),
            EvFreeTxItem idx tx_item
            :: events_of (drain now idx iface rest w0))).
Proof.
  destruct (run_spec now t w) as (Hmedia & _ & others & Hev & Hquiet).
  destruct (loop_spec now (media_array t) w) as (Hpush & Hhead & _).
  split; [|split; [|split]].
  - rewrite Hev. apply Forall_app. split; [exact Hpush|].
    now apply quiet_in_time.
  - rewrite Hev. apply Forall_app. split; [apply loop_pushes|].
    now apply quiet_pushes.
  - rewrite Hmedia. exact Hhead.
  - intros idx iface tx_item rest w0 Hlate. apply drain_expired. lia.
Qed.

(** C2: the media are drained one after the other, each whatever the
    others answered. When a push to a media is answered busy, it is the
    last thing that happens to this media in the tick: the frame is not
    popped, it is on top of the queue after the run, and a later drain
    that finds it in time starts by pushing this very frame again. *)
Theorem busy_media_is_retried
        (now : TimePoint) (t : TransportImpl) (w : World)
        (pre post : list Media) (m : Media) :
  media_array t = pre ++ m :: post ->
  let r_pre := runMediaTransmit_loop now pre w in
  let r_m := drain_media now m (world_of r_pre) in
  let r_post := runMediaTransmit_loop now post (world_of r_m) in
  media_array (result_of (run now t w))
  = result_of r_pre ++ result_of r_m :: result_of r_post
  /\ filter is_push (events_of (run now t w))
     = filter is_push (events_of r_pre ++ events_of r_m ++ events_of r_post)
  /\ (forall before e after,
         events_of r_m = before ++ e :: after -> is_busy e = true ->
         after = []
         /\ exists tx_item rest,
             tx_items (canard_tx_queue (result_of r_m)) = tx_item :: rest
             /\ e = push_event (index m) (interface m) tx_item (Value false)
             /\ (exists dropped,
                    tx_items (canard_tx_queue m) = dropped ++ tx_item :: rest)
             /\ forall now' w',
                 now' < deadline_of tx_item ->
                 exists answer tail,
                   events_of (drain_media now' (result_of r_m) w')
                   = push_event (index m) (interface m) tx_item answer
                     :: tail).
Proof.
  intros Harray. cbv zeta.
  destruct (run_spec now t w) as (Hmedia & _ & others & Hev & Hquiet).
  rewrite Harray in *.
  rewrite (loop_app now pre (m :: post) w) in Hmedia, Hev. cbv zeta in *.
  rewrite (loop_cons now m post) in Hmedia, Hev. cbv zeta in *.
  unfold result_of, events_of in Hmedia, Hev. cbn [fst snd] in *.
  split; [exact Hmedia|]. split.
  { unfold events_of. rewrite Hev, filter_app.
    rewrite (quiet_no_push _ Hquiet). now rewrite app_nil_r. }
  intros before e after Hsplit Hbusy.
  rewrite drain_media_spec in *. cbv zeta in *.
  unfold result_of at 1, events_of at 1 in Hsplit. cbn [fst snd] in Hsplit.
  match type of Hsplit with
  | events_of (drain now ?i ?f ?q ?w0) = _ =>
      destruct (drain_spec now i f q w0)
        as (_ & [dropped Hdrop] & _ & Hlast)
  end.
  destruct (Hlast before e after Hsplit Hbusy)
    as (Hafter & tx_item & rest & Hq & He).
  split; [exact Hafter|]. exists tx_item, rest.
  unfold result_of at 1. cbn [fst snd canard_tx_queue set_canard_tx_queue
                               tx_items set_tx_items].
  split; [exact Hq|]. split; [exact He|].
  split; [exists dropped; now rewrite <- Hq|].
  intros now' w' Hearly.
  rewrite drain_media_spec. cbv zeta.
  unfold result_of at 2, events_of at 1.
  cbn [fst snd canard_tx_queue set_canard_tx_queue tx_items set_tx_items
       index interface].
  rewrite Hq.
  rewrite (drain_in_time now' (index m) (interface m) tx_item rest w' Hearly).
  cbv zeta.
  destruct (push (interface m) (deadline_of tx_item)
                 (extended_can_id (frame tx_item))
                 (payload (frame tx_item)) w') as [answer w1].
  cbn [fst snd]. exists answer.
  destruct answer as [[|]|err]; cbn [events_of snd]; eauto.
Qed.

End Draining.

Section Sending.

Context {World : Type}.
Context {media_interface : IMedia World}.
Context {canard : Canard World}.
Context {memory : MemoryResource World}.

Lemma find_app {A} (f : A -> bool) (l1 l2 : list A) :
  find f (l1 ++ l2)
  = match find f l1 with Some x => Some x | None => find f l2 end.
Proof.
  induction l1 as [|x rest IH]; [reflexivity|].
  cbn. now destruct (f x).
Qed.

(** The last failure of a list of results is that of its tail, or else
    the head if it failed. *)
Lemma error_of_last_failure_cons (r : Z) (rest : list Z) :
  error_of_last_failure (r :: rest)
  = match error_of_last_failure rest with
    | Some e => Some e
    | None => if r <? 0 then Some (anyErrorFromCanard r) else None
    end.
Proof.
  unfold error_of_last_failure. cbn [rev]. rewrite find_app.
  destruct (find (fun r0 => r0 <? 0) (rev rest)); [reflexivity|].
  cbn. now destruct (r <? 0).
Qed.

Lemma sendTransfer_loop_spec (media : list Media) (ins : CanardInstance)
      (deadline_usec : Z) (metadata : CanardTransferMetadata)
      (bytes : list Byte.byte) (maybe_error : option AnyError) (w : World) :
  let r := sendTransfer_loop media ins deadline_usec metadata bytes
                             maybe_error w in
  let calls := canardTxPush_results (events_of r) in
  map fst calls = map index media
  /\ length (events_of r) = length media
  /\ Forall (fun e => exists i res,
                 e = EvCanardTxPush i deadline_usec metadata bytes res)
            (events_of r)
  /\ fst (result_of r)
     = match error_of_last_failure (map snd calls) with
       | Some e => Some e
       | None => maybe_error
       end
  /\ map index (snd (result_of r)) = map index media
  /\ map interface (snd (result_of r)) = map interface media.
Proof.
  cbv zeta. revert maybe_error w.
  induction media as [|m rest IH]; intros maybe_error w.
  - cbn. repeat split; constructor.
  - cbn [sendTransfer_loop]. unfold call_getMtu, call_canardTxPush. run_eff.
    destruct (canardTxPush (set_mtu_bytes (canard_tx_queue m)
                                          (getMtu (interface m) w))
                           ins deadline_usec metadata bytes w)
      as [[result q] w1].
    cbn [fst snd].
    match goal with
    | |- context [sendTransfer_loop rest ins deadline_usec metadata bytes
                                    ?acc w1] =>
        specialize (IH acc w1);
        destruct (sendTransfer_loop rest ins deadline_usec metadata bytes
                                    acc w1) as [[[e l] w2] ev]
    end.
    run_eff. destruct IH as (I1 & I2 & I3 & I4 & I5 & I6).
    rewrite app_nil_r. cbn [app canardTxPush_results flat_map map length].
    fold (canardTxPush_results ev).
    split; [cbn; now rewrite I1|].
    split; [now rewrite I2|].
    split; [constructor; [eauto|exact I3]|].
    split.
    + rewrite error_of_last_failure_cons, I4.
      destruct (error_of_last_failure _); [reflexivity|].
      cbn [snd]. now destruct (result <? 0).
    + split; cbn; congruence.
Qed.


Lemma concat_no_fragment (l : list (list Byte.byte)) :
  filter (fun f => negb (is_empty_fragment f)) l = [] -> concat l = [].
Proof.
  induction l as [|[|b f] rest IH]; cbn; [reflexivity|exact IH|discriminate].
Qed.

Lemma concat_single_fragment (l : list (list Byte.byte)) (f : list Byte.byte) :
  filter (fun f => negb (is_empty_fragment f)) l = [f] -> concat l = f.
Proof.
  induction l as [|[|b g] rest IH]; cbn; [discriminate|exact IH|].
  intros H. injection H as <- Hrest.
  rewrite (concat_no_fragment rest Hrest). now rewrite app_nil_r.
Qed.

Lemma concat_two_fragments (l : list (list Byte.byte))
      (f g : list Byte.byte) (more : list (list Byte.byte)) :
  filter (fun f => negb (is_empty_fragment f)) l = f :: g :: more ->
  (0 < length (concat l))%nat.
Proof.
  induction l as [|[|b h] rest IH]; cbn; [discriminate|exact IH|].
  intros _. lia.
Qed.

(** The coalesced payload: its bytes are those of the fragments in their
    order, unless the buffer was refused; nothing is logged. *)
Lemma ContiguousPayload_new_spec (payload_fragments : list (list Byte.byte))
      (w : World) :
  let r := ContiguousPayload_new payload_fragments w in
  events_of r = []
  /\ if out_of_payload_memory payload_fragments w
     then data (result_of r) = None
          /\ (0 <? size (result_of r))%nat = true
          /\ allocated (result_of r) = false
     else bytes_of (result_of r) = concat payload_fragments
          /\ (data (result_of r) = None -> size (result_of r) = 0%nat).
Proof.
  cbv zeta. unfold ContiguousPayload_new, out_of_payload_memory.
  destruct (filter (fun f => negb (is_empty_fragment f)) payload_fragments)
    as [|f [|g more]] eqn:Hfilter.
  - cbn. now rewrite (concat_no_fragment _ Hfilter).
  - cbn. rewrite (concat_single_fragment _ _ Hfilter).
    split; [reflexivity|]. split; [reflexivity|discriminate].
  - run_eff.
    destruct (allocate (AllocPayload (length (concat payload_fragments))) w)
      as [obtained w1].
    cbn [fst snd]. destruct obtained; cbn.
    { split; [reflexivity|]. split; [reflexivity|discriminate]. }
    split; [reflexivity|]. split; [reflexivity|]. split; [|reflexivity].
    pose proof (concat_two_fragments _ _ _ _ Hfilter) as Hpos.
    destruct (length (concat payload_fragments)); [lia|reflexivity].
Qed.


Lemma ContiguousPayload_delete_quiet (p : ContiguousPayload) (w : World) :
  events_of (ContiguousPayload_delete p w) = [].
Proof.
  unfold ContiguousPayload_delete. destruct (allocated p); reflexivity.
Qed.

(** [sendTransfer], by its two cases. *)
Lemma sendTransfer_cases
      (deadline : TimePoint) (metadata : CanardTransferMetadata)
      (payload_fragments : list (list Byte.byte)) (t : TransportImpl)
      (w : World) :
  let c := ContiguousPayload_new payload_fragments w in
  let l := sendTransfer_loop (media_array t) (canard_instance t)
                             (to_uint64 deadline) metadata
                             (concat payload_fragments) None (world_of c) in
  sendTransfer deadline metadata payload_fragments t w
  = if out_of_payload_memory payload_fragments w
    then (Some MemoryError, t, world_of c, [])
    else (fst (result_of l), set_media_array t (snd (result_of l)),
          world_of (ContiguousPayload_delete (result_of c) (world_of l)),
          events_of l).
Proof.
  cbv zeta. unfold sendTransfer.
  pose proof (ContiguousPayload_new_spec payload_fragments w) as Hnew.
  cbv zeta in Hnew. unfold bind at 1.
  destruct (ContiguousPayload_new payload_fragments w) as [[c w1] e0].
  unfold result_of, world_of, events_of in *. cbn [fst snd] in *.
  destruct Hnew as [-> Hnew].
  destruct (out_of_payload_memory payload_fragments w).
  - destruct Hnew as (Hdata & Hsize & _). rewrite Hdata, Hsize.
    reflexivity.
  - destruct Hnew as [Hbytes Hempty].
    assert (Hgo :
      match data c, (0 <? size c)%nat with
      | None, true => ret (Some MemoryError, t)
      | _, _ =>
          (x <- sendTransfer_loop (media_array t) (canard_instance t)
                                  (to_uint64 deadline) metadata
                                  (bytes_of c) None ;;
           ContiguousPayload_delete c ;;;
           ret (fst x, set_media_array t (snd x)))%eff
      end
      = (x <- sendTransfer_loop (media_array t) (canard_instance t)
                                (to_uint64 deadline) metadata
                                (bytes_of c) None ;;
         ContiguousPayload_delete c ;;;
         ret (fst x, set_media_array t (snd x)))%eff).
    { destruct (data c); [reflexivity|].
      rewrite (Hempty eq_refl). reflexivity. }
    rewrite Hgo. clear Hgo. rewrite Hbytes. run_eff.
    destruct (sendTransfer_loop (media_array t) (canard_instance t)
                                (to_uint64 deadline) metadata
                                (concat payload_fragments) None w1)
      as [[x w2] ev].
    cbn [fst snd].
    pose proof (ContiguousPayload_delete_quiet c w2) as Hdel.
    unfold events_of in Hdel.
    destruct (ContiguousPayload_delete c w2) as [[u w3] e3].
    cbn [fst snd] in *. subst e3. cbn [app]. now rewrite app_nil_r.
Qed.

(** C3, amended: when the payload cannot be coalesced for lack of memory,
    [sendTransfer] returns the memory error and no media is attempted;
    in every other case the codec is asked to fragment and enqueue
    exactly once for every media of the array, in its order, with the
    deadline, the metadata and the whole payload, whatever the earlier
    media answered, and the value returned is the error of the last
    media whose enqueue failed, or none when no enqueue failed. *)
Theorem sendTransfer_attempts_every_media
        (deadline : TimePoint) (metadata : CanardTransferMetadata)
        (payload_fragments : list (list Byte.byte)) (t : TransportImpl)
        (w : World) :
  let r := sendTransfer deadline metadata payload_fragments t w in
  let calls := canardTxPush_results (events_of r) in
  if out_of_payload_memory payload_fragments w
  then result_of r = (Some MemoryError, t) /\ events_of r = []
  else map fst calls = map index (media_array t)
       /\ length (events_of r) = length (media_array t)
       /\ Forall (fun e => exists i res,
                      e = EvCanardTxPush i (to_uint64 deadline) metadata
                                         (concat payload_fragments) res)
                 (events_of r)
       /\ fst (result_of r) = error_of_last_failure (map snd calls).
Proof.
  cbv zeta. rewrite sendTransfer_cases. cbv zeta.
  destruct (out_of_payload_memory payload_fragments w); [split; reflexivity|].
  match goal with
  | |- context [sendTransfer_loop ?m ?i ?d ?md ?b ?acc ?w1] =>
      pose proof (sendTransfer_loop_spec m i d md b acc w1) as Hloop
  end.
  cbv zeta in Hloop. destruct Hloop as (L1 & L2 & L3 & L4 & _).
  unfold result_of at 1, events_of at 1 2 3 4. cbn [fst snd].
  repeat split; try assumption.
  rewrite L4. now destruct (error_of_last_failure _).
Qed.

End Sending.

Section Subscriptions.

Context {World : Type}.
Context {media_interface : IMedia World}.
Context {canard : Canard World}.
Context {memory : MemoryResource World}.

Local Abbreviation before := (fun a b => sub_port_id a < sub_port_id b).

Lemma tree_sorted_inv (s : CanardRxSubscription)
      (tree : list CanardRxSubscription) :
  tree_sorted (s :: tree) ->
  tree_sorted tree /\ Forall (before s) tree.
Proof. intros H. inversion H; subst. auto. Qed.

(** In a sorted tree a key is found at most once. *)
Lemma tree_sorted_unique (port : PortId) (tree : list CanardRxSubscription) :
  tree_sorted tree ->
  (length (filter (fun s => (sub_port_id s =? port)%Z) tree) <= 1)%nat.
Proof.
  induction tree as [|s rest IH]; intros Hsorted; [cbn; lia|].
  apply tree_sorted_inv in Hsorted as [Hrest Hall]. cbn [filter].
  destruct (Z.eqb_spec (sub_port_id s) port) as [Heq|Hne]; [|auto].
  assert (Hnone : filter (fun x => sub_port_id x =? port) rest = []).
  { clear IH Hrest. induction rest as [|x rest IH]; [reflexivity|].
    inversion Hall as [|? ? Hx Hr]; subst. cbn [filter].
    destruct (Z.eqb_spec (sub_port_id x) (sub_port_id s)); [lia|auto]. }
  rewrite Hnone. cbn. lia.
Qed.

Lemma tree_search_filter (port : PortId) (tree : list CanardRxSubscription) :
  tree_search port tree = None
  <-> filter (fun s => sub_port_id s =? port) tree = [].
Proof.
  induction tree as [|s rest IH]; cbn; [tauto|].
  destruct (sub_port_id s =? port); [split; discriminate|exact IH].
Qed.

Lemma tree_remove_in (port : PortId) (tree : list CanardRxSubscription)
      (x : CanardRxSubscription) :
  In x (tree_remove port tree) -> In x tree.
Proof.
  induction tree as [|s rest IH]; cbn; [auto|].
  destruct (sub_port_id s =? port); cbn; intuition.
Qed.

Lemma tree_remove_sorted (port : PortId) (tree : list CanardRxSubscription) :
  tree_sorted tree -> tree_sorted (tree_remove port tree).
Proof.
  induction tree as [|s rest IH]; intros Hsorted; [exact Hsorted|].
  apply tree_sorted_inv in Hsorted as [Hrest Hall]. cbn.
  destruct (sub_port_id s =? port); [exact Hrest|].
  constructor; [apply IH; exact Hrest|].
  apply Forall_forall. intros x Hx. apply tree_remove_in in Hx.
  revert x Hx. now apply Forall_forall.
Qed.

Lemma tree_insert_in (s x : CanardRxSubscription)
      (tree : list CanardRxSubscription) :
  In x (tree_insert s tree) -> x = s \/ In x tree.
Proof.
  induction tree as [|y rest IH]; cbn; [intuition|].
  destruct (sub_port_id s <? sub_port_id y); cbn; [intuition|].
  destruct (sub_port_id s =? sub_port_id y); cbn; intuition.
Qed.

Lemma tree_insert_sorted (s : CanardRxSubscription)
      (tree : list CanardRxSubscription) :
  tree_sorted tree -> tree_sorted (tree_insert s tree).
Proof.
  induction tree as [|y rest IH]; intros Hsorted.
  - cbn. repeat constructor.
  - pose proof Hsorted as Hcopy.
    apply tree_sorted_inv in Hcopy as [Hrest Hall]. cbn.
    destruct (Z.ltb_spec (sub_port_id s) (sub_port_id y)) as [Hlt|Hge].
    + constructor; [exact Hsorted|]. constructor; [exact Hlt|].
      revert Hall. apply Forall_impl. intros x Hx. cbn in *. lia.
    + destruct (Z.eqb_spec (sub_port_id s) (sub_port_id y)) as [Heq|Hne];
        [exact Hsorted|].
      constructor; [apply IH; exact Hrest|].
      apply Forall_forall. intros x Hx. apply tree_insert_in in Hx as [->|Hx].
      * cbn. lia.
      * revert x Hx. now apply Forall_forall.
Qed.

Lemma set_timeout_sorted (port : PortId) (timeout : Z)
      (tree : list CanardRxSubscription) :
  tree_sorted tree -> tree_sorted (set_timeout port timeout tree).
Proof.
  unfold set_timeout.
  induction tree as [|s rest IH]; intros Hsorted; [exact Hsorted|].
  apply tree_sorted_inv in Hsorted as [Hrest Hall]. cbn [map].
  constructor; [apply IH; exact Hrest|].
  apply Forall_forall. intros x Hx. apply in_map_iff in Hx as (y & <- & Hy).
  assert (Hlt : sub_port_id s < sub_port_id y)
    by (revert y Hy; now apply Forall_forall).
  destruct (sub_port_id s =? port), (sub_port_id y =? port); cbn; exact Hlt.
Qed.

Lemma rx_subscriptions_set_same (ins : CanardInstance)
      (k : CanardTransferKind) (l : list CanardRxSubscription) :
  rx_subscriptions (set_rx_subscriptions ins k l) k = l.
Proof. destruct k; reflexivity. Qed.

Lemma rx_subscriptions_set (ins : CanardInstance)
      (k k' : CanardTransferKind) (l : list CanardRxSubscription) :
  rx_subscriptions (set_rx_subscriptions ins k l) k'
  = if kind_eqb k k' then l else rx_subscriptions ins k'.
Proof. destruct k, k'; reflexivity. Qed.

Lemma set_rx_subscriptions_sorted (ins : CanardInstance)
      (k : CanardTransferKind) (l : list CanardRxSubscription) :
  instance_sorted ins -> tree_sorted l ->
  instance_sorted (set_rx_subscriptions ins k l).
Proof.
  intros Hins Hl k'. rewrite rx_subscriptions_set.
  destruct (kind_eqb k k'); auto.
Qed.

Lemma canardRxUnsubscribe_sorted (ins : CanardInstance)
      (k : CanardTransferKind) (port : PortId) :
  instance_sorted ins ->
  instance_sorted (snd (canardRxUnsubscribe ins k port)).
Proof.
  intros Hins. unfold canardRxUnsubscribe.
  destruct (tree_search port (rx_subscriptions ins k)); cbn [snd];
    [|exact Hins].
  apply set_rx_subscriptions_sorted; [exact Hins|].
  apply tree_remove_sorted, Hins.
Qed.

Lemma canardRxSubscribe_sorted (ins : CanardInstance)
      (k : CanardTransferKind) (s : CanardRxSubscription) :
  instance_sorted ins ->
  instance_sorted (snd (canardRxSubscribe ins k s)).
Proof.
  intros Hins. unfold canardRxSubscribe.
  pose proof (canardRxUnsubscribe_sorted ins k (sub_port_id s) Hins) as H1.
  destruct (canardRxUnsubscribe ins k (sub_port_id s)) as [removed ins1].
  cbn [snd] in *.
  apply set_rx_subscriptions_sorted; [exact H1|].
  apply tree_insert_sorted, H1.
Qed.


Lemma set_node_id_sorted (ins : CanardInstance) (n : Z) :
  instance_sorted ins -> instance_sorted (set_node_id ins n).
Proof.
  intros H k.
  destruct k;
    [apply (H CanardTransferKindMessage)
    |apply (H CanardTransferKindResponse)
    |apply (H CanardTransferKindRequest)].
Qed.

Lemma triggerUpdateOfFilters_instance (c : FiltersUpdateCondition)
      (t : TransportImpl) :
  canard_instance (triggerUpdateOfFilters c t) = canard_instance t.
Proof. destruct c; reflexivity. Qed.

(** A port that is subscribed is refused, and nothing changes. *)
Lemma makeRxSession_subscribed (k : CanardTransferKind) (params : RxParams)
      (t : TransportImpl) (w : World) :
  subscriptions_of t k (rx_port_id params) <> [] ->
  makeRxSession k params t w = (Failure AlreadyExistsError, t, w, []).
Proof.
  intros Hsub. unfold makeRxSession, ensureNewSessionFor,
                 canardRxGetSubscription.
  destruct (tree_search (rx_port_id params)
                        (rx_subscriptions (canard_instance t) k)) eqn:Hs.
  - reflexivity.
  - apply tree_search_filter in Hs. contradiction.
Qed.

Lemma makeRxSession_sorted (k : CanardTransferKind) (params : RxParams)
      (t : TransportImpl) (w : World) :
  subscriptions_sorted t ->
  subscriptions_sorted (snd (result_of (makeRxSession k params t w))).
Proof.
  intros Hsorted. unfold makeRxSession.
  destruct (ensureNewSessionFor k (rx_port_id params) t); [exact Hsorted|].
  unfold RxSession_make.
  destruct (port_id_max k <? rx_port_id params); [exact Hsorted|].
  run_eff. destruct (allocate AllocSession w) as [obtained w1].
  cbn [fst snd]. destruct obtained; [|exact Hsorted].
  unfold RxSession_new.
  match goal with
  | |- context [canardRxSubscribe ?ins ?kk ?s] =>
      pose proof (canardRxSubscribe_sorted ins kk s Hsorted) as Hsub;
      destruct (canardRxSubscribe ins kk s) as [code ins1]
  end.
  cbn [fst snd] in *. unfold subscriptions_sorted.
  now rewrite triggerUpdateOfFilters_instance.
Qed.

Lemma RxSession_delete_sorted (ref : SessionRef) (t : TransportImpl)
      (w : World) :
  subscriptions_sorted t ->
  subscriptions_sorted (result_of (RxSession_delete ref t w)).
Proof.
  intros Hsorted. unfold RxSession_delete.
  destruct (find_session ref (rx_sessions t)) as [s|]; [|exact Hsorted].
  match goal with
  | |- context [canardRxUnsubscribe ?ins ?kk ?p] =>
      pose proof (canardRxUnsubscribe_sorted ins kk p Hsorted) as Hsub;
      destruct (canardRxUnsubscribe ins kk p) as [code ins1]
  end.
  run_eff. unfold subscriptions_sorted.
  now rewrite triggerUpdateOfFilters_instance.
Qed.

Lemma setTransferIdTimeout_sorted (ref : SessionRef) (timeout : Z)
      (t : TransportImpl) :
  subscriptions_sorted t ->
  subscriptions_sorted (setTransferIdTimeout ref timeout t).
Proof.
  intros Hsorted. unfold setTransferIdTimeout.
  destruct (find_session ref (rx_sessions t)) as [s|]; [|exact Hsorted].
  destruct (0 <=? timeout); [|exact Hsorted].
  apply set_rx_subscriptions_sorted; [exact Hsorted|].
  apply set_timeout_sorted, Hsorted.
Qed.

Lemma makeTxSession_unchanged (k : CanardTransferKind) (port : PortId)
      (t : TransportImpl) (w : World) :
  snd (result_of (makeTxSession k port t w)) = t.
Proof.
  unfold makeTxSession. destruct (port_id_max k <? port); [reflexivity|].
  run_eff. destruct (allocate AllocSession w) as [obtained w1].
  now destruct obtained.
Qed.

(** Every operation keeps the subscription trees in order. *)
Lemma apply_op_sorted (op : Op) (t : TransportImpl) (w : World) :
  subscriptions_sorted t ->
  subscriptions_sorted (result_of (apply_op op t w)).
Proof.
  intros Hsorted.
  destruct op as [id|params|params|params|port|port|port|ref|ref|ref f
                  |ref timeout|deadline metadata fragments|now];
    cbn [apply_op].
  - unfold setLocalNodeId.
    destruct (CANARD_NODE_ID_MAX <? id); [exact Hsorted|].
    destruct (node_id (canard_instance t) =? id); [exact Hsorted|].
    destruct (negb _); [exact Hsorted|].
    cbn. destruct (total_service_ports t); cbn;
      apply set_node_id_sorted, Hsorted.
  - pose proof (makeRxSession_sorted CanardTransferKindMessage params t w
                                     Hsorted) as H.
    unfold makeMessageRxSession. run_eff.
    now destruct (makeRxSession _ params t w) as [[x w1] e1].
  - pose proof (makeRxSession_sorted CanardTransferKindRequest params t w
                                     Hsorted) as H.
    unfold makeRequestRxSession. run_eff.
    now destruct (makeRxSession _ params t w) as [[x w1] e1].
  - pose proof (makeRxSession_sorted CanardTransferKindResponse params t w
                                     Hsorted) as H.
    unfold makeResponseRxSession. run_eff.
    now destruct (makeRxSession _ params t w) as [[x w1] e1].
  - pose proof (makeTxSession_unchanged CanardTransferKindMessage port t w)
      as H.
    unfold makeMessageTxSession. run_eff.
    destruct (makeTxSession _ port t w) as [[x w1] e1].
    cbn [fst snd] in *. now rewrite H.
  - pose proof (makeTxSession_unchanged CanardTransferKindRequest port t w)
      as H.
    unfold makeRequestTxSession. run_eff.
    destruct (makeTxSession _ port t w) as [[x w1] e1].
    cbn [fst snd] in *. now rewrite H.
  - pose proof (makeTxSession_unchanged CanardTransferKindResponse port t w)
      as H.
    unfold makeResponseTxSession. run_eff.
    destruct (makeTxSession _ port t w) as [[x w1] e1].
    cbn [fst snd] in *. now rewrite H.
  - now apply RxSession_delete_sorted.
  - unfold receive. cbn.
    destruct (find_session ref (rx_sessions t)); exact Hsorted.
  - exact Hsorted.
  - cbn. now apply setTransferIdTimeout_sorted.
  - rewrite bind_result_of. cbn [ret result_of fst].
    rewrite sendTransfer_cases. cbv zeta.
    destruct (out_of_payload_memory fragments w); exact Hsorted.
  - unfold subscriptions_sorted.
    destruct (run_spec now t w) as (_ & -> & _). exact Hsorted.
Qed.

Lemma reachable_sorted (t : TransportImpl) :
  reachable t -> subscriptions_sorted t.
Proof.
  induction 1 as [media tx_capacity local_node_id w t Hmake|t op w _ IH].
  - pose proof (make_cases media tx_capacity local_node_id w) as H.
    cbv zeta in H. rewrite Hmake in H.
    destruct (_ || _ || _); [discriminate|].
    destruct (_ && _); [|discriminate].
    injection H as ->. intros k. destruct k; constructor.
  - now apply apply_op_sorted.
Qed.

(** C4: in every reachable state of the transport every pair of a
    transfer kind and a port id has at most one RX subscription, and
    every operation keeps it so; [makeMessageRxSession],
    [makeRequestRxSession] and [makeResponseRxSession] called for a port
    that is subscribed return [AlreadyExistsError] and change nothing,
    so that no second subscription and no session comes about. *)
Theorem at_most_one_subscription (t : TransportImpl) :
  reachable t ->
  (forall k port, (length (subscriptions_of t k port) <= 1)%nat)
  /\ (forall op w k port,
         (length (subscriptions_of (result_of (apply_op op t w)) k port)
          <= 1)%nat)
  /\ (forall params w,
         subscriptions_of t CanardTransferKindMessage (rx_port_id params)
         <> [] ->
         makeMessageRxSession params t w
         = (Failure AlreadyExistsError, t, w, []))
  /\ (forall params w,
         subscriptions_of t CanardTransferKindRequest (rx_port_id params)
         <> [] ->
         makeRequestRxSession params t w
         = (Failure AlreadyExistsError, t, w, []))
  /\ (forall params w,
         subscriptions_of t CanardTransferKindResponse (rx_port_id params)
         <> [] ->
         makeResponseRxSession params t w
         = (Failure AlreadyExistsError, t, w, [])).
Proof.
  intros Hreach. pose proof (reachable_sorted t Hreach) as Hsorted.
  split; [|split; [|split; [|split]]].
  - intros k port. apply tree_sorted_unique, Hsorted.
  - intros op w k port. apply tree_sorted_unique.
    now apply apply_op_sorted.
  - intros params w. apply makeRxSession_subscribed.
  - intros params w. apply makeRxSession_subscribed.
  - intros params w. apply makeRxSession_subscribed.
Qed.

End Subscriptions.

Section Consistency.

Context {World : Type}.
Context {media_interface : IMedia World}.
Context {canard : Canard World}.
Context {memory : MemoryResource World}.

Local Abbreviation sub_key := (fun s => (sub_port_id s, user_reference s)).

Lemma tree_search_in (port : PortId) (tree : list CanardRxSubscription)
      (sub : CanardRxSubscription) :
  tree_search port tree = Some sub -> In sub tree /\ sub_port_id sub = port.
Proof.
  induction tree as [|x rest IH]; [discriminate|]. cbn [tree_search].
  destruct (sub_port_id x =? port) eqn:Hx.
  - intros [= <-]. apply Z.eqb_eq in Hx. split; [now left|exact Hx].
  - intros H. destruct (IH H) as [Hin Hp]. split; [now right|exact Hp].
Qed.

Lemma tree_search_insert_same (s : CanardRxSubscription)
      (tree : list CanardRxSubscription) :
  tree_search (sub_port_id s) tree = None ->
  tree_search (sub_port_id s) (tree_insert s tree) = Some s
  /\ length (tree_insert s tree) = S (length tree)
  /\ (forall x, In x (tree_insert s tree) <-> x = s \/ In x tree).
Proof.
  induction tree as [|x rest IH]; cbn [tree_search tree_insert].
  - intros _. rewrite Z.eqb_refl. split; [reflexivity|]. split; [reflexivity|].
    intros y. cbn. intuition (subst; auto).
  - destruct (sub_port_id x =? sub_port_id s) eqn:Hx; [discriminate|].
    intros Hnone. destruct (IH Hnone) as (Hs & Hl & Hin).
    destruct (sub_port_id s <? sub_port_id x).
    + cbn [tree_search length]. rewrite Z.eqb_refl.
      split; [reflexivity|]. split; [reflexivity|].
      intros y. cbn. intuition (subst; auto).
    + rewrite Z.eqb_sym, Hx. cbn [tree_search length]. rewrite Hx.
      split; [exact Hs|]. split; [now rewrite Hl|].
      intros y. cbn. rewrite Hin. intuition (subst; auto).
Qed.

Lemma tree_search_insert_other (port : PortId) (s : CanardRxSubscription)
      (tree : list CanardRxSubscription) :
  port <> sub_port_id s ->
  tree_search port (tree_insert s tree) = tree_search port tree.
Proof.
  intros Hne. induction tree as [|x rest IH]; cbn [tree_search tree_insert].
  - destruct (sub_port_id s =? port) eqn:H; [|reflexivity].
    apply Z.eqb_eq in H. congruence.
  - destruct (sub_port_id s <? sub_port_id x).
    + cbn [tree_search]. destruct (sub_port_id s =? port) eqn:H; [|reflexivity].
      apply Z.eqb_eq in H. congruence.
    + destruct (sub_port_id s =? sub_port_id x); [reflexivity|].
      cbn [tree_search]. now rewrite IH.
Qed.

Lemma tree_search_remove_other (port port' : PortId)
      (tree : list CanardRxSubscription) :
  port' <> port ->
  tree_search port' (tree_remove port tree) = tree_search port' tree.
Proof.
  intros Hne. induction tree as [|x rest IH]; [reflexivity|].
  cbn [tree_search tree_remove].
  destruct (sub_port_id x =? port) eqn:Hx.
  - apply Z.eqb_eq in Hx.
    destruct (sub_port_id x =? port') eqn:Hx'; [|reflexivity].
    apply Z.eqb_eq in Hx'. congruence.
  - cbn [tree_search]. now rewrite IH.
Qed.

Lemma tree_remove_length (port : PortId) (tree : list CanardRxSubscription)
      (sub : CanardRxSubscription) :
  tree_search port tree = Some sub ->
  length tree = S (length (tree_remove port tree)).
Proof.
  induction tree as [|x rest IH]; [discriminate|].
  cbn [tree_search tree_remove].
  destruct (sub_port_id x =? port); [reflexivity|].
  intros H. cbn [length]. now rewrite (IH H).
Qed.

Lemma tree_remove_gone (port : PortId) (tree : list CanardRxSubscription)
      (x : CanardRxSubscription) :
  tree_sorted tree -> In x (tree_remove port tree) -> sub_port_id x <> port.
Proof.
  induction tree as [|y rest IH]; [intros _ []|].
  intros Hsorted. apply tree_sorted_inv in Hsorted as [Hrest Hall].
  cbn [tree_remove]. destruct (sub_port_id y =? port) eqn:Hy.
  - apply Z.eqb_eq in Hy. intros Hin.
    pose proof (proj1 (Forall_forall _ _) Hall x Hin) as Hlt.
    cbn in Hlt. lia.
  - apply Z.eqb_neq in Hy. intros [<-|Hin]; [exact Hy|now apply IH].
Qed.

Lemma tree_search_keys (port : PortId) (ref : SessionRef)
      (tree tree' : list CanardRxSubscription) :
  map sub_key tree' = map sub_key tree ->
  (exists sub, tree_search port tree = Some sub /\ user_reference sub = ref) ->
  exists sub, tree_search port tree' = Some sub /\ user_reference sub = ref.
Proof.
  revert tree'. induction tree as [|x rest IH]; intros tree' Hmap.
  - intros (sub & H & _). discriminate.
  - destruct tree' as [|x' rest']; [discriminate|].
    cbn [map] in Hmap. injection Hmap as Hp Hr Hrest.
    cbn [tree_search]. rewrite Hp.
    destruct (sub_port_id x =? port).
    + intros (sub & [= <-] & Href). exists x'. split; [reflexivity|congruence].
    + now apply IH.
Qed.

Lemma NoDup_fst_determines {A B} (l : list (A * B)) (a : A) (b b' : B) :
  NoDup (map fst l) -> In (a, b) l -> In (a, b') l -> b = b'.
Proof.
  induction l as [|[a0 b0] rest IH]; [intros _ []|].
  cbn [map fst]. intros Hnd. inversion Hnd as [|? ? Hnot Hrest]; subst.
  intros [H1|H1] [H2|H2].
  - congruence.
  - injection H1 as -> ->. exfalso. apply Hnot.
    change a with (fst (a, b')). now apply in_map.
  - injection H2 as -> ->. exfalso. apply Hnot.
    change a with (fst (a, b)). now apply in_map.
  - now apply IH.
Qed.

Lemma filter_keeps_refs_apart {A B} (keep : A * B -> bool)
      (keys : list (A * B)) :
  NoDup (map fst keys) -> NoDup (map fst (filter keep keys)).
Proof.
  induction keys as [|key rest IH]; [constructor|].
  cbn [map]. intros Hnd. inversion Hnd as [|? ? Hnot Hrest]; subst.
  cbn [filter]. destruct (keep key); [|now apply IH].
  cbn [map]. constructor; [|now apply IH].
  intros Hin. apply Hnot. apply in_map_iff in Hin as (y & Hy & Hin).
  apply filter_In in Hin as [Hin _]. rewrite <- Hy. now apply in_map.
Qed.

(** Whatever leaves the keys of the subscriptions and of the sessions,
    the counters and the next address alone keeps the transport
    consistent. *)
Lemma consistent_frame (t t' : TransportImpl) :
  (forall k, map sub_key (rx_subscriptions (canard_instance t') k)
             = map sub_key (rx_subscriptions (canard_instance t) k)) ->
  total_message_ports t' = total_message_ports t ->
  total_service_ports t' = total_service_ports t ->
  session_keys t' = session_keys t ->
  next_session_ref t' = next_session_ref t ->
  consistent t -> consistent t'.
Proof.
  intros Hsubs Hm Hs Hkeys Hnext (Hports & Hsess & Hlive & Hnd & Hlt).
  assert (Hlen : forall k,
             length (rx_subscriptions (canard_instance t') k)
             = length (rx_subscriptions (canard_instance t) k)).
  { intros k. rewrite <- (length_map sub_key), Hsubs. apply length_map. }
  unfold consistent, ports_accounted. rewrite Hkeys, Hnext, Hm, Hs.
  split; [|split; [|split; [|split]]].
  - destruct Hports as [H1 H2].
    pose proof (Hlen CanardTransferKindMessage) as L1.
    pose proof (Hlen CanardTransferKindRequest) as L2.
    pose proof (Hlen CanardTransferKindResponse) as L3.
    cbn [rx_subscriptions] in L1, L2, L3. rewrite L1, L2, L3. now split.
  - intros ref k port Hin.
    apply (tree_search_keys port ref _ _ (Hsubs k)). now apply Hsess.
  - intros k sub Hin.
    apply (in_map sub_key) in Hin. rewrite Hsubs in Hin.
    apply in_map_iff in Hin as (sub0 & Hk & Hin0).
    injection Hk as Hp Hr. rewrite <- Hp, <- Hr. now apply Hlive.
  - exact Hnd.
  - exact Hlt.
Qed.

Lemma consistent_new (media_array : list Media) (canard_node_id : Z) :
  consistent (TransportImpl_new media_array canard_node_id).
Proof.
  unfold consistent, ports_accounted, session_keys. cbn.
  split; [now split|]. split; [intros ? ? ? []|].
  split; [intros [] ? []|]. split; constructor.
Qed.

Lemma session_keys_update (ref : SessionRef) (f : RxSession -> RxSession)
      (l : list RxSession) :
  (forall s, session_key (f s) = session_key s) ->
  map session_key (update_session ref f l) = map session_key l.
Proof.
  intros Hf. unfold update_session. rewrite map_map. apply map_ext.
  intros s. now destruct (session_ref s =? ref)%nat.
Qed.

Lemma session_keys_deliver (ref : SessionRef) (transfer : CanardRxTransfer)
      (l : list RxSession) (w : World) :
  map session_key (result_of (deliver ref transfer l w)) = map session_key l
  /\ world_of (deliver ref transfer l w) = w.
Proof.
  induction l as [|s rest IH]; [split; reflexivity|].
  cbn [deliver]. destruct (session_ref s =? ref)%nat.
  - unfold acceptRxTransfer. destruct (on_receive_cb_fn s); run_eff;
      split; reflexivity.
  - run_eff. destruct (deliver ref transfer rest w) as [[rest' w1] e1].
    cbn [fst snd] in *. destruct IH as [IH ->]. cbn [map].
    split; [now rewrite IH|reflexivity].
Qed.

Lemma find_session_in (ref : SessionRef) (l : list RxSession)
      (s : RxSession) :
  find_session ref l = Some s -> In s l /\ session_ref s = ref.
Proof.
  unfold find_session. intros H. apply find_some in H as [Hin Href].
  apply Nat.eqb_eq in Href. now split.
Qed.

Lemma session_keys_remove (ref : SessionRef) (l : list RxSession) :
  map session_key (remove_session ref l)
  = filter (fun key => negb (fst key =? ref)%nat) (map session_key l).
Proof.
  unfold remove_session. induction l as [|s rest IH]; [reflexivity|].
  cbn [filter map]. unfold session_key at 2. cbn [fst].
  destruct (session_ref s =? ref)%nat; cbn [negb map]; now rewrite IH.
Qed.

(** [makeRxSession] by cases. *)
Lemma makeRxSession_cases (k : CanardTransferKind) (params : RxParams)
      (t : TransportImpl) (w : World) :
  let port := rx_port_id params in
  let ins := canard_instance t in
  let this := next_session_ref t in
  let subscription :=
    mkSubscription port (extent_bytes params)
                   CANARD_DEFAULT_TRANSFER_ID_TIMEOUT_USEC this in
  let session := mkRxSession this k port (extent_bytes params) None None in
  makeRxSession k params t w
  = match tree_search port (rx_subscriptions ins k) with
    | Some _ => (Failure AlreadyExistsError, t, w, [])
    | None =>
        if port_id_max k <? port then (Failure ArgumentError, t, w, [])
        else if fst (allocate AllocSession w)
        then (Value this,
              triggerUpdateOfFilters
                (port_added k)
                (set_rx_sessions
                   (set_canard_instance
                      t (set_rx_subscriptions
                           ins k (tree_insert subscription
                                              (rx_subscriptions ins k))))
                   (session :: rx_sessions t) (S this)),
              snd (allocate AllocSession w), [])
        else (Failure MemoryError, t, snd (allocate AllocSession w), [])
    end.
Proof.
  cbv zeta. unfold makeRxSession, ensureNewSessionFor, canardRxGetSubscription.
  destruct (tree_search (rx_port_id params)
                        (rx_subscriptions (canard_instance t) k)) eqn:Hs;
    [reflexivity|].
  cbn [Z.ltb Z.compare]. unfold RxSession_make.
  destruct (port_id_max k <? rx_port_id params); [reflexivity|].
  run_eff. destruct (allocate AllocSession w) as [obtained w1].
  cbn [fst snd]. destruct obtained; [|reflexivity].
  unfold RxSession_new, canardRxSubscribe, canardRxUnsubscribe.
  cbn [sub_port_id]. rewrite Hs. reflexivity.
Qed.

Lemma triggerUpdateOfFilters_sessions (c : FiltersUpdateCondition)
      (t : TransportImpl) :
  rx_sessions (triggerUpdateOfFilters c t) = rx_sessions t
  /\ next_session_ref (triggerUpdateOfFilters c t) = next_session_ref t
  /\ media_array (triggerUpdateOfFilters c t) = media_array t
  /\ should_reconfigure_filters (triggerUpdateOfFilters c t) = true.
Proof. destruct c; repeat split. Qed.

Lemma makeRxSession_consistent (k : CanardTransferKind) (params : RxParams)
      (t : TransportImpl) (w : World) :
  consistent t ->
  consistent (snd (result_of (makeRxSession k params t w))).
Proof.
  intros Hc. rewrite makeRxSession_cases. cbv zeta.
  destruct (tree_search (rx_port_id params)
                        (rx_subscriptions (canard_instance t) k)) eqn:Hs;
    [exact Hc|].
  destruct (port_id_max k <? rx_port_id params); [exact Hc|].
  destruct (fst (allocate AllocSession w)); [|exact Hc].
  cbn [result_of fst snd].
  set (sub := mkSubscription _ _ _ _).
  change (rx_port_id params) with (sub_port_id sub) in Hs.
  destruct (tree_search_insert_same sub _ Hs) as (Hfound & Hlen & Hin).
  destruct Hc as ((Hpm & Hps) & Hsess & Hlive & Hnd & Hlt).
  unfold consistent, ports_accounted, session_keys.
  rewrite triggerUpdateOfFilters_instance.
  destruct (triggerUpdateOfFilters_sessions
              (port_added k)
              (set_rx_sessions
                 (set_canard_instance
                    t (set_rx_subscriptions
                         (canard_instance t) k
                         (tree_insert
                            sub (rx_subscriptions (canard_instance t) k))))
                 (mkRxSession (next_session_ref t) k (rx_port_id params)
                              (extent_bytes params) None None
                  :: rx_sessions t) (S (next_session_ref t))))
    as (-> & -> & _ & _).
  cbn [canard_instance set_rx_sessions set_canard_instance rx_sessions
       next_session_ref map].
  unfold session_key at 1 3 4. cbn [session_ref session_kind session_port].
  split; [|split; [|split; [|split]]].
  - destruct k; cbn [port_added triggerUpdateOfFilters set_rx_subscriptions
                     subs_message subs_request subs_response
                     total_message_ports total_service_ports
                     set_total_message_ports set_total_service_ports
                     set_should_reconfigure_filters set_rx_sessions
                     set_canard_instance canard_instance rx_subscriptions]
                in *; rewrite ?Hlen; split; lia.
  - intros ref k' port' [Hnew|Hold].
    + injection Hnew as <- <- <-. rewrite rx_subscriptions_set_same.
      exists sub. split; [exact Hfound|reflexivity].
    + destruct (Hsess _ _ _ Hold) as (sub' & Hs' & Href).
      rewrite rx_subscriptions_set.
      destruct (kind_eqb k k') eqn:Hk.
      * assert (k = k') by (destruct k, k'; cbn in Hk; congruence). subst k'.
        exists sub'. split; [|exact Href].
        rewrite tree_search_insert_other; [exact Hs'|].
        intros ->. congruence.
      * exists sub'. now split.
  - intros k' sub' Hin'. rewrite rx_subscriptions_set in Hin'.
    destruct (kind_eqb k k') eqn:Hk.
    + assert (k = k') by (destruct k, k'; cbn in Hk; congruence). subst k'.
      apply Hin in Hin' as [->|Hold]; [now left|].
      right. now apply Hlive.
    + right. now apply Hlive.
  - cbn [map fst]. constructor; [|exact Hnd].
    intros Hin'. apply in_map_iff in Hin' as (key & Hf & Hk).
    pose proof (proj1 (Forall_forall _ _) Hlt key Hk) as Hlt'.
    destruct key as [r kp]. cbn in Hf, Hlt'. subst r.
    exact (Nat.lt_irrefl _ Hlt').
  - constructor; [cbn; lia|].
    eapply Forall_impl; [|exact Hlt]. cbn. intros; lia.
Qed.

(** The destructor of an RX session by cases. *)
Lemma RxSession_delete_cases (ref : SessionRef) (t : TransportImpl)
      (w : World) :
  RxSession_delete ref t w
  = match find_session ref (rx_sessions t) with
    | None => (t, w, [])
    | Some s =>
        (triggerUpdateOfFilters
           (port_removed (session_kind s))
           (set_rx_sessions
              (set_canard_instance
                 t (snd (canardRxUnsubscribe (canard_instance t)
                                             (session_kind s)
                                             (session_port s))))
              (remove_session ref (rx_sessions t)) (next_session_ref t)),
         deallocate AllocSession w, [])
    end.
Proof.
  unfold RxSession_delete.
  destruct (find_session ref (rx_sessions t)) as [s|]; [|reflexivity].
  destruct (canardRxUnsubscribe (canard_instance t) (session_kind s)
                                (session_port s)) as [code ins1].
  reflexivity.
Qed.

Lemma kind_eqb_eq (k k' : CanardTransferKind) :
  kind_eqb k k' = true <-> k = k'.
Proof. destruct k, k'; cbn; split; congruence. Qed.

Lemma RxSession_delete_consistent (ref : SessionRef) (t : TransportImpl)
      (w : World) :
  subscriptions_sorted t -> consistent t ->
  consistent (result_of (RxSession_delete ref t w)).
Proof.
  intros Hsorted Hc. rewrite RxSession_delete_cases.
  destruct (find_session ref (rx_sessions t)) as [s|] eqn:Hfind; [|exact Hc].
  apply find_session_in in Hfind as [Hin Href].
  destruct Hc as ((Hpm & Hps) & Hsess & Hlive & Hnd & Hlt).
  assert (Hkey : In (ref, (session_kind s, session_port s)) (session_keys t)).
  { unfold session_keys. rewrite <- Href.
    change (In (session_key s) (map session_key (rx_sessions t))).
    now apply in_map. }
  destruct (Hsess _ _ _ Hkey) as (sub & Hsub & Hsubref).
  cbn [result_of fst]. unfold canardRxUnsubscribe. rewrite Hsub. cbn [snd].
  set (k := session_kind s) in *. set (port := session_port s) in *.
  set (tree := rx_subscriptions (canard_instance t) k) in *.
  pose proof (tree_remove_length port tree sub Hsub) as Hlen.
  unfold consistent, ports_accounted, session_keys.
  rewrite triggerUpdateOfFilters_instance.
  destruct (triggerUpdateOfFilters_sessions
              (port_removed k)
              (set_rx_sessions
                 (set_canard_instance
                    t (set_rx_subscriptions (canard_instance t) k
                                            (tree_remove port tree)))
                 (remove_session ref (rx_sessions t)) (next_session_ref t)))
    as (-> & -> & _ & _).
  cbn [canard_instance set_rx_sessions set_canard_instance rx_sessions
       next_session_ref].
  rewrite session_keys_remove. fold (session_keys t).
  split; [|split; [|split; [|split]]].
  - subst tree.
    destruct k; cbn [port_removed triggerUpdateOfFilters set_rx_subscriptions
                     subs_message subs_request subs_response
                     total_message_ports total_service_ports
                     set_total_message_ports set_total_service_ports
                     set_should_reconfigure_filters set_rx_sessions
                     set_canard_instance canard_instance rx_subscriptions]
                in *; split; lia.
  - intros ref' k' port' Hin'.
    apply filter_In in Hin' as [Hin' Hne]. cbn [fst] in Hne.
    apply negb_true_iff, Nat.eqb_neq in Hne.
    destruct (Hsess _ _ _ Hin') as (sub' & Hs' & Href').
    rewrite rx_subscriptions_set.
    destruct (kind_eqb k k') eqn:Hk; [|exists sub'; now split].
    apply kind_eqb_eq in Hk. subst k'. fold tree in Hs'.
    exists sub'. split; [|exact Href'].
    rewrite tree_search_remove_other; [exact Hs'|].
    intros ->. rewrite Hsub in Hs'. injection Hs' as <-. congruence.
  - intros k' sub' Hin'. rewrite rx_subscriptions_set in Hin'.
    apply filter_In. cbn [fst].
    assert (Hold : In sub' (rx_subscriptions (canard_instance t) k')
                   /\ (k' = k -> sub_port_id sub' <> port)).
    { destruct (kind_eqb k k') eqn:Hk.
      - apply kind_eqb_eq in Hk. subst k'. split.
        + exact (tree_remove_in _ _ _ Hin').
        + intros _. exact (tree_remove_gone port tree sub' (Hsorted k) Hin').
      - split; [exact Hin'|]. intros ->.
        assert (kind_eqb k k = true) by now apply kind_eqb_eq. congruence. }
    destruct Hold as [Hold Hport]. split; [now apply Hlive|].
    apply negb_true_iff, Nat.eqb_neq. intros Hsame.
    pose proof (Hlive _ _ Hold) as Hkey'. rewrite Hsame in Hkey'.
    pose proof (NoDup_fst_determines _ _ _ _ Hnd Hkey Hkey') as Heq.
    injection Heq as Hk Hp. symmetry in Hk. exact (Hport Hk (eq_sym Hp)).
  - now apply filter_keeps_refs_apart.
  - apply Forall_forall. intros key Hin'. apply filter_In in Hin' as [Hin' _].
    exact (proj1 (Forall_forall _ _) Hlt key Hin').
Qed.

Lemma set_timeout_keys (port : PortId) (timeout : Z)
      (tree : list CanardRxSubscription) :
  map sub_key (set_timeout port timeout tree) = map sub_key tree.
Proof.
  unfold set_timeout. rewrite map_map. apply map_ext.
  intros s. now destruct (sub_port_id s =? port).
Qed.

Lemma setTransferIdTimeout_consistent (ref : SessionRef) (timeout : Z)
      (t : TransportImpl) :
  consistent t -> consistent (setTransferIdTimeout ref timeout t).
Proof.
  intros Hc. unfold setTransferIdTimeout.
  destruct (find_session ref (rx_sessions t)) as [s|]; [|exact Hc].
  destruct (0 <=? timeout); [|exact Hc].
  apply (consistent_frame t); try reflexivity; [|exact Hc].
  intros k. cbn [canard_instance set_canard_instance].
  rewrite rx_subscriptions_set.
  destruct (kind_eqb (session_kind s) k) eqn:Hk; [|reflexivity].
  apply kind_eqb_eq in Hk. subst k. apply set_timeout_keys.
Qed.

(** Receiving touches the sessions only, and neither their identity nor
    what they are subscribed to. *)
Lemma receive_media_sessions (m : Media) (t : TransportImpl) (w : World) :
  exists sessions,
    result_of (receive_media m t w)
    = set_rx_sessions t sessions (next_session_ref t)
    /\ map session_key sessions = session_keys t.
Proof.
  assert (Hsame : exists sessions,
             t = set_rx_sessions t sessions (next_session_ref t)
             /\ map session_key sessions = session_keys t).
  { exists (rx_sessions t). split; [now destruct t|reflexivity]. }
  unfold receive_media, call_pop. run_eff.
  destruct (pop (interface m) w) as [pop_result w1].
  destruct pop_result as [[[rx_meta buffer]|]|err]; cbn [fst snd];
    try exact Hsame.
  destruct (canardRxAccept _ _ _ _ w1) as [[[result out] [k port]] w2].
  cbn [fst snd]. destruct (0 <? result); cbn [fst snd]; try exact Hsame.
  destruct (tree_search port (rx_subscriptions (canard_instance t) k))
    as [sub|]; cbn [fst snd]; try exact Hsame.
  destruct (session_keys_deliver (user_reference sub) out (rx_sessions t) w2)
    as [Hkeys _].
  destruct (deliver (user_reference sub) out (rx_sessions t) w2)
    as [[sessions w3] ev].
  exists sessions. split; [reflexivity|exact Hkeys].
Qed.

Lemma runMediaReceive_loop_sessions (media : list Media) (t : TransportImpl)
      (w : World) :
  exists sessions,
    result_of (runMediaReceive_loop media t w)
    = set_rx_sessions t sessions (next_session_ref t)
    /\ map session_key sessions = session_keys t.
Proof.
  revert t w. induction media as [|m rest IH]; intros t w.
  - exists (rx_sessions t). split; [now destruct t|reflexivity].
  - cbn [runMediaReceive_loop]. rewrite bind_result_of.
    destruct (receive_media_sessions m t w) as (s1 & -> & Hk1).
    destruct (IH (set_rx_sessions t s1 (next_session_ref t))
                 (world_of (receive_media m t w))) as (s2 & -> & Hk2).
    exists s2. split; [reflexivity|].
    rewrite Hk2. exact Hk1.
Qed.

(** [runMediaFilters] changes nothing but the flag. *)
Lemma runMediaFilters_flag_only (t : TransportImpl) (w : World) :
  exists b, result_of (runMediaFilters t w)
            = set_should_reconfigure_filters t b.
Proof.
  assert (Hsame : exists b, t = set_should_reconfigure_filters t b).
  { exists (should_reconfigure_filters t). now destruct t. }
  unfold runMediaFilters.
  destruct (should_reconfigure_filters t); cbn [negb]; [|exact Hsame].
  run_eff.
  match goal with
  | |- context [(0 <? ?n)%nat] => destruct (0 <? n)%nat
  end.
  - match goal with
    | |- context [allocate ?rq w] =>
        destruct (allocate rq w) as [reserved w1]
    end; cbn [fst snd].
    destruct reserved; [|exact Hsame].
    match goal with
    | |- context [setFilters_loop ?m ?f ?b ?w0] =>
        destruct (setFilters_loop m f b w0) as [[was_error w2] e2]
    end.
    cbn [fst snd]. destruct was_error; [exact Hsame|].
    now exists false.
  - match goal with
    | |- context [setFilters_loop ?m ?f ?b ?w0] =>
        destruct (setFilters_loop m f b w0) as [[was_error w2] e2]
    end.
    cbn [fst snd]. destruct was_error; [exact Hsame|].
    now exists false.
Qed.

Lemma run_consistent (now : TimePoint) (t : TransportImpl) (w : World) :
  consistent t -> consistent (result_of (run now t w)).
Proof.
  intros Hc. rewrite run_unfold. cbv zeta. cbn [result_of fst].
  rewrite runMediaTransmit_spec. cbn [result_of world_of fst snd].
  set (t1 := set_media_array t _).
  set (w1 := world_of (runMediaTransmit_loop now (media_array t) w)).
  unfold runMediaReceive.
  destruct (runMediaReceive_loop_sessions (media_array t1) t1 w1)
    as (sessions & Hr & Hkeys).
  rewrite Hr.
  match goal with
  | |- context [runMediaFilters ?a ?b] =>
      destruct (runMediaFilters_flag_only a b) as (b' & Hf)
  end.
  rewrite Hf.
  apply (consistent_frame t); try reflexivity; [|exact Hc].
  unfold session_keys. cbn. exact Hkeys.
Qed.

(** Every operation keeps sessions and subscriptions together. *)
Lemma apply_op_consistent (op : Op) (t : TransportImpl) (w : World) :
  subscriptions_sorted t -> consistent t ->
  consistent (result_of (apply_op op t w)).
Proof.
  intros Hsorted Hc.
  destruct op as [id|params|params|params|port|port|port|ref|ref|ref f
                  |ref timeout|deadline metadata fragments|now];
    cbn [apply_op].
  - unfold setLocalNodeId.
    destruct (CANARD_NODE_ID_MAX <? id); [exact Hc|].
    destruct (node_id (canard_instance t) =? id); [exact Hc|].
    destruct (negb _); [exact Hc|].
    cbn [result_of ret fst snd].
    destruct (0 <? _)%nat;
      apply (consistent_frame t);
      try reflexivity; try exact Hc; intros k; now destruct k.
  - pose proof (makeRxSession_consistent CanardTransferKindMessage params t w
                                         Hc) as H.
    unfold makeMessageRxSession. run_eff.
    now destruct (makeRxSession _ params t w) as [[x w1] e1].
  - pose proof (makeRxSession_consistent CanardTransferKindRequest params t w
                                         Hc) as H.
    unfold makeRequestRxSession. run_eff.
    now destruct (makeRxSession _ params t w) as [[x w1] e1].
  - pose proof (makeRxSession_consistent CanardTransferKindResponse params t w
                                         Hc) as H.
    unfold makeResponseRxSession. run_eff.
    now destruct (makeRxSession _ params t w) as [[x w1] e1].
  - pose proof (makeTxSession_unchanged CanardTransferKindMessage port t w)
      as H.
    unfold makeMessageTxSession. run_eff.
    destruct (makeTxSession _ port t w) as [[x w1] e1].
    cbn [fst snd] in *. now rewrite H.
  - pose proof (makeTxSession_unchanged CanardTransferKindRequest port t w)
      as H.
    unfold makeRequestTxSession. run_eff.
    destruct (makeTxSession _ port t w) as [[x w1] e1].
    cbn [fst snd] in *. now rewrite H.
  - pose proof (makeTxSession_unchanged CanardTransferKindResponse port t w)
      as H.
    unfold makeResponseTxSession. run_eff.
    destruct (makeTxSession _ port t w) as [[x w1] e1].
    cbn [fst snd] in *. now rewrite H.
  - now apply RxSession_delete_consistent.
  - unfold receive. cbn [result_of ret fst snd].
    destruct (find_session ref (rx_sessions t)); [|exact Hc].
    cbn [snd]. apply (consistent_frame t); try reflexivity; [|exact Hc].
    unfold session_keys. cbn [rx_sessions set_rx_sessions].
    now apply session_keys_update.
  - cbn [result_of ret fst]. unfold setOnReceiveCallback.
    apply (consistent_frame t); try reflexivity; [|exact Hc].
    unfold session_keys. cbn [rx_sessions set_rx_sessions].
    now apply session_keys_update.
  - cbn [result_of ret fst]. now apply setTransferIdTimeout_consistent.
  - rewrite bind_result_of. cbn [ret result_of fst].
    rewrite sendTransfer_cases. cbv zeta.
    destruct (out_of_payload_memory fragments w); exact Hc.
  - now apply run_consistent.
Qed.

Lemma reachable_consistent (t : TransportImpl) :
  reachable t -> consistent t.
Proof.
  intros Hr.
  assert (H : subscriptions_sorted t /\ consistent t).
  { induction Hr as [media tx_capacity local_node_id w t Hmake|t op w Hr IH].
    - pose proof (make_cases media tx_capacity local_node_id w) as Hcases.
      cbv zeta in Hcases. rewrite Hmake in Hcases.
      destruct (_ || _); [discriminate|].
      destruct (_ && _); [|discriminate].
      injection Hcases as ->. split; [|apply consistent_new].
      intros k. destruct k; constructor.
    - destruct IH as [Hs Hc]. split.
      + now apply apply_op_sorted.
      + now apply apply_op_consistent. }
  exact (proj2 H).
Qed.

End Consistency.

Section Sessions.

Context {World : Type}.
Context {media_interface : IMedia World}.
Context {canard : Canard World}.
Context {memory : MemoryResource World}.

Local Abbreviation key_of_sub :=
  (fun k s => (user_reference s, (k : CanardTransferKind, sub_port_id s))).

Lemma tree_sorted_keys_NoDup (k : CanardTransferKind)
      (tree : list CanardRxSubscription) :
  tree_sorted tree -> NoDup (map (key_of_sub k) tree).
Proof.
  induction tree as [|x rest IH]; [constructor|].
  intros Hsorted. apply tree_sorted_inv in Hsorted as [Hrest Hall].
  cbn [map]. constructor; [|now apply IH].
  intros Hin. apply in_map_iff in Hin as (y & Hy & Hin).
  pose proof (proj1 (Forall_forall _ _) Hall y Hin) as Hlt. cbn in Hlt.
  injection Hy as _ Hp. lia.
Qed.

Lemma session_key_in (t : TransportImpl) (ref : SessionRef)
      (k : CanardTransferKind) (port : PortId) :
  In (ref, (k, port)) (session_keys t)
  <-> exists s, In s (rx_sessions t) /\ session_ref s = ref
                /\ session_kind s = k /\ session_port s = port.
Proof.
  unfold session_keys. rewrite in_map_iff. split.
  - intros (s & Hk & Hin). injection Hk as <- <- <-. now exists s.
  - intros (s & Hin & <- & <- & <-). now exists s.
Qed.

Lemma sessions_counted (t : TransportImpl) :
  subscriptions_sorted t -> consistent t ->
  length (rx_sessions t)
  = (total_message_ports t + total_service_ports t)%nat.
Proof.
  intros Hsorted ((Hpm & Hps) & Hsess & Hlive & Hnd & _).
  set (ins := canard_instance t) in *.
  set (all := map (key_of_sub CanardTransferKindMessage) (subs_message ins)
              ++ map (key_of_sub CanardTransferKindRequest) (subs_request ins)
              ++ map (key_of_sub CanardTransferKindResponse)
                     (subs_response ins)).
  assert (Hlen : length all
                 = (total_message_ports t + total_service_ports t)%nat).
  { unfold all. rewrite !length_app, !length_map. lia. }
  assert (Hall : forall key, In key all <-> In key (session_keys t)).
  { intros [ref [k port]]. unfold all. rewrite !in_app_iff, !in_map_iff. split.
    - intros [(s & Hk & Hin)|[(s & Hk & Hin)|(s & Hk & Hin)]];
        injection Hk as <- <- <-.
      + exact (Hlive CanardTransferKindMessage s Hin).
      + exact (Hlive CanardTransferKindRequest s Hin).
      + exact (Hlive CanardTransferKindResponse s Hin).
    - intros Hin. destruct (Hsess _ _ _ Hin) as (sub & Hs & Href).
      apply tree_search_in in Hs as [Hs Hp]. subst ref port.
      destruct k; cbn [rx_subscriptions] in Hs;
        [left|right; right|right; left]; now exists sub. }
  assert (Hnd_all : NoDup all).
  { unfold all.
    pose proof (tree_sorted_keys_NoDup CanardTransferKindMessage _
                  (Hsorted CanardTransferKindMessage)) as N1.
    pose proof (tree_sorted_keys_NoDup CanardTransferKindRequest _
                  (Hsorted CanardTransferKindRequest)) as N2.
    pose proof (tree_sorted_keys_NoDup CanardTransferKindResponse _
                  (Hsorted CanardTransferKindResponse)) as N3.
    cbn [rx_subscriptions] in N1, N2, N3. fold ins in N1, N2, N3.
    assert (Hkind : forall k l key,
               In key (map (key_of_sub k) l) -> fst (snd key) = k).
    { intros k l key Hin. apply in_map_iff in Hin as (s & <- & _).
      reflexivity. }
    apply NoDup_app; [exact N1| |].
    - apply NoDup_app; [exact N2|exact N3|].
      intros key H2 H3. apply Hkind in H2, H3. congruence.
    - intros key H1 H23. apply Hkind in H1. apply in_app_iff in H23 as [H|H];
        apply Hkind in H; congruence. }
  assert (Hnd_keys : NoDup (session_keys t)).
  { exact (NoDup_map_inv fst _ Hnd). }
  rewrite <- Hlen. unfold session_keys in *.
  rewrite <- (length_map session_key (rx_sessions t)).
  apply Nat.le_antisymm; apply NoDup_incl_length; try assumption;
    intros key Hin; now apply Hall.
Qed.

(** X13: Over the life of a transport, sessions and subscriptions stay in
    step: the port counters are the sizes of the subscription trees,
    there are as many live sessions as ports counted, every live session
    finds its port subscribed by a subscription that refers back to it,
    and every subscription refers to a live session of its kind and
    port. *)
Theorem sessions_match_subscriptions (t : TransportImpl) :
  reachable t ->
  ports_accounted t
  /\ length (rx_sessions t)
     = (total_message_ports t + total_service_ports t)%nat
  /\ (forall s,
         In s (rx_sessions t) ->
         exists sub,
           tree_search (session_port s)
                       (rx_subscriptions (canard_instance t) (session_kind s))
           = Some sub
           /\ user_reference sub = session_ref s)
  /\ (forall k sub,
         In sub (rx_subscriptions (canard_instance t) k) ->
         exists s,
           In s (rx_sessions t) /\ session_ref s = user_reference sub
           /\ session_kind s = k /\ session_port s = sub_port_id sub).
Proof.
  intros Hr.
  pose proof (reachable_sorted t Hr) as Hsorted.
  pose proof (reachable_consistent t Hr) as Hc.
  split; [exact (proj1 Hc)|]. split; [now apply sessions_counted|].
  destruct Hc as (_ & Hsess & Hlive & _). split.
  - intros s Hin. apply Hsess. apply session_key_in. now exists s.
  - intros k sub Hin. apply session_key_in. now apply Hlive.
Qed.











End Sessions.

Section Lifetime.

Context {World : Type}.
Context {media_interface : IMedia World}.
Context {canard : Canard World}.
Context {memory : MemoryResource World}.

Lemma tree_remove_insert (s : CanardRxSubscription)
      (tree : list CanardRxSubscription) :
  tree_search (sub_port_id s) tree = None ->
  tree_remove (sub_port_id s) (tree_insert s tree) = tree.
Proof.
  induction tree as [|x rest IH]; cbn [tree_search tree_insert tree_remove].
  - intros _. now rewrite Z.eqb_refl.
  - destruct (sub_port_id x =? sub_port_id s) eqn:Hx; [discriminate|].
    intros Hnone. destruct (sub_port_id s <? sub_port_id x).
    + cbn [tree_remove]. now rewrite Z.eqb_refl.
    + rewrite Z.eqb_sym, Hx. cbn [tree_remove]. rewrite Hx.
      now rewrite (IH Hnone).
Qed.

Lemma set_rx_subscriptions_back (ins : CanardInstance)
      (k : CanardTransferKind) (l : list CanardRxSubscription) :
  set_rx_subscriptions (set_rx_subscriptions ins k l) k
                       (rx_subscriptions ins k)
  = ins.
Proof. destruct ins, k; reflexivity. Qed.

Lemma remove_session_fresh (ref : SessionRef) (l : list RxSession) :
  Forall (fun s => (session_ref s < ref)%nat) l ->
  remove_session ref l = l.
Proof.
  unfold remove_session. induction 1 as [|s rest Hs Hrest IH]; [reflexivity|].
  cbn [filter]. rewrite (proj2 (Nat.eqb_neq _ _)) by lia. cbn [negb].
  now rewrite IH.
Qed.

(** X16: Destroying a session right after it was made gives the transport its
    subscriptions, its sessions and its port counters back; only the
    request to reconfigure the filters stays. *)
Theorem delete_undoes_make
        (k : CanardTransferKind) (params : RxParams) (t t' : TransportImpl)
        (ref : SessionRef) (w w' : World) :
  reachable t ->
  result_of (makeRxSession k params t w) = (Value ref, t') ->
  let t'' := result_of (RxSession_delete ref t' w') in
  canard_instance t'' = canard_instance t
  /\ rx_sessions t'' = rx_sessions t
  /\ total_message_ports t'' = total_message_ports t
  /\ total_service_ports t'' = total_service_ports t
  /\ media_array t'' = media_array t
  /\ should_reconfigure_filters t'' = true.
Proof.
  intros Hr Hmake. cbv zeta.
  destruct (reachable_consistent t Hr) as (_ & _ & _ & _ & Hlt).
  rewrite makeRxSession_cases in Hmake. cbv zeta in Hmake.
  destruct (tree_search (rx_port_id params)
                        (rx_subscriptions (canard_instance t) k)) eqn:Hs;
    [discriminate|].
  destruct (port_id_max k <? rx_port_id params); [discriminate|].
  destruct (fst (allocate AllocSession w)); [|discriminate].
  cbn [result_of fst] in Hmake. injection Hmake as <- <-.
  set (sub := mkSubscription _ _ _ _) in *.
  change (rx_port_id params) with (sub_port_id sub) in Hs.
  rewrite RxSession_delete_cases.
  destruct (triggerUpdateOfFilters_sessions
              (port_added k)
              (set_rx_sessions
                 (set_canard_instance
                    t (set_rx_subscriptions
                         (canard_instance t) k
                         (tree_insert
                            sub (rx_subscriptions (canard_instance t) k))))
                 (mkRxSession (next_session_ref t) k (rx_port_id params)
                              (extent_bytes params) None None
                  :: rx_sessions t) (S (next_session_ref t))))
    as (Hsessions & Hnext & Hmedia & _).
  rewrite Hsessions, Hnext, triggerUpdateOfFilters_instance.
  cbn [rx_sessions set_rx_sessions set_canard_instance canard_instance
       next_session_ref].
  unfold find_session. cbn [find session_ref].
  rewrite Nat.eqb_refl. cbn [session_kind session_port result_of fst].
  unfold canardRxUnsubscribe. rewrite rx_subscriptions_set_same.
  change (rx_port_id params) with (sub_port_id sub).
  destruct (tree_search_insert_same sub _ Hs) as (Hfound & _ & _).
  rewrite Hfound. cbn [snd]. rewrite (tree_remove_insert sub _ Hs).
  rewrite set_rx_subscriptions_back.
  assert (Hfresh : remove_session
                     (next_session_ref t)
                     (mkRxSession (next_session_ref t) k (sub_port_id sub)
                                  (extent_bytes params) None None
                      :: rx_sessions t)
                   = rx_sessions t).
  { unfold remove_session. cbn [filter session_ref].
    rewrite Nat.eqb_refl. cbn [negb]. apply remove_session_fresh.
    unfold session_keys in Hlt. rewrite Forall_map in Hlt. exact Hlt. }
  rewrite Hfresh.
  destruct t as [ins media flag tm ts sessions next].
  destruct k; cbn; repeat split; lia.
Qed.

(** X17: A session that cannot be made leaves no trace: the transport is as
    it was and nothing is logged; a port above the maximum of its kind is
    always refused; and a session that is made is subscribed to its port
    with the extent asked for, the default transfer-id timeout and a
    reference back to itself. *)
Theorem makeRxSession_fails_cleanly
        (k : CanardTransferKind) (params : RxParams) (t : TransportImpl)
        (w : World) :
  let r := makeRxSession k params t w in
  (forall e,
      fst (result_of r) = Failure e ->
      snd (result_of r) = t /\ events_of r = []
      /\ (e = AlreadyExistsError \/ e = ArgumentError \/ e = MemoryError))
  /\ (port_id_max k < rx_port_id params ->
      exists e, fst (result_of r) = Failure e)
  /\ (forall ref,
         fst (result_of r) = Value ref ->
         ref = next_session_ref t
         /\ tree_search (rx_port_id params)
                        (rx_subscriptions
                           (canard_instance (snd (result_of r))) k)
            = Some (mkSubscription (rx_port_id params) (extent_bytes params)
                                   CANARD_DEFAULT_TRANSFER_ID_TIMEOUT_USEC
                                   ref)
         /\ find_session ref (rx_sessions (snd (result_of r)))
            = Some (mkRxSession ref k (rx_port_id params)
                                (extent_bytes params) None None)).
Proof.
  cbv zeta. rewrite makeRxSession_cases. cbv zeta.
  destruct (tree_search (rx_port_id params)
                        (rx_subscriptions (canard_instance t) k)) eqn:Hs.
  { cbn. split; [|split].
    - intros e [= <-]. auto.
    - intros _. now exists AlreadyExistsError.
    - discriminate. }
  destruct (port_id_max k <? rx_port_id params) eqn:Hmax.
  { cbn. split; [|split].
    - intros e [= <-]. auto.
    - intros _. now exists ArgumentError.
    - discriminate. }
  apply Z.ltb_ge in Hmax.
  destruct (fst (allocate AllocSession w)).
  - cbn [result_of events_of fst snd]. split; [discriminate|].
    split; [lia|]. intros ref [= <-]. split; [reflexivity|].
    rewrite triggerUpdateOfFilters_instance.
    destruct (triggerUpdateOfFilters_sessions
                (port_added k)
                (set_rx_sessions
                   (set_canard_instance
                      t (set_rx_subscriptions
                           (canard_instance t) k
                           (tree_insert
                              (mkSubscription
                                 (rx_port_id params) (extent_bytes params)
                                 CANARD_DEFAULT_TRANSFER_ID_TIMEOUT_USEC
                                 (next_session_ref t))
                              (rx_subscriptions (canard_instance t) k))))
                   (mkRxSession (next_session_ref t) k (rx_port_id params)
                                (extent_bytes params) None None
                    :: rx_sessions t) (S (next_session_ref t))))
      as (-> & _).
    cbn [canard_instance set_rx_sessions set_canard_instance rx_sessions].
    rewrite rx_subscriptions_set_same. split.
    + exact (proj1 (tree_search_insert_same
                      (mkSubscription
                         (rx_port_id params) (extent_bytes params)
                         CANARD_DEFAULT_TRANSFER_ID_TIMEOUT_USEC
                         (next_session_ref t)) _ Hs)).
    + unfold find_session. cbn [find session_ref]. now rewrite Nat.eqb_refl.
  - cbn. split; [|split].
    + intros e [= <-]. auto.
    + lia.
    + discriminate.
Qed.

End Lifetime.

Section Identity.

Context {World : Type}.
Context {media_interface : IMedia World}.
Context {canard : Canard World}.
Context {memory : MemoryResource World}.

Lemma set_rx_subscriptions_node_id (ins : CanardInstance)
      (k : CanardTransferKind) (l : list CanardRxSubscription) :
  node_id (set_rx_subscriptions ins k l) = node_id ins.
Proof. now destruct k. Qed.

Lemma makeRxSession_node_id (k : CanardTransferKind) (params : RxParams)
      (t : TransportImpl) (w : World) :
  node_id (canard_instance (snd (result_of (makeRxSession k params t w))))
  = node_id (canard_instance t).
Proof.
  rewrite makeRxSession_cases. cbv zeta.
  destruct (tree_search _ _); [reflexivity|].
  destruct (_ <? _); [reflexivity|].
  destruct (fst (allocate AllocSession w)); [|reflexivity].
  cbn [result_of fst snd]. rewrite triggerUpdateOfFilters_instance.
  cbn [canard_instance set_rx_sessions set_canard_instance].
  apply set_rx_subscriptions_node_id.
Qed.

(** No operation but [setLocalNodeId] writes the node id. *)
Lemma apply_op_node_id (op : Op) (t : TransportImpl) (w : World) :
  (forall id, op <> OpSetLocalNodeId id) ->
  node_id (canard_instance (result_of (apply_op op t w)))
  = node_id (canard_instance t).
Proof.
  intros Hop.
  destruct op as [id|params|params|params|port|port|port|ref|ref|ref f
                  |ref timeout|deadline metadata fragments|now];
    cbn [apply_op].
  - now destruct (Hop id).
  - unfold makeMessageRxSession. rewrite bind_result_of.
    apply makeRxSession_node_id.
  - unfold makeRequestRxSession. rewrite bind_result_of.
    apply makeRxSession_node_id.
  - unfold makeResponseRxSession. rewrite bind_result_of.
    apply makeRxSession_node_id.
  - unfold makeMessageTxSession. rewrite bind_result_of.
    cbn [ret result_of fst].
    fold (result_of (makeTxSession CanardTransferKindMessage port t w)).
    now rewrite makeTxSession_unchanged.
  - unfold makeRequestTxSession. rewrite bind_result_of.
    cbn [ret result_of fst].
    fold (result_of (makeTxSession CanardTransferKindRequest port t w)).
    now rewrite makeTxSession_unchanged.
  - unfold makeResponseTxSession. rewrite bind_result_of.
    cbn [ret result_of fst].
    fold (result_of (makeTxSession CanardTransferKindResponse port t w)).
    now rewrite makeTxSession_unchanged.
  - rewrite RxSession_delete_cases.
    destruct (find_session ref (rx_sessions t)) as [s|]; [|reflexivity].
    cbn [result_of fst]. rewrite triggerUpdateOfFilters_instance.
    cbn [canard_instance set_rx_sessions set_canard_instance].
    unfold canardRxUnsubscribe. destruct (tree_search _ _); [|reflexivity].
    cbn [snd]. apply set_rx_subscriptions_node_id.
  - unfold receive. cbn [result_of ret fst].
    now destruct (find_session ref (rx_sessions t)).
  - reflexivity.
  - cbn [result_of ret fst]. unfold setTransferIdTimeout.
    destruct (find_session ref (rx_sessions t)) as [s|]; [|reflexivity].
    destruct (0 <=? timeout); [|reflexivity].
    cbn [canard_instance set_canard_instance].
    apply set_rx_subscriptions_node_id.
  - rewrite bind_result_of. cbn [ret result_of fst].
    rewrite sendTransfer_cases. cbv zeta.
    now destruct (out_of_payload_memory fragments w).
  - now destruct (run_spec now t w) as (_ & -> & _).
Qed.

(** X19: The node id is written once: when the transport has a node id, no
    operation on the transport or on its sessions changes it. *)
Theorem node_id_is_set_once
        (t : TransportImpl) (n : NodeId) (op : Op) (w : World) :
  getLocalNodeId t = Some n ->
  getLocalNodeId (result_of (apply_op op t w)) = Some n.
Proof.
  intros Hn.
  assert (Hsame : forall t',
             node_id (canard_instance t') = node_id (canard_instance t) ->
             getLocalNodeId t' = Some n).
  { intros t' H. unfold getLocalNodeId in *. now rewrite H. }
  destruct op as [id|params|params|params|port|port|port|ref|ref|ref f
                  |ref timeout|deadline metadata fragments|now];
    try (apply Hsame, apply_op_node_id; discriminate).
  cbn [apply_op result_of ret fst]. unfold setLocalNodeId.
  destruct (CANARD_NODE_ID_MAX <? id); [exact Hn|].
  destruct (node_id (canard_instance t) =? id); [exact Hn|].
  destruct (node_id (canard_instance t) =? CANARD_NODE_ID_UNSET) eqn:H255;
    [|exact Hn].
  apply Z.eqb_eq in H255. unfold getLocalNodeId in Hn. rewrite H255 in Hn.
  discriminate.
Qed.

(** X20: [getLocalNodeId] reads back what the factory or [setLocalNodeId]
    stored: the id given, and nothing for an anonymous node. *)
Theorem getLocalNodeId_reads_back (n : NodeId) :
  0 <= n ->
  (forall media tx_capacity w t,
      result_of (make media tx_capacity (Some n) w) = Value t ->
      getLocalNodeId t = Some n)
  /\ (forall media tx_capacity w t,
         result_of (make media tx_capacity None w) = Value t ->
         getLocalNodeId t = None)
  /\ (forall t,
         fst (setLocalNodeId n t) = None ->
         getLocalNodeId (snd (setLocalNodeId n t)) = Some n).
Proof.
  intros Hn. split; [|split].
  - intros media tx_capacity w t Hmake.
    pose proof (make_cases media tx_capacity (Some n) w) as Hcases.
    cbv zeta in Hcases. rewrite Hmake in Hcases.
    cbn [node_id_out_of_range] in Hcases.
    destruct (CANARD_NODE_ID_MAX <? n) eqn:Hmax.
    { rewrite !orb_true_r in Hcases. discriminate. }
    destruct (_ || _); [discriminate|].
    destruct (_ && _); [|discriminate].
    injection Hcases as ->. unfold getLocalNodeId, TransportImpl_new.
    cbn [canard_instance node_id].
    assert (Hid : to_uint8 n = n).
    { apply Z.ltb_ge in Hmax. unfold CANARD_NODE_ID_MAX in Hmax.
      apply to_uint8_small. unfold uint8_max. lia. }
    now rewrite Hid, Hmax.
  - intros media tx_capacity w t Hmake.
    pose proof (make_cases media tx_capacity None w) as Hcases.
    cbv zeta in Hcases. rewrite Hmake in Hcases.
    destruct (_ || _); [discriminate|].
    destruct (_ && _); [|discriminate].
    injection Hcases as ->. reflexivity.
  - intros t. unfold setLocalNodeId.
    destruct (CANARD_NODE_ID_MAX <? n) eqn:Hmax; [discriminate|].
    destruct (node_id (canard_instance t) =? n) eqn:Hsame.
    + intros _. cbn [snd]. unfold getLocalNodeId.
      apply Z.eqb_eq in Hsame. now rewrite Hsame, Hmax.
    + destruct (negb _); [discriminate|]. intros _. cbn [snd].
      assert (Hid : to_uint8 n = n).
      { apply Z.ltb_ge in Hmax. unfold CANARD_NODE_ID_MAX in Hmax.
        apply to_uint8_small. unfold uint8_max. lia. }
      unfold getLocalNodeId.
      destruct (0 <? _)%nat; cbn [canard_instance set_canard_instance
                                  set_should_reconfigure_filters
                                  set_node_id node_id];
        rewrite Hid, Hmax; reflexivity.
Qed.

(** The loop of [getProtocolParams] yields the least value among its
    start and the MTUs of the media. *)
Lemma min_mtu_loop_spec (media : list Media) (start : Z) (w : World) :
  min_mtu_loop media start w <= start
  /\ Forall (fun m => min_mtu_loop media start w
                      <= Z.of_nat (getMtu (interface m) w)) media
  /\ (min_mtu_loop media start w = start
      \/ exists m, In m media
                   /\ min_mtu_loop media start w
                      = Z.of_nat (getMtu (interface m) w)).
Proof.
  revert start. induction media as [|m rest IH]; intros start.
  - cbn. split; [lia|]. split; [constructor|now left].
  - cbn [min_mtu_loop].
    destruct (IH (Z.min start (Z.of_nat (getMtu (interface m) w))))
      as (Hle & Hall & Hwho).
    split; [lia|]. split.
    + constructor; [lia|exact Hall].
    + destruct Hwho as [Heq|(m' & Hin & Heq)].
      * destruct (Z.min_spec start (Z.of_nat (getMtu (interface m) w)))
          as [[_ Hmin]|[_ Hmin]]; rewrite Hmin in Heq |- *.
        -- now left.
        -- right. exists m. split; [now left|exact Heq].
      * right. exists m'. split; [now right|exact Heq].
Qed.

(** X21: [getProtocolParams] reports the smallest MTU among the media of the
    transport, 32 transfer ids and 128 nodes. *)
Theorem getProtocolParams_least_mtu (t : TransportImpl) (w : World) :
  media_array t <> [] ->
  Forall (fun m => Z.of_nat (getMtu (interface m) w) <= size_t_max)
         (media_array t) ->
  let params := getProtocolParams t w in
  transfer_id_modulo params = 32
  /\ max_nodes params = 128
  /\ Forall (fun m => pp_mtu_bytes params
                      <= Z.of_nat (getMtu (interface m) w)) (media_array t)
  /\ exists m, In m (media_array t)
               /\ pp_mtu_bytes params = Z.of_nat (getMtu (interface m) w).
Proof.
  intros Hmedia Hfit. cbv zeta. unfold getProtocolParams.
  cbn [transfer_id_modulo max_nodes pp_mtu_bytes].
  destruct (min_mtu_loop_spec (media_array t) size_t_max w)
    as (Hle & Hall & Hwho).
  split; [reflexivity|]. split; [reflexivity|]. split; [exact Hall|].
  destruct Hwho as [Heq|Hm]; [|exact Hm].
  destruct (media_array t) as [|m rest]; [congruence|].
  exists m. split; [now left|].
  inversion Hall; subst. inversion Hfit; subst. lia.
Qed.

(** X22: A deadline keeps its value on the way through the queue, where it is
    held as an unsigned count of microseconds: a frame queued with a
    deadline is dropped by the run whose clock has reached that deadline,
    and otherwise pushed with that very deadline. *)
Theorem deadline_survives_the_queue
        (deadline now : TimePoint) (fr : CanardFrame) (idx : Z)
        (iface : IMediaRef) (w : World) :
  - 2 ^ 63 <= deadline < 2 ^ 63 ->
  let tx_item := mkTxItem (to_uint64 deadline) fr in
  deadline_of tx_item = deadline
  /\ (deadline <= now ->
      drain now idx iface [tx_item] w = ([], w, [EvFreeTxItem idx tx_item]))
  /\ (now < deadline ->
      exists answer tail,
        events_of (drain now idx iface [tx_item] w)
        = EvMediaPush idx iface deadline (extended_can_id fr) (payload fr)
                      answer :: tail).
Proof.
  intros Hrange. cbv zeta.
  assert (Hd : deadline_of (mkTxItem (to_uint64 deadline) fr) = deadline).
  { unfold deadline_of, to_int64, to_uint64. cbn [tx_deadline_usec].
    rewrite Zplus_mod_idemp_l. rewrite Z.mod_small; lia. }
  split; [exact Hd|]. split.
  - intros Hexp. rewrite drain_expired by (rewrite Hd; lia). reflexivity.
  - intros Hin. pose proof (drain_in_time now idx iface
                              (mkTxItem (to_uint64 deadline) fr) [] w) as H.
    rewrite Hd in H. specialize (H Hin). cbv zeta in H. rewrite H.
    cbn [frame]. unfold push_event. rewrite Hd. cbn [frame].
    destruct (fst (push iface deadline (extended_can_id fr) (payload fr) w))
      as [[|]|err]; cbn [events_of snd]; eauto.
Qed.

End Identity.

Section Filters.

Context {World : Type}.
Context {media_interface : IMedia World}.
Context {canard : Canard World}.
Context {memory : MemoryResource World}.

(** The loop over the media calls [setFilters] once per media, in
    order, with the same filters, and remembers a refusal. *)
Lemma setFilters_loop_spec (media : list Media) (filters : list Filter)
      (was_error : bool) (w : World) :
  let r := setFilters_loop media filters was_error w in
  result_of r = was_error || existsb filters_refused (events_of r)
  /\ Forall2 (fun m e =>
                exists answer,
                  e = EvSetFilters (index m) (interface m) filters answer)
             media (events_of r).
Proof.
  cbv zeta. revert was_error w.
  induction media as [|m rest IH]; intros was_error w.
  - cbn. rewrite orb_false_r. split; [reflexivity|constructor].
  - cbn [setFilters_loop]. unfold call_setFilters. run_eff.
    destruct (setFilters (interface m) filters w) as [maybe_error w1].
    cbn [fst snd].
    match goal with
    | |- context [setFilters_loop rest filters ?b w1] =>
        specialize (IH b w1);
        destruct (setFilters_loop rest filters b w1) as [[x w2] e2]
    end.
    cbn [fst snd app existsb] in *. destruct IH as [-> IH]. split.
    + destruct maybe_error; cbn [filters_refused];
        now rewrite ?orb_true_r, ?orb_false_l.
    + constructor; [now exists maybe_error|exact IH].
Qed.

(** [runMediaFilters] by cases. *)
Lemma runMediaFilters_cases (t : TransportImpl) (w : World) :
  let n := active_ports t in
  let w1 := if (0 <? n)%nat then snd (allocate (AllocFilters n) w) else w in
  let filters :=
    if (0 <? n)%nat
    then make_filters t (CANARD_NODE_ID_MAX <? node_id (canard_instance t))
    else [] in
  let l := setFilters_loop (media_array t) filters false w1 in
  runMediaFilters t w
  = if negb (should_reconfigure_filters t) then (t, w, [])
    else if filters_memory_granted t w
    then (if result_of l then t else set_should_reconfigure_filters t false,
          if (0 <? n)%nat then deallocate (AllocFilters n) (world_of l)
          else world_of l,
          events_of l)
    else (t, w1, []).
Proof.
  cbv zeta. unfold runMediaFilters, filters_memory_granted.
  destruct (should_reconfigure_filters t); cbn [negb]; [|reflexivity].
  fold (active_ports t). run_eff.
  destruct (0 <? active_ports t)%nat eqn:Hpos.
  - assert (Hz : (active_ports t =? 0)%nat = false).
    { apply Nat.ltb_lt in Hpos. apply Nat.eqb_neq. lia. }
    rewrite Hz. cbn [orb].
    destruct (allocate (AllocFilters (active_ports t)) w) as [reserved w1].
    cbn [fst snd]. destruct reserved; [|reflexivity].
    destruct (setFilters_loop _ _ false w1) as [[was_error w2] e2].
    cbn [fst snd]. rewrite !app_nil_r. now destruct was_error.
  - assert (Hz : (active_ports t =? 0)%nat = true).
    { apply Nat.ltb_ge in Hpos. apply Nat.eqb_eq. lia. }
    rewrite Hz. cbn [orb].
    destruct (setFilters_loop _ _ false w) as [[was_error w2] e2].
    cbn [fst snd]. rewrite !app_nil_r. now destruct was_error.
Qed.

(** With the counters right, the filters built are one per active
    subscription. *)
Lemma accounted_filters (t : TransportImpl) :
  ports_accounted t ->
  (if (0 <? active_ports t)%nat
   then make_filters t (CANARD_NODE_ID_MAX <? node_id (canard_instance t))
   else [])
  = filters_of_subscriptions t
  /\ length (filters_of_subscriptions t) = active_ports t.
Proof.
  intros [Hm Hs]. unfold make_filters, filters_of_subscriptions.
  assert (Hactive : active_ports t
                    = (total_message_ports t
                       + (if (CANARD_NODE_ID_MAX
                              <? node_id (canard_instance t))%Z
                          then 0 else total_service_ports t))%nat)
    by reflexivity.
  set (anon := CANARD_NODE_ID_MAX <? node_id (canard_instance t)) in *.
  assert (Hmsg : (if (0 <? total_message_ports t)%nat
                  then map (fun s => canardMakeFilterForSubject (sub_port_id s))
                           (subs_message (canard_instance t))
                  else [])
                 = map (fun s => canardMakeFilterForSubject (sub_port_id s))
                       (subs_message (canard_instance t))).
  { destruct (0 <? total_message_ports t)%nat eqn:H; [reflexivity|].
    apply Nat.ltb_ge in H.
    destruct (subs_message (canard_instance t)); [reflexivity|].
    cbn in Hm. lia. }
  assert (Hsvc : (if (0 <? total_service_ports t)%nat && negb anon
                  then map (fun s => canardMakeFilterForService
                                       (sub_port_id s)
                                       (node_id (canard_instance t)))
                           (subs_request (canard_instance t)
                            ++ subs_response (canard_instance t))
                  else [])
                 = if anon then []
                   else map (fun s => canardMakeFilterForService
                                        (sub_port_id s)
                                        (node_id (canard_instance t)))
                            (subs_request (canard_instance t)
                             ++ subs_response (canard_instance t))).
  { destruct anon; [now rewrite andb_false_r|]. rewrite andb_true_r.
    destruct (0 <? total_service_ports t)%nat eqn:H; [reflexivity|].
    apply Nat.ltb_ge in H.
    destruct (subs_request (canard_instance t)),
             (subs_response (canard_instance t)); cbn in *;
      try reflexivity; lia. }
  split.
  - destruct (0 <? active_ports t)%nat eqn:Hpos; [now rewrite Hmsg, Hsvc|].
    apply Nat.ltb_ge in Hpos. rewrite Hactive in Hpos.
    destruct anon.
    + destruct (subs_message (canard_instance t)); [reflexivity|].
      cbn in Hm. lia.
    + destruct (subs_message (canard_instance t)),
               (subs_request (canard_instance t)),
               (subs_response (canard_instance t)); cbn in *;
        try reflexivity; lia.
  - rewrite Hactive, length_app, length_map, <- Hm.
    destruct anon; [reflexivity|].
    now rewrite length_map, length_app, <- Hs.
Qed.

(** X23: When the filters are to be reconfigured and the buffer for them is
    obtained, every media is handed, once and in the order of the media,
    the same filters: one per subscribed subject and, unless the node is
    anonymous, one per subscribed service; their number is the number of
    active ports that the buffer was reserved for. *)
Theorem runMediaFilters_hands_every_media_the_filters
        (t : TransportImpl) (w : World) :
  reachable t ->
  should_reconfigure_filters t = true ->
  filters_memory_granted t w = true ->
  Forall2 (fun m e =>
             exists answer,
               e = EvSetFilters (index m) (interface m)
                                (filters_of_subscriptions t) answer)
          (media_array t) (events_of (runMediaFilters t w))
  /\ length (filters_of_subscriptions t) = active_ports t.
Proof.
  intros Hr Hflag Hmem.
  destruct (accounted_filters t (proj1 (reachable_consistent t Hr)))
    as [Hfilters Hlen].
  split; [|exact Hlen].
  rewrite runMediaFilters_cases. cbv zeta. rewrite Hflag, Hmem. cbn [negb].
  rewrite Hfilters. cbn [events_of snd].
  match goal with
  | |- context [setFilters_loop ?m ?f ?b ?w0] =>
      exact (proj2 (setFilters_loop_spec m f b w0))
  end.
Qed.

(** X24: [runMediaFilters] changes nothing but the flag, does nothing at all
    while the flag is down, calls no media when it gets no buffer, and
    leaves the flag up exactly when it was up and the buffer was refused
    or a media refused the filters: the reconfiguration is tried again on
    the next run. *)
Theorem runMediaFilters_retries_until_accepted
        (t : TransportImpl) (w : World) :
  let r := runMediaFilters t w in
  result_of r
  = set_should_reconfigure_filters t (should_reconfigure_filters (result_of r))
  /\ should_reconfigure_filters (result_of r)
     = should_reconfigure_filters t
       && (negb (filters_memory_granted t w)
           || existsb filters_refused (events_of r))
  /\ (should_reconfigure_filters t = false -> r = (t, w, []))
  /\ (filters_memory_granted t w = false -> events_of r = []).
Proof.
  cbv zeta. rewrite runMediaFilters_cases. cbv zeta.
  destruct (should_reconfigure_filters t) eqn:Hflag; cbn [negb andb].
  - destruct (filters_memory_granted t w); cbn [negb orb].
    + match goal with
      | |- context [setFilters_loop ?m ?f ?b ?w0] =>
          destruct (setFilters_loop_spec m f b w0) as [Hres _];
          cbv zeta in Hres; cbn [orb] in Hres; rewrite Hres
      end.
      cbn [result_of events_of fst snd].
      destruct (existsb filters_refused _); cbn.
      * rewrite Hflag. repeat split; try discriminate.
        destruct t; cbn in *; now subst.
      * repeat split; discriminate.
    + cbn. rewrite Hflag. repeat split; try discriminate.
      destruct t; cbn in *; now subst.
  - cbn. rewrite Hflag. repeat split. destruct t; cbn in *; now subst.
Qed.

Lemma receive_media_events (m : Media) (t : TransportImpl) (w : World) :
  exists delivered,
    events_of (receive_media m t w)
    = EvMediaPop (index m) (interface m) :: delivered
    /\ Forall (fun e => exists s f tr, e = EvOnReceive s f tr) delivered.
Proof.
  unfold receive_media, call_pop. run_eff.
  destruct (pop (interface m) w) as [pop_result w1].
  destruct pop_result as [[[rx_meta buffer]|]|err]; cbn [fst snd app];
    try (exists []; split; [reflexivity|constructor]).
  destruct (canardRxAccept _ _ _ _ w1) as [[[result out] [k port]] w2].
  cbn [fst snd]. destruct (0 <? result); cbn [fst snd app];
    try (exists []; split; [reflexivity|constructor]).
  destruct (tree_search port (rx_subscriptions (canard_instance t) k))
    as [sub|]; cbn [fst snd app];
    try (exists []; split; [reflexivity|constructor]).
  assert (Hd : Forall (fun e => exists s f tr, e = EvOnReceive s f tr)
                      (events_of (deliver (user_reference sub) out
                                          (rx_sessions t) w2))).
  { generalize (rx_sessions t). intros l.
    induction l as [|s rest IH]; [constructor|].
    cbn [deliver]. destruct (session_ref s =? user_reference sub)%nat.
    - unfold acceptRxTransfer. destruct (on_receive_cb_fn s); run_eff;
        repeat constructor. eauto.
    - run_eff.
      destruct (deliver (user_reference sub) out rest w2) as [[r1 w3] e1].
      cbn [fst snd] in *. now rewrite app_nil_r. }
  unfold events_of in Hd.
  destruct (deliver (user_reference sub) out (rx_sessions t) w2)
    as [[sessions w3] ev].
  cbn [fst snd] in *. rewrite app_nil_r. now exists ev.
Qed.

Lemma runMediaReceive_loop_events (media : list Media) (t : TransportImpl)
      (w : World) :
  filter is_pop (events_of (runMediaReceive_loop media t w))
  = map (fun m => EvMediaPop (index m) (interface m)) media
  /\ Forall (fun e => is_pop e = true \/ exists s f tr, e = EvOnReceive s f tr)
            (events_of (runMediaReceive_loop media t w)).
Proof.
  revert t w. induction media as [|m rest IH]; intros t w.
  - split; [reflexivity|constructor].
  - cbn [runMediaReceive_loop]. rewrite bind_events_of.
    destruct (receive_media_events m t w) as (delivered & -> & Hd).
    destruct (IH (result_of (receive_media m t w))
                 (world_of (receive_media m t w))) as [IH1 IH2].
    split.
    + cbn [app filter is_pop map]. rewrite filter_app, IH1. f_equal.
      replace (filter is_pop delivered) with (@nil Event); [reflexivity|].
      clear -Hd. induction Hd as [|e l (s & f & tr & ->) _ IH];
        [reflexivity|exact IH].
    + cbn [app]. constructor; [now left|].
      apply Forall_app. split; [|exact IH2].
      eapply Forall_impl; [|exact Hd]. intros e H. now right.
Qed.

(** X25: One run polls every media exactly once, in the order of the media;
    besides, the only calls that leave the transport are those of the
    callbacks of sessions. Receiving changes no session's identity or
    subscription, and nothing else of the transport. *)
Theorem runMediaReceive_polls_every_media_once
        (t : TransportImpl) (w : World) :
  let r := runMediaReceive t w in
  filter is_pop (events_of r)
  = map (fun m => EvMediaPop (index m) (interface m)) (media_array t)
  /\ Forall (fun e => is_pop e = true \/ exists s f tr, e = EvOnReceive s f tr)
            (events_of r)
  /\ exists sessions,
      result_of r = set_rx_sessions t sessions (next_session_ref t)
      /\ map session_key sessions = session_keys t.
Proof.
  cbv zeta. unfold runMediaReceive.
  destruct (runMediaReceive_loop_events (media_array t) t w) as [H1 H2].
  split; [exact H1|]. split; [exact H2|].
  apply runMediaReceive_loop_sessions.
Qed.

End Filters.

Section Timeout.

Context {World : Type}.
Context {media_interface : IMedia World}.
Context {canard : Canard World}.
Context {memory : MemoryResource World}.

Lemma tree_search_set_timeout (port port' : PortId) (timeout : Z)
      (tree : list CanardRxSubscription) :
  tree_search port' (set_timeout port timeout tree)
  = if port' =? port
    then option_map (fun s => mkSubscription (sub_port_id s) (extent s)
                                             timeout (user_reference s))
                    (tree_search port' tree)
    else tree_search port' tree.
Proof.
  induction tree as [|x rest IH]; [now destruct (port' =? port)|].
  cbn [set_timeout map tree_search]. fold (set_timeout port timeout rest).
  destruct (sub_port_id x =? port) eqn:Hx; cbn [sub_port_id].
  - apply Z.eqb_eq in Hx. destruct (sub_port_id x =? port') eqn:Hx'.
    + apply Z.eqb_eq in Hx'.
      now rewrite (proj2 (Z.eqb_eq port' port)) by congruence.
    + exact IH.
  - destruct (sub_port_id x =? port') eqn:Hx'; [|exact IH].
    apply Z.eqb_eq in Hx'. apply Z.eqb_neq in Hx.
    now rewrite (proj2 (Z.eqb_neq port' port)) by congruence.
Qed.

(** X18: [setTransferIdTimeout] writes the timeout of the session's own
    subscription and of no other: a negative timeout is ignored, any
    other becomes the transfer-id timeout of the subscription of the
    session's port, and every other subscription, the sessions and the
    rest of the transport stay as they are. *)
Theorem setTransferIdTimeout_sets_own_timeout
        (t : TransportImpl) (ref : SessionRef) (s : RxSession)
        (timeout : Z) :
  reachable t ->
  find_session ref (rx_sessions t) = Some s ->
  let t' := setTransferIdTimeout ref timeout t in
  let tree x := rx_subscriptions (canard_instance x) (session_kind s) in
  (timeout < 0 -> t' = t)
  /\ (0 <= timeout < 2 ^ 63 ->
      exists sub,
        tree_search (session_port s) (tree t) = Some sub
        /\ user_reference sub = ref
        /\ tree_search (session_port s) (tree t')
           = Some (mkSubscription (session_port s) (extent sub) timeout ref))
  /\ (forall k port,
         (k, port) <> (session_kind s, session_port s) ->
         tree_search port (rx_subscriptions (canard_instance t') k)
         = tree_search port (rx_subscriptions (canard_instance t) k))
  /\ rx_sessions t' = rx_sessions t
  /\ media_array t' = media_array t
  /\ node_id (canard_instance t') = node_id (canard_instance t)
  /\ should_reconfigure_filters t' = should_reconfigure_filters t.
Proof.
  intros Hr Hfind. cbv zeta.
  destruct (reachable_consistent t Hr) as (_ & Hsess & _).
  pose proof (find_session_in _ _ _ Hfind) as [Hin Href].
  assert (Hkey : In (ref, (session_kind s, session_port s)) (session_keys t)).
  { apply session_key_in. now exists s. }
  destruct (Hsess _ _ _ Hkey) as (sub & Hsub & Hsubref).
  unfold setTransferIdTimeout. rewrite Hfind.
  destruct (0 <=? timeout) eqn:Hsign.
  - apply Z.leb_le in Hsign.
    cbn [canard_instance set_canard_instance rx_sessions media_array
         should_reconfigure_filters].
    split; [lia|]. split; [|split; [|split; [|split; [|split]]]];
      try reflexivity.
    + intros Hrange. exists sub. split; [exact Hsub|]. split; [exact Hsubref|].
      rewrite rx_subscriptions_set_same, tree_search_set_timeout.
      rewrite Z.eqb_refl, Hsub. cbn [option_map].
      apply tree_search_in in Hsub as [_ Hport].
      unfold to_uint64. rewrite Z.mod_small by lia. now rewrite Hport, Hsubref.
    + intros k port Hne. rewrite rx_subscriptions_set.
      destruct (kind_eqb (session_kind s) k) eqn:Hk; [|reflexivity].
      apply kind_eqb_eq in Hk. subst k.
      rewrite tree_search_set_timeout.
      destruct (port =? session_port s) eqn:Hp; [|reflexivity].
      apply Z.eqb_eq in Hp. congruence.
    + now destruct (session_kind s).
  - apply Z.leb_gt in Hsign.
    split; [reflexivity|]. split; [lia|]. repeat split; reflexivity.
Qed.

End Timeout.

End CanProofs.


Module UdpProofs.

Import Udp.

Section Factory.

Context {World : Type}.
Context {memory : MemoryResource World}.
Variable Event : Type.

Lemma udp_emplace_media_spec (media : list (option IMediaRef)) (idx : nat)
      (node : Z) (tx_capacity : nat) :
  map interface (emplace_media media idx node tx_capacity)
  = Can.non_null media
  /\ map index (emplace_media media idx node tx_capacity)
     = map (fun i => to_uint8 (Z.of_nat i))
           (seq idx (Can.count_non_null media)).
Proof.
  revert idx. unfold Can.count_non_null, Can.non_null.
  induction media as [|[x|] rest IH]; intros idx; cbn; auto.
  destruct (IH (S idx)) as [Hif Hidx]. now rewrite Hif, Hidx.
Qed.

Lemma udp_emplace_media_length (media : list (option IMediaRef)) (idx : nat)
      (node : Z) (tx_capacity : nat) :
  length (emplace_media media idx node tx_capacity)
  = Can.count_non_null media.
Proof.
  rewrite CanProofs.count_non_null_length.
  rewrite <- (proj1 (udp_emplace_media_spec media idx node tx_capacity)).
  now rewrite length_map.
Qed.

Lemma udp_emplace_media_filtered (media : list (option IMediaRef)) (idx : nat)
      (node : Z) (tx_capacity : nat) :
  emplace_media (map Some (Can.non_null media)) idx node tx_capacity
  = emplace_media media idx node tx_capacity.
Proof.
  revert idx. unfold Can.non_null.
  induction media as [|[x|] rest IH]; intros idx; cbn; auto.
  now rewrite IH.
Qed.

(** The UDP factory, one case after the other. *)
Lemma udp_make_cases (media : list (option IMediaRef)) (tx_capacity : nat)
      (w : World) :
  let count := Can.count_non_null media in
  let r := result_of (make Event media tx_capacity w) in
  let w1 := snd (allocate (AllocMediaArray count) w) in
  if (count =? 0)%nat || (3 <? count)%nat
  then r = Failure FactoryArgumentError
  else if fst (allocate (AllocMediaArray count) w)
          && fst (allocate AllocTransport w1)
  then r = Value (mkTransport
                    (emplace_media media 0 UDPARD_NODE_ID_UNSET tx_capacity)
                    UDPARD_NODE_ID_UNSET)
  else r = Failure FactoryMemoryError.
Proof.
  cbv zeta. unfold make.
  change UDPARD_NETWORK_INTERFACE_COUNT_MAX with 3%nat.
  destruct ((Can.count_non_null media =? 0)%nat
            || (3 <? Can.count_non_null media)%nat) eqn:Hcount;
    [reflexivity|].
  unfold makeMediaArray. CanProofs.run_eff.
  destruct (allocate (AllocMediaArray (Can.count_non_null media)) w)
    as [reserved w1] eqn:Hres. cbn [fst snd andb].
  destruct reserved; cbn [andb fst snd].
  - rewrite udp_emplace_media_length, Nat.eqb_refl. cbn [negb].
    destruct (allocate AllocTransport w1) as [obtained w2].
    cbn [fst]. destruct obtained; reflexivity.
  - cbn [length]. apply orb_false_iff in Hcount as [Hzero _].
    rewrite Nat.eqb_sym, Hzero. reflexivity.
Qed.

Lemma udp_make_filtered (media : list (option IMediaRef)) (tx_capacity : nat) :
  make Event (map Some (Can.non_null media)) tx_capacity
  = make Event media tx_capacity.
Proof.
  unfold make, makeMediaArray.
  now rewrite CanProofs.count_non_null_filtered, udp_emplace_media_filtered.
Qed.

Lemma udp_make_media (media : list (option IMediaRef)) (tx_capacity : nat)
      (w : World) (t : TransportImpl) :
  result_of (make Event media tx_capacity w) = Value t ->
  map interface (media_array t) = Can.non_null media
  /\ map index (media_array t)
     = map Z.of_nat (seq 0 (length (Can.non_null media))).
Proof.
  intros Hmake. pose proof (udp_make_cases media tx_capacity w) as H.
  cbv zeta in H. rewrite Hmake in H.
  destruct ((Can.count_non_null media =? 0)%nat
            || (3 <? Can.count_non_null media)%nat) eqn:Hcount;
    [discriminate|].
  match type of H with
  | if ?b then _ else _ => destruct b; [|discriminate]
  end.
  injection H as ->. cbn [media_array].
  destruct (udp_emplace_media_spec media 0 UDPARD_NODE_ID_UNSET tx_capacity)
    as [Hif Hidx].
  split; [exact Hif|].
  rewrite Hidx, <- CanProofs.count_non_null_length.
  apply CanProofs.indices_small.
  apply orb_false_iff in Hcount as [_ Hmax].
  apply Nat.ltb_ge in Hmax. lia.
Qed.

End Factory.

Section UdpNodeId.

Local Open Scope Z_scope.

(** X26: The UDP transport takes its node id once, as the CAN transport
    does, from the 16-bit range of UDP: [setLocalNodeId] succeeds exactly
    for an id in range that is the one already set or the first one; it
    then reads back through [getLocalNodeId]; a refusal is an argument
    error and changes nothing; and a node id that is set stays. *)
Theorem udp_setLocalNodeId_spec (id : NodeId) (t : TransportImpl) :
  let stored := node_id t in
  let error := fst (setLocalNodeId id t) in
  let t' := snd (setLocalNodeId id t) in
  (error = None <->
   id <= UDPARD_NODE_ID_MAX /\ (stored = UDPARD_NODE_ID_UNSET \/ stored = id))
  /\ (error = None -> getLocalNodeId t' = Some id)
  /\ (error <> None -> error = Some ArgumentError /\ t' = t)
  /\ (forall n, getLocalNodeId t = Some n -> getLocalNodeId t' = Some n)
  /\ map interface (media_array t') = map interface (media_array t)
  /\ map tx_socket_ptr (media_array t') = map tx_socket_ptr (media_array t).
Proof.
  cbv zeta. unfold setLocalNodeId, getLocalNodeId.
  destruct (UDPARD_NODE_ID_MAX <? id) eqn:Hmax.
  { apply Z.ltb_lt in Hmax. cbn [fst snd].
    split; [|split; [|split; [|split; [|split]]]];
      try discriminate; auto.
    split; [discriminate|]. intros [H _]. lia. }
  destruct (node_id t =? id) eqn:Hsame.
  { apply Z.eqb_eq in Hsame. cbn [fst snd]. rewrite Hsame, Hmax.
    apply Z.ltb_ge in Hmax.
    split; [|split; [|split; [|split; [|split]]]]; auto.
    - split; auto.
    - intros H. now destruct H. }
  apply Z.eqb_neq in Hsame.
  destruct (node_id t =? UDPARD_NODE_ID_UNSET) eqn:Hunset; cbn [negb fst snd].
  - apply Z.eqb_eq in Hunset. cbn [node_id media_array].
    rewrite Hmax, Hunset. apply Z.ltb_ge in Hmax.
    split; [|split; [|split; [|split; [|split]]]]; auto.
    + split; auto.
    + intros H. now destruct H.
    + intros n. cbn. discriminate.
    + rewrite map_map. reflexivity.
    + rewrite map_map. reflexivity.
  - apply Z.eqb_neq in Hunset.
    split; [|split; [|split; [|split; [|split]]]];
      try discriminate; auto.
    split; [discriminate|]. intros [_ [H|H]]; congruence.
Qed.

End UdpNodeId.

Section Sockets.

Local Open Scope Z_scope.

Context {World : Type}.
Context {media_interface : IMedia World}.

Local Abbreviation ensure_one h m :=
  (withEnsureMediaTxSocket h m (fun m' _ => ret (None, m'))).

(** One media: nothing happens when it has its socket; otherwise
    [makeTxSocket] is called once, and without a handler the media has a
    socket afterwards unless an error is reported. *)
Lemma withEnsureMediaTxSocket_spec
      (h : option TransientErrorHandler) (m : Media) (w : World) :
  let r := ensure_one h m w in
  (has_tx_socket m = true -> r = ((None, m), w, []))
  /\ (has_tx_socket m = false ->
      makeTxSocket_calls (events_of r) = [(index m, interface m)])
  /\ index (snd (result_of r)) = index m
  /\ interface (snd (result_of r)) = interface m
  /\ udpard_tx (snd (result_of r)) = udpard_tx m
  /\ (fst (result_of r) = None -> h = None ->
      has_tx_socket (snd (result_of r)) = true).
Proof.
  cbv zeta. unfold withEnsureMediaTxSocket, has_tx_socket.
  destruct (tx_socket_ptr m) as [sock|] eqn:Hsock.
  { cbn. rewrite Hsock. repeat split; auto; discriminate. }
  unfold call_makeTxSocket, tryHandleTransientMediaError.
  CanProofs.run_eff.
  destruct (makeTxSocket (interface m) w) as [[[sock|]|err] w1];
    cbn [fst snd].
  - cbn. repeat split; auto; discriminate.
  - destruct h as [handler|].
    + destruct (handler _ w1) as [answer w2]. cbn. rewrite Hsock.
      repeat split; auto; discriminate.
    + cbn. repeat split; auto; discriminate.
  - destruct h as [handler|].
    + destruct (handler _ w1) as [answer w2]. cbn. rewrite Hsock.
      repeat split; auto; discriminate.
    + cbn. repeat split; auto; discriminate.
Qed.

Lemma ensureMediaTxSockets_loop_spec
      (h : option TransientErrorHandler) (media : list Media) (w : World) :
  let r := ensureMediaTxSockets_loop h media w in
  let media' := snd (result_of r) in
  map index media' = map index media
  /\ map interface media' = map interface media
  /\ map udpard_tx media' = map udpard_tx media
  /\ Forall2 (fun m m' => has_tx_socket m = true -> m' = m) media media'
  /\ is_prefix (makeTxSocket_calls (events_of r)) (without_tx_socket media)
  /\ (fst (result_of r) = None ->
      makeTxSocket_calls (events_of r) = without_tx_socket media)
  /\ (fst (result_of r) = None -> h = None ->
      Forall (fun m' => has_tx_socket m' = true) media')
  /\ (Forall (fun m => has_tx_socket m = true) media ->
      r = ((None, media), w, [])).
Proof.
  cbv zeta. revert w. induction media as [|m rest IH]; intros w.
  - cbn. repeat split; auto; try constructor. now exists [].
  - destruct (withEnsureMediaTxSocket_spec h m w)
      as (Hhas & Hnot & Hidx & Hif & Htx & Hok).
    cbv zeta in Hhas, Hnot, Hidx, Hif, Htx, Hok.
    assert (Hstep :
              ensureMediaTxSockets_loop h (m :: rest) w
              = let one := ensure_one h m w in
                match fst (result_of one) with
                | Some any_error =>
                    ((Some any_error, snd (result_of one) :: rest),
                     world_of one, events_of one)
                | None =>
                    let x := ensureMediaTxSockets_loop h rest (world_of one) in
                    ((fst (result_of x),
                      snd (result_of one) :: snd (result_of x)),
                     world_of x, events_of one ++ events_of x)
                end).
    { cbn [ensureMediaTxSockets_loop]. cbv zeta. unfold bind at 1.
      destruct (ensure_one h m w) as [[[e m'] w1] ev1].
      cbn [result_of world_of events_of fst snd].
      destruct e; [cbn; now rewrite app_nil_r|].
      unfold bind, ret.
      destruct (ensureMediaTxSockets_loop h rest w1) as [[[e2 r2] w2] ev2].
      cbn. now rewrite app_nil_r. }
    rewrite Hstep. clear Hstep. cbv zeta.
    destruct (ensure_one h m w) as [[[e m'] w1] ev1] eqn:Hone.
    cbn [result_of world_of events_of fst snd] in *.
    assert (Hcalls : makeTxSocket_calls ev1
                     = if has_tx_socket m then []
                       else [(index m, interface m)]).
    { destruct (has_tx_socket m) eqn:Hm.
      - specialize (Hhas eq_refl). now injection Hhas as _ _ _ ->.
      - now apply Hnot. }
    assert (Hkeep : has_tx_socket m = true -> m' = m).
    { intros Hm. specialize (Hhas Hm). now injection Hhas as _ -> _ _. }
    assert (Hcons : without_tx_socket (m :: rest)
                    = (if has_tx_socket m then []
                       else [(index m, interface m)])
                      ++ without_tx_socket rest).
    { unfold without_tx_socket. cbn [filter].
      now destruct (has_tx_socket m). }
    destruct e as [any_error|].
    + cbn [result_of world_of events_of fst snd map].
      rewrite Hidx, Hif, Htx, Hcons, Hcalls.
      split; [reflexivity|]. split; [reflexivity|]. split; [reflexivity|].
      split.
      { constructor; [exact Hkeep|]. clear.
        induction rest; constructor; auto. }
      split; [now exists (without_tx_socket rest)|].
      split; [discriminate|]. split; [discriminate|].
      intros Hall. inversion Hall as [|? ? Hm Hrest]; subst.
      specialize (Hhas Hm). discriminate.
    + destruct (IH w1) as (I1 & I2 & I3 & I4 & I5 & I6 & I7 & I8).
      destruct (ensureMediaTxSockets_loop h rest w1) as [[[e2 rest'] w2] ev2].
      cbn [result_of world_of events_of fst snd map] in *.
      rewrite Hidx, Hif, Htx, I1, I2, I3, Hcons.
      unfold makeTxSocket_calls in *. rewrite flat_map_app, Hcalls.
      split; [reflexivity|]. split; [reflexivity|]. split; [reflexivity|].
      split; [constructor; assumption|].
      split.
      { destruct I5 as (more & ->). exists more. now rewrite <- app_assoc. }
      split; [intros He; now rewrite (I6 He)|].
      split.
      { intros He Hh. constructor; [now apply Hok|now apply I7]. }
      intros Hall. inversion Hall as [|? ? Hm Hrest]; subst.
      specialize (Hhas Hm). injection Hhas as -> -> ->.
      specialize (I8 Hrest). now injection I8 as -> -> -> ->.
Qed.

Lemma ensureMediaTxSockets_all_sockets
      (t : TransportImpl) (w : World) :
  fst (result_of (ensureMediaTxSockets None t w)) = None ->
  Forall (fun m' => has_tx_socket m' = true)
         (media_array (snd (result_of (ensureMediaTxSockets None t w)))).
Proof.
  unfold ensureMediaTxSockets.
  destruct (ensureMediaTxSockets_loop_spec None (media_array t) w)
    as (_ & _ & _ & _ & _ & _ & H7 & _).
  cbv zeta in H7. unfold bind, ret.
  destruct (ensureMediaTxSockets_loop None (media_array t) w)
    as [[[e media'] w1] ev].
  cbn [result_of events_of fst snd media_array] in *. auto.
Qed.

(** X27: [ensureMediaTxSockets] asks for a socket only where one is missing:
    the media that have their socket keep it untouched, [makeTxSocket]
    is called for those that have none, in their order and up to the
    first error that is propagated; if no error is propagated every
    missing socket was asked for, and, when no handler is installed that
    could pass over a failure, every media has a socket afterwards. *)
Theorem ensureMediaTxSockets_makes_missing_sockets
        (h : option TransientErrorHandler) (t : TransportImpl) (w : World) :
  let r := ensureMediaTxSockets h t w in
  let t' := snd (result_of r) in
  node_id t' = node_id t
  /\ map index (media_array t') = map index (media_array t)
  /\ map interface (media_array t') = map interface (media_array t)
  /\ map udpard_tx (media_array t') = map udpard_tx (media_array t)
  /\ Forall2 (fun m m' => has_tx_socket m = true -> m' = m)
             (media_array t) (media_array t')
  /\ is_prefix (makeTxSocket_calls (events_of r))
               (without_tx_socket (media_array t))
  /\ (fst (result_of r) = None ->
      makeTxSocket_calls (events_of r) = without_tx_socket (media_array t))
  /\ (fst (result_of r) = None -> h = None ->
      Forall (fun m' => has_tx_socket m' = true) (media_array t')).
Proof.
  cbv zeta. unfold ensureMediaTxSockets.
  destruct (ensureMediaTxSockets_loop_spec h (media_array t) w)
    as (H1 & H2 & H3 & H4 & H5 & H6 & H7 & _).
  cbv zeta in H1, H2, H3, H4, H5, H6, H7.
  unfold bind, ret.
  destruct (ensureMediaTxSockets_loop h (media_array t) w)
    as [[[e media'] w1] ev].
  cbn [result_of events_of fst snd media_array node_id] in *.
  rewrite app_nil_r. repeat split; assumption.
Qed.

(** X28: Once every media has its socket, [ensureMediaTxSockets] has nothing
    left to do: whatever the handler and the state of the media drivers,
    it calls nobody and changes nothing. *)
Theorem ensureMediaTxSockets_settles
        (t : TransportImpl) (w : World)
        (h' : option TransientErrorHandler) (w' : World) :
  fst (result_of (ensureMediaTxSockets None t w)) = None ->
  let t' := snd (result_of (ensureMediaTxSockets None t w)) in
  ensureMediaTxSockets h' t' w' = ((None, t'), w', []).
Proof.
  intros Hnone. cbv zeta.
  pose proof (ensureMediaTxSockets_all_sockets t w Hnone)
    as Hall.
  unfold ensureMediaTxSockets at 1.
  destruct (ensureMediaTxSockets_loop_spec
              h' (media_array (snd (result_of (ensureMediaTxSockets None t w))))
              w') as (_ & _ & _ & _ & _ & _ & _ & Hsame).
  cbv zeta in Hsame. unfold bind, ret. rewrite (Hsame Hall).
  cbn [fst snd app].
  now destruct (snd (result_of (ensureMediaTxSockets None t w))).
Qed.

End Sockets.

Import ScriptedSockets.

Lemma ensureMediaTxSockets_settles_witness :
  let t' :=
    snd (result_of (ensureMediaTxSockets
                      None ScriptedSockets.two_media ScriptedSockets.ready)) in
  fst (result_of (ensureMediaTxSockets
                    None ScriptedSockets.two_media ScriptedSockets.ready))
  = None
  /\ ensureMediaTxSockets None t' ScriptedSockets.failing
     = ((None, t'), ScriptedSockets.failing, []).
Proof.
  cbv zeta. split; [reflexivity|].
  exact (ensureMediaTxSockets_settles
           ScriptedSockets.two_media ScriptedSockets.ready None
           ScriptedSockets.failing eq_refl).
Defined.

End UdpProofs.


(* ===================================================================== *)
(** * Properties of the POSIX output session *)
(* ===================================================================== *)

Module PosixProofs.

Import Posix.

Local Open Scope Z_scope.

Section Session.

Context {World : Type}.
Context {sockets : Sockets World}.

Lemma ensure_multicast_spec (s : PosixOutputSession) (w : World) :
  let r := ensure_multicast s w in
  socket_fd_ (result_of r) = socket_fd_ s
  /\ local_address_ (result_of r) = local_address_ s
  /\ node_id_ (result_of r) = node_id_ s
  /\ (multicast_set_ s = true -> r = (s, w, []))
  /\ (multicast_set_ s = false ->
      exists status,
        events_of r = [EvSetMulticast (socket_fd_ s) (local_address_ s) status]
        /\ multicast_set_ (result_of r) = isSuccess status).
Proof.
  cbv zeta. unfold ensure_multicast.
  destruct (multicast_set_ s) eqn:Hset; cbn [negb].
  - cbn. repeat split; auto. discriminate.
  - destruct (setMulticast (socket_fd_ s) (local_address_ s) w)
      as [status w1].
    cbn. repeat split; auto; try discriminate. intros _. now exists status.
Qed.

(** One send: at most one call of [setMulticast], none if multicast is
    set, then the send itself on the socket of the session. *)
Lemma send_spec (c : Send) (s : PosixOutputSession) (w : World) :
  let r := send c s w in
  let s' := snd (result_of r) in
  socket_fd_ s' = socket_fd_ s
  /\ local_address_ s' = local_address_ s
  /\ node_id_ s' = node_id_ s
  /\ flat_map sent (events_of r) = [c]
  /\ closes (events_of r) = []
  /\ Forall (fun e => socket_of e = socket_fd_ s) (events_of r)
  /\ multicast_set_ s'
     = multicast_set_ s || existsb multicast_succeeded (events_of r)
  /\ length (filter is_setMulticast (events_of r))
     = (if multicast_set_ s then 0 else 1)%nat.
Proof.
  cbv zeta.
  destruct (ensure_multicast_spec s w) as (Hfd & Haddr & Hid & Hset & Hunset).
  cbv zeta in Hfd, Haddr, Hid, Hset, Hunset.
  destruct c as [subject_id frame|remote_node_id frame]; cbn [send];
    [unfold broadcast|unfold session_sendServiceTransfer];
    unfold bind;
    destruct (ensure_multicast s w) as [[s1 w1] ev1];
    cbn [result_of events_of fst snd] in *;
    [destruct (sendBroadcast (socket_fd_ s1) subject_id frame w1)
      as [status w2]
    |destruct (sendServiceTransfer (socket_fd_ s1) remote_node_id frame w1)
      as [status w2]];
    cbn [result_of events_of fst snd];
    (destruct (multicast_set_ s) eqn:Hm;
     [specialize (Hset eq_refl); injection Hset as -> -> ->;
      cbn; rewrite Hm; repeat split; auto
     |destruct (Hunset eq_refl) as (st & -> & Hres);
      cbn; rewrite Hfd, Hres, orb_false_r; repeat split; auto]).
Qed.

Lemma sends_spec (cs : list Send) (s : PosixOutputSession) (w : World) :
  let r := sends cs s w in
  let s' := result_of r in
  socket_fd_ s' = socket_fd_ s
  /\ flat_map sent (events_of r) = cs
  /\ closes (events_of r) = []
  /\ Forall (fun e => socket_of e = socket_fd_ s) (events_of r)
  /\ multicast_set_ s'
     = multicast_set_ s || existsb multicast_succeeded (events_of r)
  /\ (length (filter multicast_succeeded (events_of r))
      + (if multicast_set_ s then 1 else 0) <= 1)%nat
  /\ (multicast_set_ s = true -> filter is_setMulticast (events_of r) = []).
Proof.
  cbv zeta. revert s w. induction cs as [|c rest IH]; intros s w.
  - cbn. rewrite orb_false_r. repeat split; auto.
    destruct (multicast_set_ s); lia.
  - cbn [sends]. unfold bind.
    destruct (send_spec c s w) as (Hfd & _ & _ & Hsent & Hcl & Hsock & Hm & Hn).
    cbv zeta in Hfd, Hsent, Hcl, Hsock, Hm, Hn.
    destruct (send c s w) as [[[status s1] w1] ev1].
    cbn [result_of events_of fst snd] in *.
    destruct (IH s1 w1) as (I1 & I2 & I3 & I4 & I5 & I6 & I7).
    destruct (sends rest s1 w1) as [[s2 w2] ev2].
    cbn [result_of events_of fst snd] in *.
    unfold closes in *.
    rewrite !flat_map_app, !filter_app, existsb_app, length_app.
    rewrite Hsent, I2, Hcl, I3, I1, Hfd, I5, Hm.
    split; [reflexivity|]. split; [reflexivity|]. split; [reflexivity|].
    split.
    { apply Forall_app. split; [exact Hsock|]. now rewrite <- Hfd. }
    split; [now rewrite orb_assoc|].
    assert (Hone : (length (filter multicast_succeeded ev1)
                    <= length (filter is_setMulticast ev1))%nat).
    { clear. induction ev1 as [|e l IHl]; [cbn; lia|].
      cbn [filter]. destruct e; cbn; try exact IHl.
      destruct (isSuccess status); cbn; lia. }
    assert (Hex : existsb multicast_succeeded ev1 = true ->
                  (1 <= length (filter multicast_succeeded ev1))%nat).
    { clear. induction ev1 as [|e l IHl]; [discriminate|].
      cbn [existsb filter]. destruct (multicast_succeeded e); cbn; [lia|].
      exact IHl. }
    rewrite Hm in I6, I7.
    destruct (multicast_set_ s) eqn:Hs.
    + cbn [orb] in *. rewrite Hn in Hone.
      assert (Hz : filter is_setMulticast ev1 = [])
        by (destruct (filter is_setMulticast ev1); [reflexivity|discriminate]).
      split; [lia|]. intros _. now rewrite Hz, (I7 eq_refl).
    + cbn [orb] in *. rewrite Hn in Hone. split; [|discriminate].
      destruct (existsb multicast_succeeded ev1) eqn:He.
      * specialize (Hex eq_refl). lia.
      * destruct (filter multicast_succeeded ev1) eqn:Hf; [cbn; lia|].
        exfalso. assert (Hin : In e (filter multicast_succeeded ev1))
          by (rewrite Hf; now left).
        apply filter_In in Hin as [Hin Hsucc].
        assert (existsb multicast_succeeded ev1 = true)
          by (apply existsb_exists; eauto).
        congruence.
Qed.

(** X29: Multicast is set up on demand and once: over any sequence of sends
    on a session, [setMulticast] succeeds at most once, and is not
    called at all when multicast is set from the start; the sends go
    out in the order of the calls, each on the socket of the session,
    which is neither closed nor replaced. *)
Theorem multicast_is_set_up_once
        (cs : list Send) (s : PosixOutputSession) (w : World) :
  let r := sends cs s w in
  (length (filter multicast_succeeded (events_of r))
   + (if multicast_set_ s then 1 else 0) <= 1)%nat
  /\ (multicast_set_ s = true -> filter is_setMulticast (events_of r) = [])
  /\ multicast_set_ (result_of r)
     = multicast_set_ s || existsb multicast_succeeded (events_of r)
  /\ flat_map sent (events_of r) = cs
  /\ Forall (fun e => socket_of e = socket_fd_ s) (events_of r)
  /\ closes (events_of r) = []
  /\ socket_fd_ (result_of r) = socket_fd_ s.
Proof.
  cbv zeta.
  destruct (sends_spec cs s w) as (H1 & H2 & H3 & H4 & H5 & H6 & H7).
  cbv zeta in H1, H2, H3, H4, H5, H6, H7. repeat split; assumption.
Qed.

(** X30: Which session closes the socket, among the session that was
    initialised and the one it is moved to (copies, which share the
    descriptor, are left aside): a session that was initialised closes
    the descriptor it was given when it is destroyed, and none if the
    initialisation failed; a session that was moved from closes nothing,
    and the session moved to closes the descriptor of the original. *)
Theorem socket_is_closed_by_its_owner
        (s : PosixOutputSession) (w : World) :
  let made := initialize s w in
  let fd := socket_fd_ (snd (result_of made)) in
  let moved := move_construct (snd (result_of made)) in
  (fst (result_of made) = Success <-> fd <> ClosedSocket)
  /\ events_of made = [EvCreateSocket fd]
  /\ (forall w',
         closes (events_of (PosixOutputSession_delete
                              (snd (result_of made)) w'))
         = if fd =? ClosedSocket then [] else [fd])
  /\ (forall w', PosixOutputSession_delete (snd moved) w'
                 = (snd moved, w', []))
  /\ (forall w',
         closes (events_of (PosixOutputSession_delete (fst moved) w'))
         = if fd =? ClosedSocket then [] else [fd])
  /\ (forall w',
         socket_fd_ (result_of (PosixOutputSession_delete (fst moved) w'))
         = ClosedSocket).
Proof.
  cbv zeta. unfold initialize, move_construct, PosixOutputSession_delete.
  destruct (createSocket w) as [fd w1].
  cbn [result_of events_of fst snd socket_fd_ set_socket_fd
       set_multicast_set].
  destruct (fd =? ClosedSocket) eqn:Hfd; cbn [negb].
  - apply Z.eqb_eq in Hfd. subst fd.
    repeat split; auto; try discriminate. intros H. now destruct H.
  - apply Z.eqb_neq in Hfd.
    repeat split; auto; try discriminate; intros w';
      destruct (close fd w') as [code w2]; reflexivity.
Qed.

End Session.

End PosixProofs.


(* ===================================================================== *)
(** * The factories of both transports *)
(* ===================================================================== *)

Module FactoryProofs.

Local Open Scope Z_scope.

Section Factories.

Context {World : Type}.
Context {media_interface : Can.IMedia World}.
Context {canard : Can.Canard World}.
Context {memory : MemoryResource World}.
Variable Event : Type.

(** C8: a factory returns the argument error exactly when the number of
    non-null media is zero or above the maximum of the transport (255 for
    CAN, 3 for UDP) or, for CAN, when a node id is given that is not
    valid; the UDP factory takes no node id. In every other case it
    returns a transport if the memory resource grants the media array and
    the transport, and the memory error if it does not. *)
Theorem makeTransport_argument_error
        (media : list (option IMediaRef)) (tx_capacity : nat)
        (local_node_id : option NodeId) (w : World) :
  (forall n, local_node_id = Some n -> 0 <= n <= uint16_max) ->
  let count := Can.count_non_null media in
  let can := result_of (Can.make media tx_capacity local_node_id w) in
  let udp := result_of (Udp.make Event media tx_capacity w) in
  let granted :=
    fst (allocate (AllocMediaArray count) w)
    && fst (allocate AllocTransport
                     (snd (allocate (AllocMediaArray count) w))) in
  (can = Failure FactoryArgumentError <->
   count = 0%nat \/ (255 < count)%nat
   \/ exists n, local_node_id = Some n /\ ~ Can.valid_node_id n)
  /\ (udp = Failure FactoryArgumentError <->
      count = 0%nat \/ (3 < count)%nat)
  /\ (can <> Failure FactoryArgumentError ->
      if granted then exists t, can = Value t
      else can = Failure FactoryMemoryError)
  /\ (udp <> Failure FactoryArgumentError ->
      if granted then exists t, udp = Value t
      else udp = Failure FactoryMemoryError).
Proof.
  intros Hrange. cbv zeta.
  pose proof (CanProofs.make_cases media tx_capacity local_node_id w) as Hcan.
  pose proof (UdpProofs.udp_make_cases Event media tx_capacity w) as Hudp.
  cbv zeta in Hcan, Hudp.
  set (count := Can.count_non_null media) in *.
  set (granted := fst (allocate (AllocMediaArray count) w)
                  && fst (allocate AllocTransport
                                   (snd (allocate (AllocMediaArray count) w))))
    in *.
  assert (Hnode : Can.node_id_out_of_range local_node_id = true <->
                  exists n, local_node_id = Some n /\ ~ Can.valid_node_id n).
  { unfold Can.node_id_out_of_range, Can.valid_node_id.
    destruct local_node_id as [n|].
    - specialize (Hrange n eq_refl). rewrite Z.ltb_lt. split.
      + intros H. exists n. split; [reflexivity|lia].
      + intros (m & Hm & Hbad). injection Hm as <-. lia.
    - split; [discriminate|]. intros (m & Hm & _). discriminate. }
  split; [|split; [|split]].
  - destruct (Nat.eqb_spec count 0) as [Hz|Hz];
      destruct (Nat.ltb_spec 255 count) as [Hm|Hm];
      destruct (Can.node_id_out_of_range local_node_id) eqn:Hid;
      cbn [orb] in Hcan;
      try (split; [intros _; auto; right; right; now apply Hnode
                  |intros _; exact Hcan]).
    split.
    + intros Hfail. rewrite Hfail in Hcan.
      destruct granted; [discriminate|discriminate].
    + intros [H|[H|H]]; [lia|lia|].
      apply Hnode in H. discriminate.
  - destruct (Nat.eqb_spec count 0) as [Hz|Hz];
      destruct (Nat.ltb_spec 3 count) as [Hm|Hm];
      cbn [orb] in Hudp;
      try (split; [intros _; auto|intros _; exact Hudp]).
    split.
    + intros Hfail. rewrite Hfail in Hudp.
      destruct granted; discriminate.
    + intros [H|H]; lia.
  - intros Hne.
    destruct ((count =? 0)%nat || (255 <? count)%nat
              || Can.node_id_out_of_range local_node_id);
      [contradiction|].
    destruct granted; [eexists; exact Hcan|exact Hcan].
  - intros Hne.
    destruct ((count =? 0)%nat || (3 <? count)%nat); [contradiction|].
    destruct granted; [eexists; exact Hudp|exact Hudp].
Qed.

(** C10: null entries of the media span are passed over, in the count
    that is validated as in the array that is built. A span that holds
    between one and 255 interfaces (three for UDP) besides any number of
    null entries yields, with a valid node id and the memory granted, a
    transport, and that transport holds exactly the non-null interfaces,
    in their order, with the indices 0, 1, 2 and so on. In every case the
    factory does on the span what it does on the span without the null
    entries, and no transport it returns holds anything else. *)
Theorem make_tolerates_null_media
        (media : list (option IMediaRef)) (tx_capacity : nat)
        (local_node_id : option NodeId) (w : World) :
  let count := length (Can.non_null media) in
  let granted :=
    fst (allocate (AllocMediaArray count) w)
    && fst (allocate AllocTransport
                     (snd (allocate (AllocMediaArray count) w))) in
  Can.make (map Some (Can.non_null media)) tx_capacity local_node_id w
  = Can.make media tx_capacity local_node_id w
  /\ Can.count_non_null media = length (Can.non_null media)
  /\ ((0 < count <= 255)%nat ->
      (forall n, local_node_id = Some n -> n <= Can.CANARD_NODE_ID_MAX) ->
      granted = true ->
      exists t,
        result_of (Can.make media tx_capacity local_node_id w) = Value t
        /\ map Can.interface (Can.media_array t) = Can.non_null media
        /\ map Can.index (Can.media_array t) = map Z.of_nat (seq 0 count))
  /\ (forall t,
         result_of (Can.make media tx_capacity local_node_id w) = Value t ->
         map Can.interface (Can.media_array t) = Can.non_null media
         /\ map Can.index (Can.media_array t)
            = map Z.of_nat (seq 0 (length (Can.non_null media))))
  /\ Udp.make Event (map Some (Can.non_null media)) tx_capacity w
     = Udp.make Event media tx_capacity w
  /\ ((0 < count <= 3)%nat ->
      granted = true ->
      exists t,
        result_of (Udp.make Event media tx_capacity w) = Value t
        /\ map Udp.interface (Udp.media_array t) = Can.non_null media
        /\ map Udp.index (Udp.media_array t) = map Z.of_nat (seq 0 count))
  /\ (forall t,
         result_of (Udp.make Event media tx_capacity w) = Value t ->
         map Udp.interface (Udp.media_array t) = Can.non_null media
         /\ map Udp.index (Udp.media_array t)
            = map Z.of_nat (seq 0 (length (Can.non_null media)))).
Proof.
  cbv zeta.
  pose proof (CanProofs.count_non_null_length media) as Hcount.
  split; [now rewrite CanProofs.make_filtered|].
  split; [exact Hcount|].
  split.
  { intros [Hpos Hmax] Hid Hgranted.
    pose proof (CanProofs.make_cases media tx_capacity local_node_id w) as H.
    cbv zeta in H. rewrite Hcount in H.
    rewrite (proj2 (Nat.eqb_neq _ 0%nat)) in H by lia.
    rewrite (proj2 (Nat.ltb_ge _ _)) in H by lia.
    assert (Hnode : Can.node_id_out_of_range local_node_id = false).
    { unfold Can.node_id_out_of_range. destruct local_node_id as [n|];
        [|reflexivity].
      apply Z.ltb_ge. now apply Hid. }
    rewrite Hnode, Hgranted in H. cbn [orb] in H.
    eexists. split; [exact H|].
    exact (CanProofs.make_media _ _ _ _ _ H). }
  split; [intros t; apply CanProofs.make_media|].
  split; [now rewrite UdpProofs.udp_make_filtered|].
  split; [|intros t; apply UdpProofs.udp_make_media].
  intros [Hpos Hmax] Hgranted.
  pose proof (UdpProofs.udp_make_cases Event media tx_capacity w) as H.
  cbv zeta in H. rewrite Hcount in H.
  rewrite (proj2 (Nat.eqb_neq _ 0%nat)) in H by lia.
  rewrite (proj2 (Nat.ltb_ge _ _)) in H by lia.
  rewrite Hgranted in H. cbn [orb] in H.
  eexists. split; [exact H|].
  exact (UdpProofs.udp_make_media Event _ _ _ _ H).
Qed.

End Factories.

End FactoryProofs.


(* ===================================================================== *)
(** * The properties at work in the scenarios *)
(* ===================================================================== *)

Module ScenarioProofs.

Import Can. Import Scripted. Import Scenarios.

Local Open Scope Z_scope.

(** C1 at work: at 10 us the frame that expired at 5 us is freed without
    a push. *)
Lemma expired_frames_are_dropped_witness :
  drain 10 0 1%nat [frame_a; frame_b] plenty
  = (result_of (drain 10 0 1%nat [frame_b] plenty),
     world_of (drain 10 0 1%nat [frame_b] plenty),
     EvFreeTxItem 0 frame_a
     :: events_of (drain 10 0 1%nat [frame_b] plenty)).
Proof.
  apply (proj2 (proj2 (proj2 (CanProofs.expired_frames_are_dropped
                                10 (one_media [frame_a; frame_b]) plenty)))).
  vm_compute. discriminate.
Defined.

(** C2 at work: two media, the first is busy once; its queue is as it
    was, the second media sent both frames. *)
Lemma busy_media_is_retried_witness :
  media_array (result_of (run 10 (two_media [frame_b; frame_b]) busy_once))
  = [media_0 [frame_b; frame_b]; media_1 []].
Proof.
  pose proof (CanProofs.busy_media_is_retried
                10 (two_media [frame_b; frame_b]) busy_once
                [] [media_1 [frame_b; frame_b]] (media_0 [frame_b; frame_b])
                eq_refl) as H.
  cbv zeta in H. destruct H as [H _]. rewrite H. reflexivity.
Defined.

(** C3 as stated fails: two non-empty fragments and no memory for the
    contiguous buffer; the memory error is returned and the codec is
    called for none of the two media. *)
Lemma sendTransfer_without_memory :
  let r := sendTransfer 0 nominal [[Byte.x30]; [Byte.x31]] (two_media [])
                        no_memory in
  fst (result_of r) = Some MemoryError
  /\ events_of r = []
  /\ ~ (map fst (canardTxPush_results (events_of r))
        = map index (media_array (two_media []))).
Proof.
  cbv zeta. split; [reflexivity|]. split; [reflexivity|].
  vm_compute. discriminate.
Qed.

(** C3, amended, at work: the first media fails, the second does not;
    both are attempted and the failure of the first is returned. *)
Lemma sendTransfer_attempts_every_media_witness :
  let w := Scripted.mkWorld [] 10 [-3; 1] 8 in
  let r := sendTransfer 0 nominal [[Byte.x30]; [Byte.x31]] (two_media []) w in
  map fst (canardTxPush_results (events_of r)) = [0; 1]
  /\ fst (result_of r) = Some MemoryError.
Proof.
  cbv zeta.
  pose proof (CanProofs.sendTransfer_attempts_every_media
                0 nominal [[Byte.x30]; [Byte.x31]] (two_media [])
                (Scripted.mkWorld [] 10 [-3; 1] 8)) as H.
  cbv zeta in H.
  change (out_of_payload_memory [[Byte.x30]; [Byte.x31]]
                                (Scripted.mkWorld [] 10 [-3; 1] 8))
    with false in H.
  destruct H as (Hcalls & _ & _ & Hret).
  split; [rewrite Hcalls; reflexivity|rewrite Hret; reflexivity].
Defined.

Lemma subscribed_transport_reachable :
  reachable (World := Scripted.World) subscribed_transport.
Proof.
  apply reachable_op.
  apply (reachable_make [Some 1%nat] 16 None plenty). reflexivity.
Qed.

(** C4 at work: the subject 111 is subscribed; a second session for it
    is refused and nothing changes. *)
Lemma at_most_one_subscription_witness :
  makeMessageRxSession (mkRxParams 0 111) subscribed_transport plenty
  = (Failure AlreadyExistsError, subscribed_transport, plenty, []).
Proof.
  apply (proj1 (proj2 (proj2 (CanProofs.at_most_one_subscription
                                subscribed_transport
                                subscribed_transport_reachable)))).
  vm_compute. discriminate.
Defined.

(** C8 at work: a node id above the maximum is refused, a valid one
    with memory at hand yields a transport. *)
Lemma makeTransport_argument_error_witness :
  result_of (make [Some 1%nat; None; Some 2%nat] 16 (Some 128) plenty)
  = Failure FactoryArgumentError
  /\ exists t,
      result_of (make [Some 1%nat; None; Some 2%nat] 16 (Some 42) plenty)
      = Value t.
Proof.
  split.
  - apply (proj1 (FactoryProofs.makeTransport_argument_error
                    unit [Some 1%nat; None; Some 2%nat] 16%nat (Some 128)
                    plenty
                    ltac:(intros n H; injection H as <-;
                          unfold uint16_max; lia))).
    right. right. exists 128. split; [reflexivity|].
    unfold valid_node_id, CANARD_NODE_ID_MAX. lia.
  - apply (proj1 (proj2 (proj2
                    (FactoryProofs.makeTransport_argument_error
                       unit [Some 1%nat; None; Some 2%nat] 16%nat (Some 42)
                       plenty
                       ltac:(intros n H; injection H as <-;
                             unfold uint16_max; lia))))).
    vm_compute. discriminate.
Defined.

(** C10 at work: a null entry between two interfaces. *)
Lemma make_tolerates_null_media_witness :
  result_of (make [Some 1%nat; None; Some 2%nat] 16 None plenty)
  = Value mixed_span_transport
  /\ map interface (media_array mixed_span_transport) = [1%nat; 2%nat]
  /\ map index (media_array mixed_span_transport) = [0; 1].
Proof.
  destruct (proj1 (proj2 (proj2 (FactoryProofs.make_tolerates_null_media
                                   unit [Some 1%nat; None; Some 2%nat] 16%nat
                                   None plenty)))
                  ltac:(cbn; lia) ltac:(discriminate) eq_refl)
    as (t & Hmake & Hinterfaces & Hindices).
  change (result_of (make [Some 1%nat; None; Some 2%nat] 16 None plenty))
    with (Value (F := FactoryError) mixed_span_transport) in Hmake.
  injection Hmake as <-.
  split; [reflexivity|]. split; [exact Hinterfaces|exact Hindices].
Defined.

Lemma fresh_transport_reachable :
  reachable (World := Scripted.World) fresh_transport.
Proof. apply (reachable_make [Some 1%nat] 16 None plenty). reflexivity. Qed.

Lemma sessions_match_subscriptions_witness :
  reachable (World := Scripted.World) subscribed_transport
  /\ length (rx_sessions subscribed_transport) = 1%nat.
Proof.
  split; [exact subscribed_transport_reachable|].
  exact (proj1 (proj2 (CanProofs.sessions_match_subscriptions
                         subscribed_transport
                         subscribed_transport_reachable))).
Defined.

Lemma delete_undoes_make_witness :
  let made := makeRxSession CanardTransferKindMessage (mkRxParams 0 111)
                            fresh_transport plenty in
  let t'' := result_of (RxSession_delete 0%nat (snd (result_of made))
                                         plenty) in
  rx_sessions t'' = [] /\ should_reconfigure_filters t'' = true.
Proof.
  cbv zeta.
  pose proof (CanProofs.delete_undoes_make
                CanardTransferKindMessage (mkRxParams 0 111) fresh_transport
                (snd (result_of (makeRxSession CanardTransferKindMessage
                                               (mkRxParams 0 111)
                                               fresh_transport plenty)))
                0%nat plenty plenty fresh_transport_reachable eq_refl) as H.
  cbv zeta in H. destruct H as (_ & H2 & _ & _ & _ & H6).
  split; [exact H2|exact H6].
Defined.

Lemma node_id_is_set_once_witness :
  getLocalNodeId (one_media []) = Some 69
  /\ getLocalNodeId
       (result_of (apply_op (OpSetLocalNodeId 70) (one_media []) plenty))
     = Some 69.
Proof.
  split; [reflexivity|].
  apply (CanProofs.node_id_is_set_once (one_media []) 69
                                       (OpSetLocalNodeId 70) plenty).
  reflexivity.
Defined.

Lemma getLocalNodeId_reads_back_witness :
  0 <= 69
  /\ getLocalNodeId (snd (setLocalNodeId 69 fresh_transport)) = Some 69.
Proof.
  split; [lia|].
  apply (proj2 (proj2 (CanProofs.getLocalNodeId_reads_back
                         (World := Scripted.World) 69 ltac:(lia)))).
  reflexivity.
Defined.

Lemma getProtocolParams_least_mtu_witness :
  pp_mtu_bytes (getProtocolParams (two_media []) plenty) = 8.
Proof.
  pose proof (CanProofs.getProtocolParams_least_mtu (two_media []) plenty)
    as H.
  assert (Hmedia : media_array (two_media []) <> []) by discriminate.
  assert (Hfit : Forall (fun m => Z.of_nat (getMtu (interface m) plenty)
                                  <= size_t_max)
                        (media_array (two_media []))).
  { repeat constructor; vm_compute; discriminate. }
  specialize (H Hmedia Hfit). cbv zeta in H.
  destruct H as (_ & _ & _ & m & Hin & ->).
  destruct Hin as [<-|[<-|[]]]; reflexivity.
Defined.

Lemma deadline_survives_the_queue_witness :
  let tx_item := mkTxItem (to_uint64 (-5)) (mkFrame 7 [Byte.x30]) in
  - 2 ^ 63 <= -5 < 2 ^ 63
  /\ deadline_of tx_item = -5
  /\ drain 0 0 1%nat [tx_item] plenty = ([], plenty, [EvFreeTxItem 0 tx_item]).
Proof.
  cbv zeta. split; [lia|].
  pose proof (CanProofs.deadline_survives_the_queue
                (-5) 0 (mkFrame 7 [Byte.x30]) 0 1%nat plenty ltac:(lia)) as H.
  cbv zeta in H. destruct H as (H1 & H2 & _).
  split; [exact H1|]. apply H2. lia.
Defined.

Lemma runMediaFilters_hands_every_media_the_filters_witness :
  Forall2 (fun m e =>
             exists answer,
               e = EvSetFilters (index m) (interface m)
                                [mkFilter 111 0] answer)
          (media_array subscribed_transport)
          (events_of (runMediaFilters subscribed_transport plenty)).
Proof.
  exact (proj1 (CanProofs.runMediaFilters_hands_every_media_the_filters
                  subscribed_transport plenty subscribed_transport_reachable
                  eq_refl eq_refl)).
Defined.

Lemma setTransferIdTimeout_sets_own_timeout_witness :
  0 <= 5 < 2 ^ 63
  /\ tree_search 111 (subs_message
                        (canard_instance
                           (setTransferIdTimeout 0%nat 5 subscribed_transport)))
     = Some (mkSubscription 111 0 5 0%nat).
Proof.
  split; [lia|].
  pose proof (CanProofs.setTransferIdTimeout_sets_own_timeout
                subscribed_transport 0%nat
                (mkRxSession 0%nat CanardTransferKindMessage 111 0%nat
                             None None)
                5 subscribed_transport_reachable eq_refl) as H.
  cbv zeta in H. destruct H as (_ & H & _).
  destruct (H ltac:(lia)) as (sub & Hsub & _ & Hset).
  injection Hsub as <-. exact Hset.
Defined.

(** The receiving scenarios: a frame for the subject 111 comes in. *)
Import ScriptedRx.





End ScenarioProofs.
